(** * pkg/object/sharding.go: the sharded object store

    A shallow embedding of [sharding.go] (JuiceFS): the shard router
    [sharded.pick], the forwarding facade, the paginated listing driver
    [ListAll], the [container/heap] merge of [sharded.ListAll] and the
    constructor [NewSharded].

    Conventions of the embedding.
    - A backend ([ObjectStorage]) is a value of a state type [St]; each method
      takes the state and returns its result with the next state.
    - A Go channel is the sequence of values its producer sends followed by the
      information whether the producer closed it.  Buffer capacities only
      bound how far a producer runs ahead of its consumer and are not part of
      the model.
    - Loops that Go does not bound (the retry loop, the page loop) take fuel;
      running out of fuel is reported as an unfinished run, never as a result.
    - A Go panic (index out of range, division by zero) is [None] in the
      option monad.
    - Lengths and indices of slices are natural numbers: the overflow of
      [int] beyond [2^63] is not modelled.  Conversions to [uint32] are
      written out. *)

From Stdlib Require Import ZArith Lia ZifyNat Sorted.
From Stdlib Require DecimalString.
From Stdlib Require Import Ascii.
From stdpp Require Import base option list strings.

Local Open Scope Z_scope.

(** ** Keys

    Go compares strings byte by byte; so do [String.ltb] and [String.leb]. *)

Definition key_lt (a b : string) : Prop := String.ltb a b = true.
Definition key_le (a b : string) : Prop := String.ltb b a = false.

(** ** Errors *)

(** [notSupported] is a package-level sentinel declared outside this file;
    [errorString] stands for [errors.New] and [fmt.Errorf] without [%w];
    [wrapError] for an error that wraps another one. *)
Inductive error :=
| notSupported
| errorString (msg : string)
| wrapError (msg : string) (inner : error).

Inductive result (A : Type) :=
| Ok (a : A)
| Err (e : error).
Arguments Ok {A} a.
Arguments Err {A} e.

Module errors.

(** [err == target] on sentinels. *)
Definition eqb (e target : error) : bool :=
  match e, target with
  | notSupported, notSupported => true
  | _, _ => false
  end.

(** [errors.Is(err, notSupported)]: walk the chain of wrapped errors. *)
Fixpoint Is (e target : error) : bool :=
  eqb e target ||
  match e with
  | wrapError _ inner => Is inner target
  | _ => false
  end.

(** [err.Error()] *)
Fixpoint Error (e : error) : string :=
  match e with
  | notSupported => "not supported"
  | errorString msg => msg
  | wrapError msg inner => msg +:+ ": " +:+ Error inner
  end.

End errors.

(** ** hash/fnv: the 32-bit FNV-1a hash object *)

Module fnv.

Definition offset32 : Z := 2166136261.
Definition prime32 : Z := 16777619.

(** conversion to [uint32] *)
Definition uint32 (z : Z) : Z := z mod 2 ^ 32.

Definition byte_val (c : Byte.byte) : Z := Z.of_N (Byte.to_N c).

(** [type sum32a uint32] *)
Definition sum32a : Type := Z.

Definition New32a : sum32a := offset32.

(** [func (s *sum32a) Write(data []byte)]:
    [hash ^= uint32(c); hash *= prime32] for every byte. *)
Fixpoint Write (s : sum32a) (data : list Byte.byte) : sum32a :=
  match data with
  | [] => s
  | c :: rest => Write (uint32 (Z.lxor s (byte_val c) * prime32)) rest
  end.

Definition Sum32 (s : sum32a) : Z := s.

End fnv.

(** [[]byte(key)] *)
Definition bytes (key : string) : list Byte.byte := String.list_byte_of_string key.

(** ** Objects, channels and backends *)

(** The [Object] interface: only [Key] is used by this file. *)
Class Object (Ob : Type) := Key : Ob → string.

(** A [<-chan Object] as seen by its consumer: the values sent so far that
    were not yet received ([None] is a [nil] object), and whether the
    producer has closed the channel. *)
Record channel (Ob : Type) := Channel {
  sent : list (option Ob);
  closed : bool
}.
Arguments Channel {Ob} sent closed.
Arguments sent {Ob} c.
Arguments closed {Ob} c.

(** [v := <-ch].  A closed and drained channel yields [nil]; an open and
    empty channel whose producer never sends again blocks forever, which is
    the outer [None]. *)
Definition recv {Ob} (c : channel Ob) : option (option Ob * channel Ob) :=
  match sent c with
  | x :: rest => Some (x, Channel rest (closed c))
  | [] => if closed c then Some (None, c) else None
  end.

(** The [ObjectStorage] interface, state passing over the backend state. *)
Class ObjectStorage (St Ob : Type) := {
  store_String : St → string;
  store_Head : string → St → result Ob * St;
  store_Get : string → Z → Z → St → result string * St;
  store_Put : string → string → St → option error * St;
  store_Delete : string → St → option error * St;
  store_List : string → string → string → Z → bool → St → result (list Ob) * St;
  store_ListAll : string → string → bool → St → result (channel Ob) * St
}.

(** ** The paginated listing driver *)

Definition maxResults : Z := 10000.

(** What a run of the driver does, in program order: the requests to the
    backend, the pauses, and the traffic on its output channel. *)
Inductive event (Ob : Type) :=
| EvListAll (prefix marker : string) (followLink : bool)
| EvList (prefix marker delimiter : string) (limit : Z) (followLink : bool)
| EvSleep (ms : Z)
| EvSend (o : option Ob)
| EvClose.
Arguments EvListAll {Ob} prefix marker followLink.
Arguments EvList {Ob} prefix marker delimiter limit followLink.
Arguments EvSleep {Ob} ms.
Arguments EvSend {Ob} o.
Arguments EvClose {Ob}.

(** The values put on the output channel by a run. *)
Definition sends {Ob} (tr : list (event Ob)) : list (option Ob) :=
  omap (λ e, match e with EvSend o => Some o | _ => None end) tr.

(** Whether the run closed its output channel. *)
Definition closes {Ob} (tr : list (event Ob)) : bool :=
  existsb (λ e, match e with EvClose => true | _ => false end) tr.

Definition is_request {Ob} (e : event Ob) : bool :=
  match e with EvList _ _ _ _ _ => true | _ => false end.

(** Number of page requests ([store.List]) of a run. *)
Definition requests {Ob} (tr : list (event Ob)) : nat :=
  length (List.filter is_request tr).

(** The outcome of [ListAll(store, ...)]: its events, what it returns to the
    caller and the backend state it leaves ([None] while the producer
    goroutine is still running when the fuel is spent). *)
Record listing (St Ob : Type) := Listing {
  events : list (event Ob);
  returned : result (channel Ob);
  final : option St
}.
Arguments Listing {St Ob} events returned final.
Arguments events {St Ob} l.
Arguments returned {St Ob} l.
Arguments final {St Ob} l.

(** Functions of the package that live in other files. *)
Class Package (St Ob Env : Type) := {
  ListAllWithDelimiter : St → string → string → string → bool → listing St Ob;
  CreateStorage : string → string → string → string → string → Env → result St * Env
}.

Section Driver.
Context {St Ob Env : Type} `{!Object Ob, !ObjectStorage St Ob, !Package St Ob Env}.

(** Lines 116-127, [for _, obj := range objs]: the sends of one page and,
    unless the page is aborted by keys out of order, the values of
    [lastkey] and [first] after it. *)
Fixpoint ListAll_range (objs : list Ob) (lastkey : string) (first : bool)
    : list (event Ob) * option (string * bool) :=
  match objs with
  | [] => ([], Some (lastkey, first))
  | obj :: rest =>
      let key := Key obj in
      if negb first && String.leb key lastkey
      then ([EvSend None], None)
      else
        let '(tr, r) := ListAll_range rest key false in
        (EvSend (Some obj) :: tr, r)
  end.

(** Lines 137-143: request the page after [marker], sleeping 100ms and
    asking again for as long as the request fails.  [fuel] bounds the
    number of repetitions. *)
Fixpoint ListAll_next (fuel : nat) (prefix marker : string) (followLink : bool)
    (st : St) : list (event Ob) * option (list Ob * St) :=
  let req := EvList prefix marker "" maxResults followLink in
  match store_List prefix marker "" maxResults followLink st with
  | (Ok objs, st') => ([req], Some (objs, st'))
  | (Err _, st') =>
      match fuel with
      | O => ([req], None)
      | S f =>
          let '(tr, r) := ListAll_next f prefix marker followLink st' in
          (req :: EvSleep 100 :: tr, r)
      end
  end.

(** Lines 110-146, the producer goroutine from the head of its
    [for len(objs) > 0] loop. *)
Fixpoint ListAll_loop (fuel : nat) (prefix : string) (followLink : bool)
    (st : St) (objs : list Ob) (lastkey : string) (first : bool)
    : list (event Ob) * option St :=
  match objs with
  | [] => ([EvClose], Some st)
  | _ :: _ =>
      match ListAll_range objs lastkey first with
      | (tr, None) => (tr ++ [EvClose], Some st)
      | (tr, Some (lastkey, first)) =>
          if String.eqb lastkey "" then (tr ++ [EvClose], Some st)
          else
            match fuel with
            | O => (tr, None)
            | S f =>
                match ListAll_next f prefix lastkey followLink st with
                | (tr2, None) => (tr ++ tr2, None)
                | (tr2, Some (objs', st')) =>
                    let '(tr3, r) :=
                      ListAll_loop f prefix followLink st' objs' lastkey first in
                    (tr ++ tr2 ++ tr3, r)
                end
            end
      end
  end.

(** [func ListAll(store ObjectStorage, prefix, marker string, followLink bool)] *)
Definition ListAll (fuel : nat) (store : St) (prefix marker : string)
    (followLink : bool) : listing St Ob :=
  match store_ListAll prefix marker followLink store with
  | (Ok ch, st1) => Listing [EvListAll prefix marker followLink] (Ok ch) (Some st1)
  | (Err err, st1) =>
      if negb (errors.Is err notSupported)
      then Listing [EvListAll prefix marker followLink] (Err err) (Some st1)
      else
        match store_List prefix marker "" maxResults followLink st1 with
        | (Err err, st2) =>
            if errors.eqb err notSupported
            then
              let l := ListAllWithDelimiter st2 prefix marker "" followLink in
              Listing (EvListAll prefix marker followLink
                         :: EvList prefix marker "" maxResults followLink
                         :: events l)
                      (returned l) (final l)
            else
              Listing [EvListAll prefix marker followLink;
                       EvList prefix marker "" maxResults followLink]
                      (Err err) (Some st2)
        | (Ok objs, st2) =>
            let '(tr, fin) := ListAll_loop fuel prefix followLink st2 objs "" true in
            Listing (EvListAll prefix marker followLink
                       :: EvList prefix marker "" maxResults followLink :: tr)
                    (Ok (Channel (sends tr) (closes tr))) fin
        end
  end.

End Driver.

(** ** container/heap *)

Module heap.

(** [heap.Interface]: [sort.Interface] with [Push] and [Pop].  [Less] and
    [Swap] index a slice and so may panic. *)
Module Interface.
Class t (H X : Type) := {
  Len : H → nat;
  Less : H → nat → nat → option bool;
  Swap : H → nat → nat → option H;
  Push : H → X → H;
  Pop : H → option (X * H)
}.
End Interface.

Section Heap.
Context {H X : Type} `{!Interface.t H X}.

(** [func up(h Interface, j int)].  The parent of [0] is [0] both in Go,
    where [(0-1)/2] truncates to [0], and on [nat].  [j] strictly
    decreases, so fuel [j] is never exhausted. *)
Fixpoint up_loop (fuel : nat) (h : H) (j : nat) : option H :=
  let i := ((j - 1) / 2)%nat in
  if decide (i = j) then Some h
  else
    lt ← Interface.Less h j i;
    if negb (lt : bool) then Some h
    else
      match fuel with
      | O => None
      | S f => h' ← Interface.Swap h i j; up_loop f h' i
      end.

Definition up (h : H) (j : nat) : option H := up_loop j h j.

(** [func down(h Interface, i0, n int) bool]; the result [i > i0] is
    not used by [Init] and [Pop] and is left out.  [i] strictly increases
    below [n], so fuel [n] is never exhausted. *)
Fixpoint down_loop (fuel : nat) (h : H) (i n : nat) : option H :=
  let j1 := (2 * i + 1)%nat in
  if decide (n ≤ j1)%nat then Some h
  else
    let j2 := (j1 + 1)%nat in
    lt ← (if decide (j2 < n)%nat then Interface.Less h j2 j1 else Some false);
    let j := if (lt : bool) then j2 else j1 in
    lt' ← Interface.Less h j i;
    if negb (lt' : bool) then Some h
    else
      match fuel with
      | O => None
      | S f => h' ← Interface.Swap h i j; down_loop f h' j n
      end.

Definition down (h : H) (i0 n : nat) : option H := down_loop n h i0 n.

(** [for i := n/2 - 1; i >= 0; i--], with [k = i + 1]. *)
Fixpoint Init_loop (k : nat) (h : H) (n : nat) : option H :=
  match k with
  | O => Some h
  | S i => h' ← down h i n; Init_loop i h' n
  end.

(** [func Init(h Interface)] *)
Definition Init (h : H) : option H :=
  let n := Interface.Len h in
  Init_loop (n / 2)%nat h n.

(** [func Push(h Interface, x any)] *)
Definition Push (h : H) (x : X) : option H :=
  let h := Interface.Push h x in
  up h (Interface.Len h - 1)%nat.

(** [func Pop(h Interface) any] *)
Definition Pop (h : H) : option (X * H) :=
  let n := (Interface.Len h - 1)%nat in
  h ← Interface.Swap h 0%nat n;
  h ← down h 0%nat n;
  Interface.Pop h.

End Heap.
End heap.

(** ** The merge frontier *)

(** [type nextKey struct { o Object; ch <-chan Object }].  The channel is
    referred to by its index in the list of the channels of the shards. *)
Record nextKey (Ob : Type) := NextKey {
  o : Ob;
  ch : nat
}.
Arguments NextKey {Ob} o ch.
Arguments o {Ob} n.
Arguments ch {Ob} n.

(** [type nextObjects struct { os []nextKey }] *)
Record nextObjects (Ob : Type) := NextObjects {
  os : list (nextKey Ob)
}.
Arguments NextObjects {Ob} os.
Arguments os {Ob} n.

Module nextObjects.
Section Methods.
Context {Ob : Type} `{!Object Ob}.

(** [func (s *nextObjects) Len() int { return len(s.os) }] *)
Definition Len (s : nextObjects Ob) : nat := length (os s).

(** [func (s *nextObjects) Less(i, j int) bool]:
    [s.os[i].o.Key() < s.os[j].o.Key()]. *)
Definition Less (s : nextObjects Ob) (i j : nat) : option bool :=
  a ← os s !! i; b ← os s !! j;
  Some (String.ltb (Key (o a)) (Key (o b))).

(** [func (s *nextObjects) Swap(i, j int)]:
    [s.os[i], s.os[j] = s.os[j], s.os[i]]. *)
Definition Swap (s : nextObjects Ob) (i j : nat) : option (nextObjects Ob) :=
  a ← os s !! i; b ← os s !! j;
  Some (NextObjects (<[i := b]> (<[j := a]> (os s)))).

(** [func (s *nextObjects) Push(o interface{})]:
    [s.os = append(s.os, o.(nextKey))]. *)
Definition Push (s : nextObjects Ob) (x : nextKey Ob) : nextObjects Ob :=
  NextObjects (os s ++ [x]).

(** [func (s *nextObjects) Pop() interface{}]: the last entry, which is
    cut off the slice. *)
Definition Pop (s : nextObjects Ob) : option (nextKey Ob * nextObjects Ob) :=
  x ← os s !! (length (os s) - 1)%nat;
  Some (x, NextObjects (take (length (os s) - 1)%nat (os s))).

#[global] Instance heap_Interface : heap.Interface.t (nextObjects Ob) (nextKey Ob) := {
  heap.Interface.Len := Len;
  heap.Interface.Less := Less;
  heap.Interface.Swap := Swap;
  heap.Interface.Push := Push;
  heap.Interface.Pop := Pop
}.

End Methods.
End nextObjects.

(** How a call that may block or panic ends. *)
Inductive outcome (A : Type) :=
| Returns (a : A)
| Hangs
| Panics.
Arguments Returns {A} a.
Arguments Hangs {A}.
Arguments Panics {A}.

(** ** The backend methods of the rest of the facade *)

(** The methods of [ObjectStorage] that the remaining methods of the facade
    call.  [MultipartUpload] and [Part] are declared in another file and are
    type parameters here.  [store_SetStorageClass] is [None] on a store
    that does not implement [SupportStorageClass]. *)
Class ObjectStorageMore (St MU Pt : Type) := {
  store_Create : St → option error * St;
  store_SetStorageClass : string → St → option St;
  store_CreateMultipartUpload : string → St → result MU * St;
  store_UploadPart : string → string → Z → string → St → result Pt * St;
  store_AbortUpload : string → string → St → St;
  store_CompleteUpload : string → string → list Pt → St → option error * St
}.

(** ** The sharded facade *)

(** [type sharded struct { stores []ObjectStorage }], together with a
    journal of the backend methods invoked on the shards (shard index and
    method name), kept so that statements can speak about which shards an
    operation touched. *)
Record sharded (St : Type) := mkSharded {
  stores : list St;
  journal : list (nat * string)
}.
Arguments mkSharded {St} stores journal.
Arguments stores {St} s.
Arguments journal {St} s.

Module sharded.
Section Facade.
Context {St Ob Env : Type} `{!Object Ob, !ObjectStorage St Ob, !Package St Ob Env}.

(** [func (s *sharded) pick(key string) ObjectStorage].  The store handle
    is the index into [s.stores]; a shard count whose [uint32] conversion
    is zero panics with a division by zero. *)
Definition pick (s : sharded St) (key : string) : option nat :=
  let h := fnv.New32a in
  let h := fnv.Write h (bytes key) in
  let n := fnv.uint32 (Z.of_nat (length (stores s))) in
  if n =? 0 then None
  else
    let i := Z.to_nat (fnv.Sum32 h mod n) in
    _ ← stores s !! i; Some i.

(** [s.pick(key).Method(key, ...)]: one call forwarded to the picked
    shard, entered in the journal. *)
Definition forward {A} (name : string) (m : St → A * St)
    (s : sharded St) (key : string) : option (A * sharded St) :=
  i ← pick s key;
  st ← stores s !! i;
  let '(r, st') := m st in
  Some (r, mkSharded (<[i := st']> (stores s)) (journal s ++ [(i, name)])).

(** [func (s *sharded) Head(key string) (Object, error)] *)
Definition Head (s : sharded St) (key : string) :=
  forward "Head" (store_Head key) s key.

(** [func (s *sharded) Get(key string, off, limit int64)] *)
Definition Get (s : sharded St) (key : string) (off limit : Z) :=
  forward "Get" (store_Get key off limit) s key.

(** [func (s *sharded) Put(key string, body io.Reader) error] *)
Definition Put (s : sharded St) (key : string) (body : string) :=
  forward "Put" (store_Put key body) s key.

(** [func (s *sharded) Copy(dst, src string) error { return notSupported }] *)
Definition Copy (s : sharded St) (dst src : string) : option (option error * sharded St) :=
  Some (Some notSupported, s).

(** [func (s *sharded) Delete(key string) error] *)
Definition Delete (s : sharded St) (key : string) :=
  forward "Delete" (store_Delete key) s key.

End Facade.

Section Listing.
Context {St Ob Env : Type} `{!Object Ob, !ObjectStorage St Ob, !Package St Ob Env}.

(** Lines 171-180: start the listing of every shard and take the first
    object of each.  The channel of shard [i] is kept at index [i] of
    [chans]; a [nextKey] refers to its channel by that index. *)
Fixpoint ListAll_heads (fuel : nat) (prefix marker : string) (followLink : bool)
    (ss : list St) (heads : nextObjects Ob) (chans : list (channel Ob))
    : outcome (result (nextObjects Ob * list (channel Ob))) :=
  match ss with
  | [] => Returns (Ok (heads, chans))
  | store :: rest =>
      match returned (ListAll fuel store prefix marker followLink) with
      | Err err =>
          Returns (Err (errorString
            ("list " +:+ store_String store +:+ ": " +:+ errors.Error err)))
      | Ok c =>
          match recv c with
          | None => Hangs
          | Some (first, c') =>
              let heads' :=
                match first with
                | Some obj => nextObjects.Push heads (NextKey obj (length chans))
                | None => heads
                end in
              ListAll_heads fuel prefix marker followLink rest heads' (chans ++ [c'])
          end
      end
  end.

(** Lines 171-180 with what the loop does to the shards kept beside its
    outcome: the listings it has started, in the order of the shards, each
    with its events and the state it leaves its shard in.  A shard that the
    loop does not reach has no listing. *)
Fixpoint ListAll_heads_traced (fuel : nat) (prefix marker : string) (followLink : bool)
    (ss : list St) (heads : nextObjects Ob) (chans : list (channel Ob))
    : outcome (result (nextObjects Ob * list (channel Ob))) * list (listing St Ob) :=
  match ss with
  | [] => (Returns (Ok (heads, chans)), [])
  | store :: rest =>
      let l := ListAll fuel store prefix marker followLink in
      match returned l with
      | Err err =>
          (Returns (Err (errorString
             ("list " +:+ store_String store +:+ ": " +:+ errors.Error err))),
           [l])
      | Ok c =>
          match recv c with
          | None => (Hangs, [l])
          | Some (first, c') =>
              let heads' :=
                match first with
                | Some obj => nextObjects.Push heads (NextKey obj (length chans))
                | None => heads
                end in
              let '(r, started) :=
                ListAll_heads_traced fuel prefix marker followLink rest heads'
                  (chans ++ [c']) in
              (r, l :: started)
          end
      end
  end.

(** Lines 184-194, the merging goroutine; the result is its output
    channel, left open when a receive from a shard blocks forever. *)
Fixpoint ListAll_merge (fuel : nat) (heads : nextObjects Ob)
    (chans : list (channel Ob)) : option (channel Ob) :=
  if decide (nextObjects.Len heads = 0)%nat then Some (Channel [] true)
  else
    match fuel with
    | O => None
    | S f =>
        match heap.Pop heads with
        | None => None
        | Some (n, heads) =>
            match chans !! ch n with
            | None => None
            | Some c =>
                match recv c with
                | None => Some (Channel [Some (o n)] false)
                | Some (x, c') =>
                    match
                      match x with
                      | Some obj => heap.Push heads (NextKey obj (ch n))
                      | None => Some heads
                      end
                    with
                    | None => None
                    | Some heads =>
                        match ListAll_merge f heads (<[ch n := c']> chans) with
                        | None => None
                        | Some out =>
                            Some (Channel (Some (o n) :: sent out) (closed out))
                        end
                    end
                end
            end
        end
    end.

(** Every turn of the merge loop takes an entry off the frontier and puts
    back at most one, received from a channel: this many turns suffice. *)
Definition merge_fuel (heads : nextObjects Ob) (chans : list (channel Ob)) : nat :=
  S (nextObjects.Len heads + sum_list (map (λ c, length (sent c)) chans)).

(** [func (s *sharded) ListAll(prefix, marker string, followLink bool)] *)
Definition ListAll (fuel : nat) (s : sharded St) (prefix marker : string)
    (followLink : bool) : outcome (result (channel Ob)) :=
  match ListAll_heads fuel prefix marker followLink (stores s) (NextObjects []) [] with
  | Returns (Ok (heads, chans)) =>
      match heap.Init heads with
      | None => Panics
      | Some heads =>
          match ListAll_merge (merge_fuel heads chans) heads chans with
          | None => Panics
          | Some out => Returns (Ok out)
          end
      end
  | Returns (Err e) => Returns (Err e)
  | Hangs => Hangs
  | Panics => Panics
  end.

End Listing.

(** *** The rest of the facade *)

Section Lifecycle.
Context {St MU Pt : Type} `{!ObjectStorageMore St MU Pt}.

(** [func (s *sharded) Create() error]: [for _, o := range s.stores] from
    the shard at index [i] on, returning at the first error. *)
Fixpoint Create_loop (i : nat) (ss : list St) (journal : list (nat * string))
    : option error * list St * list (nat * string) :=
  match ss with
  | [] => (None, [], journal)
  | o :: rest =>
      match store_Create o with
      | (Some err, o') => (Some err, o' :: rest, journal ++ [(i, "Create")])
      | (None, o') =>
          let '(err, rest', journal') :=
            Create_loop (S i) rest (journal ++ [(i, "Create")]) in
          (err, o' :: rest', journal')
      end
  end.

Definition Create (s : sharded St) : option error * sharded St :=
  let '(err, ss, journal) := Create_loop 0 (stores s) (journal s) in
  (err, mkSharded ss journal).

(** [func (s *sharded) SetStorageClass(sc string)]: every shard that
    implements [SupportStorageClass] is told the class, the others are
    passed over. *)
Fixpoint SetStorageClass_loop (i : nat) (sc : string) (ss : list St)
    (journal : list (nat * string)) : list St * list (nat * string) :=
  match ss with
  | [] => ([], journal)
  | o :: rest =>
      match store_SetStorageClass sc o with
      | Some o' =>
          let '(rest', journal') :=
            SetStorageClass_loop (S i) sc rest (journal ++ [(i, "SetStorageClass")]) in
          (o' :: rest', journal')
      | None =>
          let '(rest', journal') := SetStorageClass_loop (S i) sc rest journal in
          (o :: rest', journal')
      end
  end.

Definition SetStorageClass (s : sharded St) (sc : string) : sharded St :=
  let '(ss, journal) := SetStorageClass_loop 0 sc (stores s) (journal s) in
  mkSharded ss journal.

(** [func (s *sharded) CreateMultipartUpload(key string)], returning a
    [*MultipartUpload] and an [error]. *)
Definition CreateMultipartUpload (s : sharded St) (key : string) :=
  forward "CreateMultipartUpload" (store_CreateMultipartUpload key) s key.

(** [func (s *sharded) UploadPart(key string, uploadID string, num int,
    body []byte)], returning a [*Part] and an [error]. *)
Definition UploadPart (s : sharded St) (key uploadID : string) (num : Z) (body : string) :=
  forward "UploadPart" (store_UploadPart key uploadID num body) s key.

(** [func (s *sharded) AbortUpload(key string, uploadID string)] *)
Definition AbortUpload (s : sharded St) (key uploadID : string) :=
  forward "AbortUpload" (λ st, (tt, store_AbortUpload key uploadID st)) s key.

(** [func (s *sharded) CompleteUpload(key string, uploadID string, parts []*Part) error] *)
Definition CompleteUpload (s : sharded St) (key uploadID : string) (parts : list Pt) :=
  forward "CompleteUpload" (store_CompleteUpload key uploadID parts) s key.

End Lifecycle.

End sharded.

(** ** strings and fmt *)

Module strings.

(** [func HasSuffix(s, suffix string) bool]:
    [len(s) >= len(suffix) && s[len(s)-len(suffix):] == suffix]. *)
Definition HasSuffix (s suffix : string) : bool :=
  (String.length suffix <=? String.length s)%nat &&
  String.eqb
    (String.substring (String.length s - String.length suffix)
                      (String.length suffix) s)
    suffix.

End strings.

(** [fmt.Sprintf(format, i)] with a single [int] operand, as [NewSharded]
    calls it.  The constructor is stated for any such function. *)
Class Formatter := Sprintf : string → Z → string.

Module fmt.

(** Decimal digits of an [int], as [%d] and [%v] print it. *)
Definition itoa (i : Z) : string :=
  DecimalString.NilZero.string_of_int (Z.to_int i).

Definition is_digit (c : ascii) : bool :=
  (48 <=? Ascii.nat_of_ascii c)%nat && (Ascii.nat_of_ascii c <=? 57)%nat.

(** The end of [doPrintf]: operands left over are reported, unless the
    format used an explicit argument index. *)
Definition extra (i : Z) (argNum : nat) (reordered : bool) : string :=
  if negb reordered && (argNum <? 1)%nat
  then "%!(EXTRA int=" +:+ itoa i +:+ ")"
  else "".

(** [func (p *pp) doPrintf(format string, a []any)] on the operand list
    [[i]], for the directives [%%], [%d], [%v], [%[k]d] and [%[k]v] with
    a one-digit [k], and a [%] that ends the format.  [argNum] is the
    index of the next operand and [reordered] records that an explicit
    index was seen.  Flags, widths, precisions and the other verbs are
    outside this model: on them the result is [None]. *)
Fixpoint doPrintf (format : string) (i : Z) (argNum : nat) (reordered : bool)
    : option string :=
  match format with
  | EmptyString => Some (extra i argNum reordered)
  | String "%"%char EmptyString =>
      Some ("%!(NOVERB)" +:+ extra i argNum reordered)
  | String "%"%char (String "%"%char rest) =>
      String "%"%char <$> doPrintf rest i argNum reordered
  | String "%"%char (String "["%char (String k (String "]"%char (String verb rest)))) =>
      if is_digit k && (Ascii.eqb verb "d" || Ascii.eqb verb "v")
      then
        if Ascii.eqb k "1"
        then String.append (itoa i) <$> doPrintf rest i 1%nat true
        else String.append ("%!" +:+ String verb "(BADINDEX)")
               <$> doPrintf rest i argNum true
      else None
  | String "%"%char (String verb rest) =>
      if Ascii.eqb verb "d" || Ascii.eqb verb "v"
      then
        if (argNum <? 1)%nat
        then String.append (itoa i) <$> doPrintf rest i (argNum + 1)%nat reordered
        else String.append ("%!" +:+ String verb "(MISSING)")
               <$> doPrintf rest i argNum reordered
      else None
  | String c rest => String c <$> doPrintf rest i argNum reordered
  end.

(** [func Sprintf(format string, a ...any) string] with [a = [i]]. *)
Definition Sprintf1 (format : string) (i : Z) : option string :=
  doPrintf format i 0%nat false.

End fmt.

(** ** The constructor *)

Section Constructor.
Context {St Ob Env : Type} `{!Package St Ob Env, !Formatter}.

(** Lines 217-226, [for i := range stores], with [k] indices left to do,
    the stores made so far and the endpoints already handed to
    [CreateStorage]. *)
Fixpoint NewSharded_loop (k : nat) (i : Z) (name endpoint ak sk token : string)
    (env : Env) (made : list St) (created : list string)
    : result (list St) * Env * list string :=
  match k with
  | O => (Ok made, env, created)
  | S k' =>
      let ep := Sprintf endpoint i in
      if strings.HasSuffix ep "%!(EXTRA int=0)"
      then (Err (errorString
              ("can not generate different endpoint using " +:+ endpoint)),
            env, created)
      else
        match CreateStorage name ep ak sk token env with
        | (Err err, env') => (Err err, env', created ++ [ep])
        | (Ok st, env') =>
            NewSharded_loop k' (i + 1) name endpoint ak sk token env'
              (made ++ [st]) (created ++ [ep])
        end
  end.

(** [func NewSharded(name, endpoint, ak, sk, token string, shards int)].
    [make] panics on a negative length.  Next to the Go results the model
    returns the environment and the endpoints for which [CreateStorage]
    was called, in order. *)
Definition NewSharded (name endpoint ak sk token : string) (shards : Z) (env : Env)
    : option (result (sharded St) * Env * list string) :=
  if shards <? 0 then None
  else
    let '(r, env', created) :=
      NewSharded_loop (Z.to_nat shards) 0 name endpoint ak sk token env [] [] in
    Some (match r with
          | Ok made => Ok (mkSharded made [])
          | Err err => Err err
          end, env', created).

End Constructor.

(** * Specification vocabulary *)

(** FNV-1a on 32 bits as the specification words it: start from the offset
    basis and, for every byte, xor it in and multiply by the FNV prime
    modulo [2^32]. *)
Definition fnv1a_32 (data : list Byte.byte) : Z :=
  fold_left (λ h c, (Z.lxor h (Z.of_N (Byte.to_N c)) * 16777619) mod 4294967296)
            data 2166136261.

Section Vocabulary.
Context {St Ob Env : Type} `{!Object Ob, !ObjectStorage St Ob, !Package St Ob Env}.

(** The key emitted last, as the driver's variables [lastkey] and [first]
    hold it: nothing was emitted while [first] is set. *)
Definition emitted_before (lastkey : string) (first : bool) : option string :=
  if first then None else Some lastkey.

(** Every key is strictly greater than the one before it, the first one
    than [prev] when there is one. *)
Fixpoint increasing_after (prev : option string) (objs : list Ob) : Prop :=
  match objs with
  | [] => True
  | x :: rest =>
      match prev with
      | None => True
      | Some p => key_lt p (Key x)
      end ∧ increasing_after (Some (Key x)) rest
  end.

(** The key emitted last once [objs] were emitted after [prev]. *)
Definition last_key (prev : option string) (objs : list Ob) : option string :=
  match last objs with
  | Some x => Some (Key x)
  | None => prev
  end.

Definition send_all (objs : list Ob) : list (event Ob) :=
  map (λ x, EvSend (Some x)) objs.

(** [n] page requests in a row that each fail and are each followed by a
    pause of 100ms. *)
Definition retries (n : nat) (prefix marker : string) (followLink : bool)
    : list (event Ob) :=
  concat (replicate n [EvList prefix marker "" maxResults followLink; EvSleep 100]).

(** The request for the page after [marker] fails [n] times in a row,
    taking the backend from [st] to [st']. *)
Fixpoint fails (n : nat) (prefix marker : string) (followLink : bool)
    (st st' : St) : Prop :=
  match n with
  | O => st = st'
  | S n' =>
      ∃ e st1,
        store_List prefix marker "" maxResults followLink st = (Err e, st1)
        ∧ fails n' prefix marker followLink st1 st'
  end.

(** [CreateStorage] succeeds on each of the endpoints in turn and makes
    the given stores. *)
Fixpoint creates (name ak sk token : string) (env : Env) (eps : list string)
    (made : list St) (env' : Env) : Prop :=
  match eps, made with
  | [], [] => env = env'
  | ep :: eps', st :: made' =>
      ∃ env1, CreateStorage name ep ak sk token env = (Ok st, env1)
              ∧ creates name ak sk token env1 eps' made' env'
  | _, _ => False
  end.

End Vocabulary.

(** The keys of a frontier entry and of an object order them. *)
Definition entry_le {Ob} `{!Object Ob} (a b : nextKey Ob) : Prop :=
  key_le (Key (o a)) (Key (o b)).

Definition object_le {Ob} `{!Object Ob} (a b : Ob) : Prop :=
  key_le (Key a) (Key b).

(** The first [n] entries of [h] form a min-heap as far as the parents at
    index [lo] and above are concerned: no child is smaller than such a
    parent. *)
Definition heap_from {Ob} `{!Object Ob} (lo n : nat) (h : list (nextKey Ob)) : Prop :=
  ∀ c a b, (1 ≤ c < n)%nat → (lo ≤ (c - 1) / 2)%nat →
    h !! ((c - 1) / 2)%nat = Some a → h !! c = Some b → entry_le a b.

Definition is_heap {Ob} `{!Object Ob} (h : list (nextKey Ob)) : Prop :=
  heap_from 0 (length h) h.

(** The objects still to be received from a channel, and from all the
    channels of a merge. *)
Definition objects {Ob} (c : channel Ob) : list Ob := omap id (sent c).

Definition pending {Ob} (chans : list (channel Ob)) : list Ob :=
  concat (map objects chans).

(** The state of the merge loop while every shard delivers increasing keys:
    the channels are closed and carry objects only, what a channel still
    holds is above the frontier entry of that channel, and a channel that
    still holds something has an entry in the frontier. *)
Record merging {Ob} `{!Object Ob}
    (heads : list (nextKey Ob)) (chans : list (channel Ob)) : Prop := {
  merging_chan : ∀ i c, chans !! i = Some c →
    closed c = true ∧ sent c = map Some (objects c);
  merging_head : ∀ n, n ∈ heads →
    ∃ c, chans !! ch n = Some c
         ∧ increasing_after (Some (Key (o n))) (objects c);
  merging_cover : ∀ i c, chans !! i = Some c → objects c ≠ [] →
    ∃ n, n ∈ heads ∧ ch n = i
}.

(** ** Test doubles *)

Record object := MkObject {
  object_key : string;
  object_size : Z
}.

#[global] Instance object_Object : Object object := object_key.

(** A backend that answers its page requests from a script, whatever the
    marker, and answers with empty pages once the script is used up.  It has
    no native [ListAll]. *)
Definition scripted : Type := list (result (list object)).

#[global] Instance scripted_ObjectStorage : ObjectStorage scripted object := {
  store_String _ := "scripted";
  store_Head _ st := (Err notSupported, st);
  store_Get _ _ _ st := (Err notSupported, st);
  store_Put _ _ st := (Some notSupported, st);
  store_Delete _ st := (None, st);
  store_List _ _ _ _ _ st :=
    match st with
    | [] => (Ok [], [])
    | page :: rest => (page, rest)
    end;
  store_ListAll _ _ _ st := (Err notSupported, st)
}.

Definition ob (k : string) : object := MkObject k 0.

(** The environment of the test double counts the stores created. *)
#[global] Instance scripted_Package : Package scripted object nat := {
  ListAllWithDelimiter st _ _ _ _ := Listing [] (Err notSupported) (Some st);
  CreateStorage _ _ _ _ _ env := (Ok [], S env)
}.

(** The modelled part of [fmt.Sprintf]; the empty string stands in for the
    formats outside it, none of which is used below. *)
Definition modelled_Sprintf : Formatter :=
  λ format i, default "" (fmt.Sprintf1 format i).

(** ** Vocabulary and test doubles of the further properties *)

(** The objects a consumer that stops at the first [nil] receives from a
    channel holding [s]. *)
Fixpoint live {Ob} (s : list (option Ob)) : list Ob :=
  match s with
  | Some x :: rest => x :: live rest
  | _ => []
  end.

(** What the entries of a frontier can still draw from their channels. *)
Definition drawable {Ob} (heads : list (nextKey Ob)) (chans : list (channel Ob))
    : list Ob :=
  concat (map (λ n, from_option (λ c, live (sent c)) [] (chans !! ch n)) heads).

Section MoreVocabulary.
Context {St Ob Env : Type} `{!Object Ob, !ObjectStorage St Ob, !Package St Ob Env}.

(** A backend that, asked for the page after [marker] and then after the last
    key of each page it gave, answers with the non-empty [pages] in turn and
    then with an empty page, ending in state [st']. *)
Fixpoint serves (prefix : string) (followLink : bool) (st : St) (marker : string)
    (pages : list (list Ob)) (st' : St) : Prop :=
  match pages with
  | [] => store_List prefix marker "" maxResults followLink st = (Ok [], st')
  | page :: rest =>
      ∃ y st1,
        last page = Some y
        ∧ store_List prefix marker "" maxResults followLink st = (Ok page, st1)
        ∧ serves prefix followLink st1 (Key y) rest st'
  end.

(** A store without a native listing whose first page request succeeds: the
    listing of such a store is produced by the paginated driver. *)
Definition paginated (prefix marker : string) (followLink : bool) (store : St) : Prop :=
  ∃ e st1 objs st2,
    store_ListAll prefix marker followLink store = (Err e, st1)
    ∧ errors.Is e notSupported = true
    ∧ store_List prefix marker "" maxResults followLink st1 = (Ok objs, st2).

End MoreVocabulary.

(** No [%] in a format. *)
Fixpoint plain (format : string) : bool :=
  match format with
  | EmptyString => true
  | String c rest => negb (Ascii.eqb c "%") && plain rest
  end.

(** A test double for the lifecycle methods: a store that may refuse to be
    created and may lack storage classes. *)
Record disk := Disk {
  disk_allowed : bool;
  disk_made : bool;
  disk_class : option string
}.

#[global] Instance disk_ObjectStorageMore : ObjectStorageMore disk string Z := {
  store_Create d :=
    if disk_allowed d then (None, Disk true true (disk_class d))
    else (Some (errorString "denied"), d);
  store_SetStorageClass sc d :=
    match disk_class d with
    | Some _ => Some (Disk (disk_allowed d) (disk_made d) (Some sc))
    | None => None
    end;
  store_CreateMultipartUpload key d := (Ok key, d);
  store_UploadPart _ _ num _ d := (Ok num, d);
  store_AbortUpload _ _ d := d;
  store_CompleteUpload _ _ _ d := (None, d)
}.

#[global] Instance disk_ObjectStorage : ObjectStorage disk object := {
  store_String _ := "disk";
  store_Head _ d := (Err notSupported, d);
  store_Get _ _ _ d := (Ok "", d);
  store_Put _ _ d := (None, Disk (disk_allowed d) true (disk_class d));
  store_Delete _ d := (None, d);
  store_List _ _ _ _ _ d := (Ok [], d);
  store_ListAll _ _ _ d := (Err notSupported, d)
}.

(** A test double whose native listing fails with an error that wraps
    [notSupported] twice and whose page requests follow a script. *)
Record wrapping := Wrapping { wrapping_script : scripted }.

#[global] Instance wrapping_ObjectStorage : ObjectStorage wrapping object := {
  store_String _ := "wrapping";
  store_Head _ st := (Err notSupported, st);
  store_Get _ _ _ st := (Err notSupported, st);
  store_Put _ _ st := (Some notSupported, st);
  store_Delete _ st := (None, st);
  store_List _ _ _ _ _ st :=
    match wrapping_script st with
    | [] => (Ok [], Wrapping [])
    | page :: rest => (page, Wrapping rest)
    end;
  store_ListAll _ _ _ st :=
    (Err (wrapError "native" (wrapError "inner" notSupported)), st)
}.

#[global] Instance wrapping_Package : Package wrapping object nat := {
  ListAllWithDelimiter st _ _ _ _ := Listing [] (Err notSupported) (Some st);
  CreateStorage _ _ _ _ _ env := (Ok (Wrapping []), S env)
}.

(** The state of the merge loop in general: the entries of the frontier
    refer to different channels, each of them closed by its producer. *)
Record drawing {Ob} (heads : list (nextKey Ob)) (chans : list (channel Ob)) : Prop := {
  drawing_NoDup : NoDup (map ch heads);
  drawing_closed : ∀ n, n ∈ heads → ∃ c, chans !! ch n = Some c ∧ closed c = true
}.

(** What the channels hold above the keys of their frontier entries. *)
Definition above_heads {Ob} `{!Object Ob}
    (heads : list (nextKey Ob)) (chans : list (channel Ob)) : Prop :=
  ∀ n c, n ∈ heads → chans !! ch n = Some c →
    increasing_after (Some (Key (o n))) (live (sent c)).

(** A factory on [disk] that refuses the endpoint [host1] and records the
    endpoints it was asked for. *)
Definition refusing : Package disk object (list string) :=
  {| ListAllWithDelimiter st _ _ _ _ := Listing [] (Err notSupported) (Some st);
     CreateStorage _ ep _ _ _ env :=
       if String.eqb ep "host1" then (Err (errorString "refused"), env ++ [ep])
       else (Ok (Disk true false None), env ++ [ep]) |}.

(** * Proofs *)

(** ** The order on keys *)

Lemma ascii_compare_refl c : Ascii.compare c c = Eq.
Proof. unfold Ascii.compare. apply N.compare_refl. Qed.

Lemma ascii_compare_lt_trans a b c :
  Ascii.compare a b = Lt → Ascii.compare b c = Lt → Ascii.compare a c = Lt.
Proof.
  unfold Ascii.compare. rewrite !N.compare_lt_iff. lia.
Qed.

Lemma string_compare_refl s : String.compare s s = Eq.
Proof.
  induction s as [|c s IH]; simpl; [done|].
  by rewrite ascii_compare_refl.
Qed.

Lemma string_compare_lt_trans a b c :
  String.compare a b = Lt → String.compare b c = Lt → String.compare a c = Lt.
Proof.
  revert b c. induction a as [|x a IH]; intros [|y b] [|z c]; simpl; try done.
  destruct (Ascii.compare x y) eqn:Hxy; try done.
  - apply Ascii.compare_eq_iff in Hxy as ->.
    destruct (Ascii.compare y z) eqn:Hyz; try done. apply IH.
  - destruct (Ascii.compare y z) eqn:Hyz; try done.
    + apply Ascii.compare_eq_iff in Hyz as <-. by rewrite Hxy.
    + by rewrite (ascii_compare_lt_trans x y z).
Qed.

Lemma key_lt_irrefl a : ¬ key_lt a a.
Proof. unfold key_lt, String.ltb. by rewrite string_compare_refl. Qed.

Lemma key_lt_trans a b c : key_lt a b → key_lt b c → key_lt a c.
Proof.
  unfold key_lt, String.ltb. intros Hab Hbc.
  destruct (String.compare a b) eqn:E1; try done.
  destruct (String.compare b c) eqn:E2; try done.
  by rewrite (string_compare_lt_trans a b c).
Qed.

Lemma key_le_refl a : key_le a a.
Proof. unfold key_le, String.ltb. by rewrite string_compare_refl. Qed.

Lemma key_lt_le a b : key_lt a b → key_le a b.
Proof.
  unfold key_lt, key_le, String.ltb. rewrite (String.compare_antisym b a).
  by destruct (String.compare a b).
Qed.

Lemma key_le_cases a b : key_le a b ↔ key_lt a b ∨ a = b.
Proof.
  unfold key_le, key_lt, String.ltb. rewrite (String.compare_antisym b a).
  destruct (String.compare a b) eqn:E; simpl.
  - apply String.compare_eq_iff in E. naive_solver.
  - naive_solver.
  - split; [done|]. intros [? | ->]; [done|]. by rewrite string_compare_refl in E.
Qed.

Lemma key_le_total a b : key_le a b ∨ key_le b a.
Proof.
  unfold key_le, String.ltb. rewrite (String.compare_antisym b a).
  destruct (String.compare a b); auto.
Qed.

Lemma key_not_lt a b : ¬ key_lt a b ↔ key_le b a.
Proof. unfold key_lt, key_le. by destruct (String.ltb a b). Qed.

Lemma key_lt_le_trans a b c : key_lt a b → key_le b c → key_lt a c.
Proof.
  intros Hab [Hbc| ->]%key_le_cases; [|done]. by apply key_lt_trans with b.
Qed.

Lemma key_le_lt_trans a b c : key_le a b → key_lt b c → key_lt a c.
Proof.
  intros [Hab| ->]%key_le_cases Hbc; [|done]. by apply key_lt_trans with b.
Qed.

Lemma key_le_trans a b c : key_le a b → key_le b c → key_le a c.
Proof.
  intros [Hab| ->]%key_le_cases Hbc; [|done].
  apply key_lt_le. by apply key_lt_le_trans with b.
Qed.

(** [key <= lastkey] in Go is [String.leb]. *)
Lemma leb_key_le a b : String.leb a b = true ↔ key_le a b.
Proof.
  unfold key_le, String.leb, String.ltb. rewrite (String.compare_antisym b a).
  by destruct (String.compare a b).
Qed.

Lemma leb_false_key_lt a b : String.leb a b = false ↔ key_lt b a.
Proof.
  unfold key_lt, String.leb, String.ltb. rewrite (String.compare_antisym b a).
  by destruct (String.compare a b).
Qed.

(** ** The listing driver *)

Section DriverFacts.
Context {St Ob Env : Type} `{!Object Ob, !ObjectStorage St Ob, !Package St Ob Env}.
Implicit Types (objs : list Ob) (tr : list (event Ob)).

Lemma sends_app tr1 tr2 : sends (tr1 ++ tr2) = sends tr1 ++ sends tr2.
Proof. unfold sends. apply omap_app. Qed.

Lemma sends_send_all objs : sends (send_all objs) = map Some objs.
Proof. induction objs as [|x objs IH]; simpl; [done|]. by f_equal. Qed.

Lemma sends_one (x : option Ob) : sends [EvSend x] = [x].
Proof. done. Qed.

Lemma sends_close : sends [@EvClose Ob] = [].
Proof. done. Qed.

Lemma increasing_after_app prev objs1 objs2 :
  increasing_after prev (objs1 ++ objs2)
  ↔ increasing_after prev objs1 ∧ increasing_after (last_key prev objs1) objs2.
Proof.
  revert prev. induction objs1 as [|x objs1 IH]; intros prev; simpl.
  - unfold last_key. simpl. tauto.
  - rewrite IH. unfold last_key. rewrite last_cons.
    destruct (last objs1); simpl; tauto.
Qed.

(** A page whose keys increase is sent whole. *)
Lemma ListAll_range_increasing objs lastkey first :
  increasing_after (emitted_before lastkey first) objs →
  ListAll_range objs lastkey first =
    (send_all objs,
     Some (match last objs with Some x => (Key x, false) | None => (lastkey, first) end)).
Proof.
  revert lastkey first. induction objs as [|x objs IH]; intros lastkey first; simpl.
  - done.
  - intros [Hx Hrest]. 
    assert (negb first && String.leb (Key x) lastkey = false) as ->.
    { destruct first; simpl; [done|]. simpl in Hx. by apply leb_false_key_lt. }
    rewrite (IH (Key x) false Hrest). rewrite last_cons.
    by destruct (last objs).
Qed.

(** A key that does not exceed the one emitted before it ends the page
    with [nil] in its place. *)
Lemma ListAll_range_violation pre v post lastkey first p :
  increasing_after (emitted_before lastkey first) pre →
  last_key (emitted_before lastkey first) pre = Some p →
  String.leb (Key v) p = true →
  ListAll_range (pre ++ v :: post) lastkey first = (send_all pre ++ [EvSend None], None).
Proof.
  revert lastkey first. induction pre as [|x pre IH]; intros lastkey first; simpl.
  - intros _ Hp Hv. unfold last_key, emitted_before in Hp. simpl in Hp.
    destruct first; [done|]. injection Hp as ->. simpl. by rewrite Hv.
  - intros [Hx Hrest] Hp Hv.
    assert (negb first && String.leb (Key x) lastkey = false) as ->.
    { destruct first; simpl; [done|]. simpl in Hx. by apply leb_false_key_lt. }
    rewrite (IH (Key x) false); [done|done| |done].
    unfold last_key in *. rewrite last_cons in Hp. simpl.
    by destruct (last pre).
Qed.

(** What one page puts on the channel: objects with increasing keys,
    with [nil] after them exactly when the page is aborted. *)
Lemma ListAll_range_sends objs lastkey first :
  ∃ emitted,
    increasing_after (emitted_before lastkey first) emitted
    ∧ ((emitted = objs
        ∧ ListAll_range objs lastkey first =
            (send_all objs,
             Some (match last objs with
                   | Some x => (Key x, false) | None => (lastkey, first) end)))
       ∨ ListAll_range objs lastkey first = (send_all emitted ++ [EvSend None], None)).
Proof.
  revert lastkey first. induction objs as [|x objs IH]; intros lastkey first.
  - exists []. simpl. auto.
  - simpl. destruct (negb first && String.leb (Key x) lastkey) eqn:Hc.
    + exists []. simpl. auto.
    + destruct (IH (Key x) false) as (em & Hinc & Hem).
      exists (x :: em). split.
      * simpl. split; [|done]. destruct first; simpl; [done|].
        simpl in Hc. by apply leb_false_key_lt.
      * destruct Hem as [[-> Heq]| Heq]; rewrite Heq; [left|right; done].
        split; [done|]. rewrite last_cons. by destruct (last objs).
Qed.

Lemma ListAll_next_sends fuel prefix marker followLink st :
  sends (ListAll_next fuel prefix marker followLink st).1 = [].
Proof.
  revert st. induction fuel as [|fuel IH]; intros st; simpl.
  - by destruct (store_List _ _ _ _ _ _) as [[?|?] ?].
  - destruct (store_List _ _ _ _ _ _) as [[?|?] st']; [done|].
    specialize (IH st'). by destruct (ListAll_next _ _ _ _ _) as [tr r].
Qed.

(** The retry loop: [n] failures, each followed by a pause of exactly
    100ms and the same request again, then the page. *)
Lemma ListAll_next_retries n fuel prefix marker followLink st st1 st' objs :
  fails n prefix marker followLink st st1 →
  store_List prefix marker "" maxResults followLink st1 = (Ok objs, st') →
  (n ≤ fuel)%nat →
  ListAll_next fuel prefix marker followLink st =
    (retries n prefix marker followLink
       ++ [EvList prefix marker "" maxResults followLink],
     Some (objs, st')).
Proof.
  revert fuel st. induction n as [|n IH]; intros fuel st Hf Hok Hn.
  - simpl in Hf. subst st1. destruct fuel; simpl; by rewrite Hok.
  - destruct Hf as (e & st2 & He & Hf).
    destruct fuel as [|fuel]; [lia|]. simpl. rewrite He.
    rewrite (IH fuel st2); [done|done|done|lia].
Qed.

(** While the request keeps failing the loop neither ends nor yields. *)
Lemma ListAll_next_stuck fuel prefix marker followLink st st1 :
  fails (S fuel) prefix marker followLink st st1 →
  ListAll_next fuel prefix marker followLink st =
    (retries fuel prefix marker followLink
       ++ [EvList prefix marker "" maxResults followLink],
     None).
Proof.
  revert st. induction fuel as [|fuel IH]; intros st (e & st2 & He & Hf).
  - simpl. by rewrite He.
  - simpl. rewrite He. by rewrite (IH st2).
Qed.

(** The keys the producer puts on its channel always increase, from
    whichever page of the listing it is started. *)
Lemma ListAll_loop_sends fuel prefix followLink st objs lastkey first :
  ∃ emitted,
    increasing_after (emitted_before lastkey first) emitted
    ∧ (sends (ListAll_loop fuel prefix followLink st objs lastkey first).1
         = map Some emitted
       ∨ sends (ListAll_loop fuel prefix followLink st objs lastkey first).1
         = map Some emitted ++ [None]).
Proof.
  revert st objs lastkey first.
  induction fuel as [|fuel IH]; intros st objs lastkey first.
  - destruct objs as [|x objs]; [exists []; simpl; auto|].
    cbn [ListAll_loop].
    destruct (ListAll_range_sends (x :: objs) lastkey first)
      as (em & Hinc & [[Hem Heq]| Heq]); rewrite Heq; exists em.
    + split; [done|]. left. subst em.
      destruct (last (x :: objs)); destruct (String.eqb _ _); simpl;
        by rewrite ?sends_app, ?sends_send_all, ?sends_close, ?app_nil_r.
    + split; [done|]. right. simpl.
      by rewrite !sends_app, sends_send_all, sends_one, sends_close, app_nil_r.
  - destruct objs as [|x objs]; [exists []; simpl; auto|].
    cbn [ListAll_loop].
    destruct (ListAll_range_sends (x :: objs) lastkey first)
      as (em & Hinc & [[-> Heq]| Heq]); rewrite Heq.
    2:{ exists em. split; [done|]. right. simpl.
        by rewrite !sends_app, sends_send_all, sends_one, sends_close, app_nil_r. }
    destruct (last (x :: objs)) as [y|] eqn:Hlast.
    2:{ rewrite last_cons in Hlast. by destruct (last objs). }
    destruct (String.eqb (Key y) "").
    { exists (x :: objs). split; [done|]. left. simpl.
      rewrite sends_app. change (EvSend (Some x) :: send_all objs)
        with (send_all (x :: objs)).
      by rewrite sends_send_all, sends_close, app_nil_r. }
    pose proof (ListAll_next_sends fuel prefix (Key y) followLink st) as Hn.
    destruct (ListAll_next fuel prefix (Key y) followLink st) as [tr2 [[objs' st']|]].
    2:{ exists (x :: objs). split; [done|]. left. simpl in *.
        change (EvSend (Some x) :: send_all objs ++ tr2)
          with (send_all (x :: objs) ++ tr2).
        rewrite sends_app, sends_send_all, Hn. simpl. by rewrite app_nil_r. }
    destruct (IH st' objs' (Key y) false) as (em' & Hinc' & Hem').
    destruct (ListAll_loop fuel prefix followLink st' objs' (Key y) false) as [tr3 r].
    exists ((x :: objs) ++ em'). split.
    + apply increasing_after_app. split; [done|].
      unfold last_key. by rewrite Hlast.
    + simpl in Hn, Hem' |- *.
      change (EvSend (Some x) :: send_all objs ++ tr2 ++ tr3)
        with (send_all (x :: objs) ++ tr2 ++ tr3).
      rewrite !sends_app, sends_send_all, Hn. simpl.
      destruct Hem' as [->| ->]; [left|right]; by rewrite ?map_app, ?app_assoc.
Qed.

End DriverFacts.

Section DriverClaims.
Context {St Ob Env : Type} `{!Object Ob, !ObjectStorage St Ob, !Package St Ob Env}.
Implicit Types (objs : list Ob) (tr : list (event Ob)).

Lemma ListAll_next_head fuel prefix marker followLink st :
  ∃ tr r, ListAll_next fuel prefix marker followLink st =
            (EvList prefix marker "" maxResults followLink :: tr, r).
Proof.
  destruct fuel as [|fuel]; simpl;
    destruct (store_List _ _ _ _ _ _) as [[?|?] st']; eauto.
  destruct (ListAll_next _ _ _ _ _) as [tr r]. eauto.
Qed.

Lemma ListAll_loop_nil fuel prefix followLink st lastkey first :
  ListAll_loop fuel prefix followLink st [] lastkey first = ([EvClose], Some st).
Proof. by destruct fuel. Qed.

Lemma ListAll_loop_cons fuel prefix followLink st x objs lastkey first :
  ListAll_loop fuel prefix followLink st (x :: objs) lastkey first =
    match ListAll_range (x :: objs) lastkey first with
    | (tr, None) => (tr ++ [EvClose], Some st)
    | (tr, Some (lastkey, first)) =>
        if String.eqb lastkey "" then (tr ++ [EvClose], Some st)
        else
          match fuel with
          | O => (tr, None)
          | S f =>
              match ListAll_next f prefix lastkey followLink st with
              | (tr2, None) => (tr ++ tr2, None)
              | (tr2, Some (objs', st')) =>
                  let '(tr3, r) :=
                    ListAll_loop f prefix followLink st' objs' lastkey first in
                  (tr ++ tr2 ++ tr3, r)
              end
          end
    end.
Proof. by destruct fuel. Qed.

(** A page with increasing keys whose last key is not empty is followed by
    the request for the page after that key. *)
Lemma ListAll_loop_continues fuel prefix followLink st objs lastkey first y :
  increasing_after (emitted_before lastkey first) objs →
  last objs = Some y →
  Key y ≠ "" →
  ListAll_loop (S fuel) prefix followLink st objs lastkey first =
    match ListAll_next fuel prefix (Key y) followLink st with
    | (tr2, None) => (send_all objs ++ tr2, None)
    | (tr2, Some (objs', st')) =>
        (send_all objs ++ tr2
           ++ (ListAll_loop fuel prefix followLink st' objs' (Key y) false).1,
         (ListAll_loop fuel prefix followLink st' objs' (Key y) false).2)
    end.
Proof.
  intros Hinc Hlast Hy. destruct objs as [|x objs]; [done|].
  rewrite ListAll_loop_cons, (ListAll_range_increasing _ _ _ Hinc), Hlast.
  apply String.eqb_neq in Hy. rewrite Hy.
  destruct (ListAll_next _ _ _ _ _) as [tr2 [[objs' st']|]]; [|done].
  by destruct (ListAll_loop _ _ _ _ _ _ _).
Qed.

(** [ListAll] on a backend without a native listing whose first page
    request succeeds. *)
Lemma ListAll_driver fuel (store : St) prefix marker followLink e st1 objs st2 :
  store_ListAll prefix marker followLink store = (Err e, st1) →
  errors.Is e notSupported = true →
  store_List prefix marker "" maxResults followLink st1 = (Ok objs, st2) →
  ListAll fuel store prefix marker followLink =
    Listing (EvListAll prefix marker followLink
               :: EvList prefix marker "" maxResults followLink
               :: (ListAll_loop fuel prefix followLink st2 objs "" true).1)
            (Ok (Channel
                   (sends (ListAll_loop fuel prefix followLink st2 objs "" true).1)
                   (closes (ListAll_loop fuel prefix followLink st2 objs "" true).1)))
            (ListAll_loop fuel prefix followLink st2 objs "" true).2.
Proof.
  intros Hall His Hlist. unfold ListAll. rewrite Hall, His. simpl. rewrite Hlist.
  by destruct (ListAll_loop _ _ _ _ _ _ _).
Qed.

(** The first object of a listing is sent unchecked; the second one is
    compared with it. *)
Lemma ListAll_loop_first fuel prefix followLink (st : St) obj rest lastkey :
  ∃ tr fin,
    ListAll_loop fuel prefix followLink st (obj :: rest) lastkey true
      = (EvSend (Some obj) :: tr, fin)
    ∧ ∀ obj2 rest', rest = obj2 :: rest' → key_le (Key obj2) (Key obj) →
        tr = [EvSend None; EvClose].
Proof.
  rewrite ListAll_loop_cons. cbn [ListAll_range negb andb].
  destruct (ListAll_range rest (Key obj) false) as [tr1 [[lk f]|]] eqn:Hrange.
  - assert (∀ obj2 rest', rest = obj2 :: rest' → ¬ key_le (Key obj2) (Key obj)) as Hno.
    { intros obj2 rest' -> Hle%leb_key_le. simpl in Hrange. by rewrite Hle in Hrange. }
    assert (∀ tr : list (event Ob), ∀ obj2 rest', rest = obj2 :: rest' →
              key_le (Key obj2) (Key obj) → tr = [EvSend None; EvClose]) as Hno'.
    { intros tr ?? Hr Hle. by destruct (Hno _ _ Hr). }
    destruct (String.eqb lk ""); [eexists _, _; split; [reflexivity|apply Hno']|].
    destruct fuel as [|fuel]; [eexists _, _; split; [reflexivity|apply Hno']|].
    destruct (ListAll_next fuel prefix lk followLink st) as [tr2 [[objs' st']|]];
      [|eexists _, _; split; [reflexivity|apply Hno']].
    destruct (ListAll_loop fuel prefix followLink st' objs' lk f) as [tr3 r].
    eexists _, _; split; [reflexivity|apply Hno'].
  - eexists _, _. split; [reflexivity|].
    intros obj2 rest' -> Hle%leb_key_le. simpl in Hrange. rewrite Hle in Hrange.
    by injection Hrange as <-.
Qed.

End DriverClaims.

Section DriverTheorems.
Context {St Ob Env : Type} `{!Object Ob, !ObjectStorage St Ob, !Package St Ob Env}.
Implicit Types (objs : list Ob) (tr : list (event Ob)).

(** C2: when a key of a page is not strictly greater than the key emitted
    before it, the producer sends the objects in front of it, then [nil] as
    the ordering error, and closes the channel without sending the offending
    object or asking for another page; and whatever the backend returns, the
    keys of the objects put on the channel are strictly increasing, with
    [nil] only ever as the last value. *)
Theorem C2_out_of_order_key_ends_listing
    fuel prefix followLink (st : St) lastkey first (pre : list Ob) v post p :
  increasing_after (emitted_before lastkey first) pre →
  last_key (emitted_before lastkey first) pre = Some p →
  ¬ key_lt p (Key v) →
  ListAll_loop fuel prefix followLink st (pre ++ v :: post) lastkey first
    = (send_all pre ++ [EvSend None; EvClose], Some st)
  ∧ ∀ fuel' (st' : St) objs lastkey' first',
      ∃ emitted,
        increasing_after (emitted_before lastkey' first') emitted
        ∧ (sends (ListAll_loop fuel' prefix followLink st' objs lastkey' first').1
             = map Some emitted
           ∨ sends (ListAll_loop fuel' prefix followLink st' objs lastkey' first').1
             = map Some emitted ++ [None]).
Proof.
  intros Hinc Hp Hv. split.
  - apply key_not_lt, leb_key_le in Hv.
    destruct (pre ++ v :: post) as [|x objs] eqn:E; [by destruct pre|].
    rewrite ListAll_loop_cons, <- E.
    rewrite (ListAll_range_violation pre v post lastkey first p Hinc Hp Hv).
    by rewrite <- app_assoc.
  - intros. apply ListAll_loop_sends.
Qed.

(** C4 (amended): a page with no objects ends the listing without a further
    request; a page that has objects, however few, and whose keys increase
    up to a last key that is not empty is followed by the request for the
    page after that key. *)
Theorem C4_only_an_empty_page_ends_the_listing
    fuel prefix followLink (st : St) lastkey first objs y :
  increasing_after (emitted_before lastkey first) objs →
  last objs = Some y →
  Key y ≠ "" →
  ListAll_loop fuel prefix followLink st [] lastkey first = ([EvClose], Some st)
  ∧ ∃ tr r,
      ListAll_loop (S fuel) prefix followLink st objs lastkey first
        = (send_all objs ++ EvList prefix (Key y) "" maxResults followLink :: tr, r).
Proof.
  intros Hinc Hlast Hy. split; [apply ListAll_loop_nil|].
  rewrite (ListAll_loop_continues _ _ _ _ _ _ _ y Hinc Hlast Hy).
  destruct (ListAll_next_head fuel prefix (Key y) followLink st) as (tr2 & r & ->).
  destruct r as [[objs' st']|]; eauto.
Qed.

(** C6: each part under its own conditions only.  An error of the first
    page request other than not-supported is returned to the caller and no
    channel is made.  A later page request that fails [n] times and then
    succeeds is repeated with the same arguments after a pause of exactly
    100ms each time, for any [n]; the listing then goes on with the page
    obtained, and nothing but the objects of the page before is put on the
    channel meanwhile.  And as long as the request fails the producer stays
    in that loop: no number of attempts ends it. *)
Theorem C6_first_error_returned_later_errors_retried fuel prefix followLink :
  (∀ (store : St) marker e0 st1 e st2,
     store_ListAll prefix marker followLink store = (Err e0, st1) →
     errors.Is e0 notSupported = true →
     store_List prefix marker "" maxResults followLink st1 = (Err e, st2) →
     e ≠ notSupported →
     ListAll fuel store prefix marker followLink
       = Listing [EvListAll prefix marker followLink;
                  EvList prefix marker "" maxResults followLink]
                 (Err e) (Some st2))
  ∧ (∀ n (st stn st' : St) marker objs,
       fails n prefix marker followLink st stn →
       store_List prefix marker "" maxResults followLink stn = (Ok objs, st') →
       (n ≤ fuel)%nat →
       ListAll_next fuel prefix marker followLink st
         = (retries n prefix marker followLink
              ++ [EvList prefix marker "" maxResults followLink],
            Some (objs, st')))
  ∧ (∀ n (st stn st' : St) page lastkey first y objs,
       increasing_after (emitted_before lastkey first) page →
       last page = Some y →
       Key y ≠ "" →
       fails n prefix (Key y) followLink st stn →
       store_List prefix (Key y) "" maxResults followLink stn = (Ok objs, st') →
       (n ≤ fuel)%nat →
       ListAll_loop (S fuel) prefix followLink st page lastkey first
         = (send_all page
              ++ (retries n prefix (Key y) followLink
                    ++ [EvList prefix (Key y) "" maxResults followLink])
              ++ (ListAll_loop fuel prefix followLink st' objs (Key y) false).1,
            (ListAll_loop fuel prefix followLink st' objs (Key y) false).2))
  ∧ (∀ k marker (stc stk : St),
       fails (S k) prefix marker followLink stc stk →
       ListAll_next k prefix marker followLink stc
         = (retries k prefix marker followLink
              ++ [EvList prefix marker "" maxResults followLink],
            None)).
Proof.
  split; [|split; [|split]].
  - intros store marker e0 st1 e st2 Hall His Hlist Hne.
    unfold ListAll. rewrite Hall, His. simpl. rewrite Hlist.
    by destruct e.
  - intros n st stn st' marker objs Hfails Hok Hn.
    by apply ListAll_next_retries with stn.
  - intros n st stn st' page lastkey first y objs Hinc Hlast Hy Hfails Hok Hn.
    rewrite (ListAll_loop_continues _ _ _ _ _ _ _ y Hinc Hlast Hy).
    by rewrite (ListAll_next_retries n fuel prefix (Key y) followLink st stn st' objs
                  Hfails Hok Hn).
  - intros k marker stc stk Hstuck.
    by apply ListAll_next_stuck with stk.
Qed.

(** C8: with an empty marker and a first page that holds exactly one object
    whose key is empty, the driver sends that object and closes the channel,
    having made the one page request only. *)
Theorem C8_single_empty_key_ends_listing
    fuel (store : St) prefix followLink e st1 obj st2 :
  store_ListAll prefix "" followLink store = (Err e, st1) →
  errors.Is e notSupported = true →
  store_List prefix "" "" maxResults followLink st1 = (Ok [obj], st2) →
  Key obj = "" →
  ListAll fuel store prefix "" followLink
    = Listing [EvListAll prefix "" followLink;
               EvList prefix "" "" maxResults followLink;
               EvSend (Some obj); EvClose]
              (Ok (Channel [Some obj] true)) (Some st2)
  ∧ requests (events (ListAll fuel store prefix "" followLink)) = 1%nat.
Proof.
  intros Hall His Hlist Hkey.
  assert (ListAll fuel store prefix "" followLink
    = Listing [EvListAll prefix "" followLink;
               EvList prefix "" "" maxResults followLink;
               EvSend (Some obj); EvClose]
              (Ok (Channel [Some obj] true)) (Some st2)) as Heq.
  { rewrite (ListAll_driver _ _ _ _ _ _ _ _ _ Hall His Hlist).
    rewrite ListAll_loop_cons. simpl. by rewrite Hkey. }
  by rewrite Heq.
Qed.

(** C10: the first object of the first page is sent as it is even when its
    key is not greater than the marker of the call; the comparison of keys
    starts with the second object, which is replaced by [nil] when its key
    is not greater than the first one's. *)
Theorem C10_first_object_not_checked_against_marker
    fuel (store : St) prefix marker followLink e st1 obj rest st2 :
  store_ListAll prefix marker followLink store = (Err e, st1) →
  errors.Is e notSupported = true →
  store_List prefix marker "" maxResults followLink st1 = (Ok (obj :: rest), st2) →
  key_le (Key obj) marker →
  ∃ tr fin,
    ListAll fuel store prefix marker followLink
      = Listing (EvListAll prefix marker followLink
                   :: EvList prefix marker "" maxResults followLink
                   :: EvSend (Some obj) :: tr)
                (Ok (Channel (Some obj :: sends tr) (closes tr))) fin
    ∧ ∀ obj2 rest', rest = obj2 :: rest' → key_le (Key obj2) (Key obj) →
        tr = [EvSend None; EvClose].
Proof.
  intros Hall His Hlist _.
  rewrite (ListAll_driver _ _ _ _ _ _ _ _ _ Hall His Hlist).
  destruct (ListAll_loop_first fuel prefix followLink st2 obj rest "")
    as (tr & fin & -> & Hsecond).
  by exists tr, fin.
Qed.

End DriverTheorems.

(** Witness of C2: the page [b, a]. *)
Lemma C2_witness :
  ListAll_loop 0 "" false ([] : scripted) ([ob "b"] ++ ob "a" :: []) "" true
    = (send_all [ob "b"] ++ [EvSend None; EvClose], Some [])
  ∧ ∀ fuel' (st' : scripted) objs lastkey' first',
      ∃ emitted,
        increasing_after (emitted_before lastkey' first') emitted
        ∧ (sends (ListAll_loop fuel' "" false st' objs lastkey' first').1
             = map Some emitted
           ∨ sends (ListAll_loop fuel' "" false st' objs lastkey' first').1
             = map Some emitted ++ [None]).
Proof.
  apply (C2_out_of_order_key_ends_listing
           0 "" false ([] : scripted) "" true [ob "b"] (ob "a") [] "b").
  - simpl. tauto.
  - reflexivity.
  - unfold key_lt. vm_compute. discriminate.
Defined.

(** The claim C4 as stated fails on a page of one object: the driver asks
    for the page after it. *)
Lemma C4_short_page_is_followed_by_a_request :
  Z.of_nat (length [ob "a"]) < maxResults
  ∧ events (ListAll 1 ([Ok [ob "a"]] : scripted) "" "" false)
    = [EvListAll "" "" false; EvList "" "" "" maxResults false;
       EvSend (Some (ob "a")); EvList "" "a" "" maxResults false; EvClose]
  ∧ requests (events (ListAll 1 ([Ok [ob "a"]] : scripted) "" "" false)) = 2%nat.
Proof. repeat split. Qed.

(** Witness of C4 (amended): the page [a]. *)
Lemma C4_witness :
  ListAll_loop 0 "" false ([] : scripted) [] "" true = ([EvClose], Some [])
  ∧ ∃ tr r,
      ListAll_loop 1 "" false ([] : scripted) [ob "a"] "" true
        = (send_all [ob "a"] ++ EvList "" (Key (ob "a")) "" maxResults false :: tr, r).
Proof.
  apply (C4_only_an_empty_page_ends_the_listing
           0 "" false ([] : scripted) "" true [ob "a"] (ob "a")).
  - simpl. tauto.
  - reflexivity.
  - discriminate.
Defined.

(** Witness of C6: a backend whose first request fails, one whose request
    after the page [a, b] fails twice before it yields [c], and one whose
    request fails for good. *)
Lemma C6_witness :
  ListAll 3 ([Err (errorString "down")] : scripted) "" "" false
    = Listing [EvListAll "" "" false; EvList "" "" "" maxResults false]
              (Err (errorString "down")) (Some [])
  ∧ ListAll_next 3 "" "b" false
      ([Err (errorString "busy"); Err (errorString "busy"); Ok [ob "c"]] : scripted)
    = ([EvList "" "b" "" maxResults false; EvSleep 100;
        EvList "" "b" "" maxResults false; EvSleep 100;
        EvList "" "b" "" maxResults false],
       Some ([ob "c"], []))
  ∧ sends (ListAll_loop 4 "" false
      ([Err (errorString "busy"); Err (errorString "busy"); Ok [ob "c"]] : scripted)
      [ob "a"; ob "b"] "" true).1
    = [Some (ob "a"); Some (ob "b"); Some (ob "c")]
  ∧ ListAll_next 1 "" "b" false
      ([Err (errorString "busy"); Err (errorString "busy")] : scripted)
    = ([EvList "" "b" "" maxResults false; EvSleep 100;
        EvList "" "b" "" maxResults false],
       None).
Proof.
  destruct (C6_first_error_returned_later_errors_retried
              (St := scripted) (Ob := object) 3 "" false)
    as (H1 & H2 & H3 & H4).
  split; [|split; [|split]].
  - apply (H1 ([Err (errorString "down")] : scripted) ""
              notSupported [Err (errorString "down")] (errorString "down") []).
    + reflexivity.
    + reflexivity.
    + reflexivity.
    + discriminate.
  - apply (H2 2%nat
              ([Err (errorString "busy"); Err (errorString "busy"); Ok [ob "c"]] : scripted)
              [Ok [ob "c"]] [] "b" [ob "c"]).
    + do 2 (eexists _, _; split; [reflexivity|]). reflexivity.
    + reflexivity.
    + lia.
  - rewrite (H3 2%nat
               ([Err (errorString "busy"); Err (errorString "busy"); Ok [ob "c"]] : scripted)
               [Ok [ob "c"]] [] [ob "a"; ob "b"] "" true (ob "b") [ob "c"]).
    + reflexivity.
    + simpl. repeat split.
    + reflexivity.
    + discriminate.
    + do 2 (eexists _, _; split; [reflexivity|]). reflexivity.
    + reflexivity.
    + lia.
  - apply (H4 1%nat "b"
              ([Err (errorString "busy"); Err (errorString "busy")] : scripted) []).
    do 2 (eexists _, _; split; [reflexivity|]). reflexivity.
Defined.

(** Witness of C8: a backend holding the one key [""]. *)
Lemma C8_witness :
  ListAll 5 ([Ok [ob ""]] : scripted) "p" "" true
    = Listing [EvListAll "p" "" true; EvList "p" "" "" maxResults true;
               EvSend (Some (ob "")); EvClose]
              (Ok (Channel [Some (ob "")] true)) (Some [])
  ∧ requests (events (ListAll 5 ([Ok [ob ""]] : scripted) "p" "" true)) = 1%nat.
Proof.
  apply (C8_single_empty_key_ends_listing
           5 ([Ok [ob ""]] : scripted) "p" true notSupported [Ok [ob ""]] (ob "") []);
    reflexivity.
Defined.

(** Witness of C10: marker [m] and the page [a, a]. *)
Lemma C10_witness :
  ∃ tr fin,
    ListAll 5 ([Ok [ob "a"; ob "a"]] : scripted) "" "m" false
      = Listing (EvListAll "" "m" false :: EvList "" "m" "" maxResults false
                   :: EvSend (Some (ob "a")) :: tr)
                (Ok (Channel (Some (ob "a") :: sends tr) (closes tr))) fin
    ∧ ∀ obj2 rest', [ob "a"] = obj2 :: rest' → key_le (Key obj2) (Key (ob "a")) →
        tr = [EvSend None; EvClose].
Proof.
  apply (C10_first_object_not_checked_against_marker
           5 ([Ok [ob "a"; ob "a"]] : scripted) "" "m" false notSupported
           [Ok [ob "a"; ob "a"]] (ob "a") [ob "a"] []);
    reflexivity.
Defined.

(** The listing of a backend with the pages [a, b, c] and [d, e]: the
    objects in order, a request after each page, and the close after the
    empty third page. *)
Example two_pages :
  events (ListAll 3 ([Ok [ob "a"; ob "b"; ob "c"]; Ok [ob "d"; ob "e"]] : scripted)
            "" "" false)
  = [EvListAll "" "" false; EvList "" "" "" maxResults false;
     EvSend (Some (ob "a")); EvSend (Some (ob "b")); EvSend (Some (ob "c"));
     EvList "" "c" "" maxResults false;
     EvSend (Some (ob "d")); EvSend (Some (ob "e"));
     EvList "" "e" "" maxResults false;
     EvClose].
Proof. reflexivity. Qed.

(** ** The router *)

Lemma fnv_Write_fold s data :
  fnv.Write s data =
    fold_left (λ h c, (Z.lxor h (Z.of_N (Byte.to_N c)) * 16777619) mod 4294967296)
              data s.
Proof. revert s. induction data as [|c data IH]; intros s; simpl; [done|]. apply IH. Qed.

Lemma pick_index {St} (s : sharded St) key :
  (1 ≤ length (stores s))%nat →
  Z.of_nat (length (stores s)) < 2 ^ 32 →
  sharded.pick s key
    = Some (Z.to_nat (fnv1a_32 (bytes key) mod Z.of_nat (length (stores s))))
  ∧ (Z.to_nat (fnv1a_32 (bytes key) mod Z.of_nat (length (stores s)))
       < length (stores s))%nat.
Proof.
  intros Hpos Hlt. unfold sharded.pick, fnv.Sum32, fnv.New32a, fnv.uint32, fnv.offset32.
  rewrite fnv_Write_fold. fold (fnv1a_32 (bytes key)).
  rewrite (Z.mod_small (Z.of_nat _)) by lia.
  destruct (Z.eqb_spec (Z.of_nat (length (stores s))) 0) as [?|_]; [lia|].
  pose proof (Z.mod_pos_bound (fnv1a_32 (bytes key)) (Z.of_nat (length (stores s)))).
  assert (Z.to_nat (fnv1a_32 (bytes key) mod Z.of_nat (length (stores s)))
            < length (stores s))%nat as Hi by lia.
  split; [|done].
  destruct (lookup_lt_is_Some_2 _ _ Hi) as [x ->]. done.
Qed.

(** C5: for a shard set of [N >= 1] stores, [pick] returns the shard at
    index FNV-1a-32 of the bytes of the key modulo [N]; the index is a
    function of the key and of [N] alone, the same for every facade with
    that many shards.  [N] is below [2^32], the range in which the
    conversion [uint32(len(s.stores))] is exact. *)
Theorem C5_pick_is_fnv1a_modulo_shard_count
    {St} (s : sharded St) (key : string) (N : nat) :
  length (stores s) = N →
  (1 ≤ N)%nat →
  Z.of_nat N < 2 ^ 32 →
  ∃ i shard,
    i = Z.to_nat (fnv1a_32 (bytes key) mod Z.of_nat N)
    ∧ (i < N)%nat
    ∧ stores s !! i = Some shard
    ∧ sharded.pick s key = Some i
    ∧ ∀ St' (s' : sharded St'), length (stores s') = N → sharded.pick s' key = Some i.
Proof.
  intros HN Hpos Hlt. subst N.
  destruct (pick_index s key Hpos Hlt) as [Hpick Hi].
  destruct (lookup_lt_is_Some_2 _ _ Hi) as [shard Hshard].
  eexists _, shard. repeat split; [done|done|done|].
  intros St' s' Hlen. rewrite <- Hlen. apply pick_index; rewrite Hlen; done.
Qed.

(** Witness of C5: three shards and the key [a], whose hash is
    [0xe40c292c]. *)
Lemma C5_witness :
  ∃ i shard,
    i = Z.to_nat (fnv1a_32 (bytes "a") mod Z.of_nat 3)
    ∧ (i < 3)%nat
    ∧ stores (mkSharded [10; 11; 12] []) !! i = Some shard
    ∧ sharded.pick (mkSharded [10; 11; 12] []) "a" = Some i
    ∧ ∀ St' (s' : sharded St'), length (stores s') = 3%nat → sharded.pick s' "a" = Some i.
Proof.
  apply (C5_pick_is_fnv1a_modulo_shard_count (mkSharded [10; 11; 12] []) "a" 3).
  - reflexivity.
  - lia.
  - reflexivity.
Defined.

(** The hash object agrees with the published FNV-1a test vectors. *)
Example fnv1a_32_vectors :
  fnv.Sum32 (fnv.Write fnv.New32a (bytes "")) = 0x811c9dc5
  ∧ fnv.Sum32 (fnv.Write fnv.New32a (bytes "a")) = 0xe40c292c
  ∧ fnv.Sum32 (fnv.Write fnv.New32a (bytes "foobar")) = 0xbf9cf968.
Proof. repeat split. Qed.

(** ** The facade *)

(** A forwarded call is entered in the journal with the shard it went to. *)
Lemma forward_journal {St A} name (m : St → A * St) (s s' : sharded St) key r :
  sharded.forward name m s key = Some (r, s') →
  ∃ i, sharded.pick s key = Some i ∧ journal s' = journal s ++ [(i, name)].
Proof.
  unfold sharded.forward. intros H.
  destruct (sharded.pick s key) as [i|]; [|done]. simpl in H.
  destruct (stores s !! i) as [st|]; [|done]. simpl in H.
  destruct (m st) as [r' st']. injection H as _ <-. eauto.
Qed.

(** C9: [Copy] returns the not-supported error for every pair of keys,
    calls no method of any shard and leaves every shard as it was. *)
Theorem C9_Copy_is_not_supported {St} (s : sharded St) (dst src : string) :
  ∃ s', sharded.Copy s dst src = Some (Some notSupported, s')
        ∧ stores s' = stores s
        ∧ journal s' = journal s.
Proof. exists s. done. Qed.

(** ** container/heap on the merge frontier *)

Ltac Zify.zify_post_hook ::= Z.div_mod_to_equations.

Section HeapFacts.
Context {Ob : Type} `{!Object Ob}.
Implicit Types (h : list (nextKey Ob)) (a b x : nextKey Ob).

Lemma entry_le_trans a b c : entry_le a b → entry_le b c → entry_le a c.
Proof. apply key_le_trans. Qed.

Lemma Less_Some h i j a b :
  h !! i = Some a → h !! j = Some b →
  heap.Interface.Less (NextObjects h) i j
    = Some (String.ltb (Key (o a)) (Key (o b))).
Proof.
  intros Ha Hb. cbn. unfold nextObjects.Less. cbn. by rewrite Ha, Hb.
Qed.

Lemma Swap_Some h i j a b :
  h !! i = Some a → h !! j = Some b →
  heap.Interface.Swap (NextObjects h) i j
    = Some (NextObjects (<[i := b]> (<[j := a]> h))).
Proof.
  intros Ha Hb. cbn. unfold nextObjects.Swap. cbn. by rewrite Ha, Hb.
Qed.

Lemma swap_lookup h i j a b k :
  h !! i = Some a → h !! j = Some b →
  <[i := b]> (<[j := a]> h) !! k =
    if decide (k = i) then Some b else if decide (k = j) then Some a else h !! k.
Proof.
  intros Ha Hb.
  pose proof (lookup_lt_Some _ _ _ Ha). pose proof (lookup_lt_Some _ _ _ Hb).
  destruct (decide (k = i)) as [->|Hki].
  - apply list_lookup_insert_eq. by rewrite length_insert.
  - rewrite list_lookup_insert_ne by done.
    destruct (decide (k = j)) as [->|Hkj].
    + by apply list_lookup_insert_eq.
    + by rewrite list_lookup_insert_ne.
Qed.

Lemma insert_cons_perm h j b x :
  h !! j = Some b → b :: <[j := x]> h ≡ₚ x :: h.
Proof.
  revert j. induction h as [|y h IH]; intros [|j] Hj; simplify_eq/=.
  - apply perm_swap.
  - rewrite perm_swap. rewrite (IH j Hj). apply perm_swap.
Qed.

Lemma swap_perm h i j a b :
  h !! i = Some a → h !! j = Some b → <[i := b]> (<[j := a]> h) ≡ₚ h.
Proof.
  revert i j. induction h as [|y h IH]; intros [|i] [|j] Ha Hb; simplify_eq/=.
  - done.
  - by apply insert_cons_perm.
  - symmetry. rewrite <- (insert_cons_perm h i a b Ha). done.
  - f_equiv. by apply IH.
Qed.

Lemma down_loop_unfold fuel h i n :
  heap.down_loop fuel (NextObjects h) i n =
    let j1 := (2 * i + 1)%nat in
    if decide (n ≤ j1)%nat then Some (NextObjects h)
    else
      let j2 := (j1 + 1)%nat in
      lt ← (if decide (j2 < n)%nat
            then heap.Interface.Less (NextObjects h) j2 j1 else Some false);
      let j := if (lt : bool) then j2 else j1 in
      lt' ← heap.Interface.Less (NextObjects h) j i;
      if negb (lt' : bool) then Some (NextObjects h)
      else
        match fuel with
        | O => None
        | S f => h' ← heap.Interface.Swap (NextObjects h) i j; heap.down_loop f h' j n
        end.
Proof. by destruct fuel. Qed.

(** One turn of the loop of [down] at an entry that has a child: the
    smaller child [j] is found and, when it is smaller than the entry at
    [i], exchanged with it. *)
Lemma down_loop_step fuel h i n xi :
  (n ≤ length h)%nat → ¬ (n ≤ 2 * i + 1)%nat → h !! i = Some xi →
  ∃ j xj, h !! j = Some xj ∧ (j = 2 * i + 1 ∨ j = 2 * i + 2)%nat
    ∧ (j < n)%nat
    ∧ (∀ c b, (c < n)%nat → ((c - 1) / 2)%nat = i → (1 ≤ c)%nat →
         h !! c = Some b → entry_le xj b)
    ∧ heap.down_loop (S fuel) (NextObjects h) i n
      = (if negb (String.ltb (Key (o xj)) (Key (o xi)))
         then Some (NextObjects h)
         else heap.down_loop fuel (NextObjects (<[i := xj]> (<[j := xi]> h))) j n).
Proof.
  intros Hn Hchild Hi.
  destruct (lookup_lt_is_Some_2 h (2 * i + 1)%nat ltac:(lia)) as [x1 H1].
  destruct (decide (2 * i + 1 + 1 < n)%nat) as [H2n|H2n].
  - destruct (lookup_lt_is_Some_2 h (2 * i + 1 + 1)%nat ltac:(lia)) as [x2 H2].
    destruct (String.ltb (Key (o x2)) (Key (o x1))) eqn:Hlt.
    + exists (2 * i + 1 + 1)%nat, x2. split_and!; [done|lia|done| |].
      * intros c b Hc Hp Hc1 Hb.
        assert (c = 2 * i + 1 ∨ c = 2 * i + 1 + 1)%nat as [->| ->] by lia.
        -- rewrite H1 in Hb. injection Hb as <-. by apply key_lt_le.
        -- rewrite H2 in Hb. injection Hb as <-. apply key_le_refl.
      * rewrite down_loop_unfold. cbn zeta.
        rewrite decide_False, decide_True by done.
        rewrite (Less_Some h _ _ x2 x1 H2 H1), Hlt. cbn [mbind option_bind].
        rewrite (Less_Some h _ _ x2 xi H2 Hi). cbn [mbind option_bind].
        destruct (String.ltb (Key (o x2)) (Key (o xi))); [|done].
        cbn [negb]. by rewrite (Swap_Some h _ _ xi x2 Hi H2).
    + exists (2 * i + 1)%nat, x1. split_and!; [done|lia|lia| |].
      * intros c b Hc Hp Hc1 Hb.
        assert (c = 2 * i + 1 ∨ c = 2 * i + 1 + 1)%nat as [->| ->] by lia.
        -- rewrite H1 in Hb. injection Hb as <-. apply key_le_refl.
        -- rewrite H2 in Hb. injection Hb as <-. exact Hlt.
      * rewrite down_loop_unfold. cbn zeta.
        rewrite decide_False, decide_True by done.
        rewrite (Less_Some h _ _ x2 x1 H2 H1), Hlt. cbn [mbind option_bind].
        rewrite (Less_Some h _ _ x1 xi H1 Hi). cbn [mbind option_bind].
        destruct (String.ltb (Key (o x1)) (Key (o xi))); [|done].
        cbn [negb]. by rewrite (Swap_Some h _ _ xi x1 Hi H1).
  - exists (2 * i + 1)%nat, x1. split_and!; [done|lia|lia| |].
    + intros c b Hc Hp Hc1 Hb.
      assert (c = 2 * i + 1)%nat as -> by lia.
      rewrite H1 in Hb. injection Hb as <-. apply key_le_refl.
    + rewrite down_loop_unfold. cbn zeta.
      rewrite !decide_False by done. cbn [mbind option_bind].
      rewrite (Less_Some h _ _ x1 xi H1 Hi). cbn [mbind option_bind].
      destruct (String.ltb (Key (o x1)) (Key (o xi))); [|done].
      cbn [negb]. by rewrite (Swap_Some h _ _ xi x1 Hi H1).
Qed.

(** [down] restores the heap below [lo] when only the entry at [i] may be
    larger than its children, all other parents, and the parent of [i]
    against the children of [i], being in order. *)
Lemma down_loop_spec fuel h i n lo :
  (n ≤ length h)%nat → (n - i ≤ fuel)%nat →
  (∀ c a b, (1 ≤ c < n)%nat → (lo ≤ (c - 1) / 2)%nat → ((c - 1) / 2)%nat ≠ i →
     h !! ((c - 1) / 2)%nat = Some a → h !! c = Some b → entry_le a b) →
  (∀ c a b, (1 ≤ c < n)%nat → ((c - 1) / 2)%nat = i → (1 ≤ i)%nat →
     (lo ≤ (i - 1) / 2)%nat →
     h !! ((i - 1) / 2)%nat = Some a → h !! c = Some b → entry_le a b) →
  ∃ h', heap.down_loop fuel (NextObjects h) i n = Some (NextObjects h')
        ∧ heap_from lo n h' ∧ h' ≡ₚ h ∧ length h' = length h
        ∧ ∀ k, (n ≤ k)%nat → h' !! k = h !! k.
Proof.
  revert h i. induction fuel as [|fuel IH]; intros h i Hn Hfuel D1 D2.
  - exists h. rewrite down_loop_unfold. cbn zeta.
    rewrite decide_True by lia. repeat split; try done.
    intros c a b Hc Hlo Ha Hb. apply (D1 c); try done. lia.
  - destruct (decide (n ≤ 2 * i + 1)%nat) as [Hleaf|Hchild].
    { exists h. rewrite down_loop_unfold. cbn zeta.
      rewrite decide_True by done. repeat split; try done.
      intros c a b Hc Hlo Ha Hb. apply (D1 c); try done. lia. }
    destruct (lookup_lt_is_Some_2 h i ltac:(lia)) as [xi Hi].
    destruct (down_loop_step fuel h i n xi Hn Hchild Hi)
      as (j & xj & Hj & Hjc & Hjn & Hmin & ->).
    destruct (String.ltb (Key (o xj)) (Key (o xi))) eqn:Hlt; cbn [negb].
    + (* exchange and go on at [j] *)
      set (h1 := <[i := xj]> (<[j := xi]> h)).
      assert (∀ k, h1 !! k = if decide (k = i) then Some xj
                             else if decide (k = j) then Some xi else h !! k) as Hh1.
      { intros k. by apply swap_lookup. }
      assert (length h1 = length h) as Hlen1.
      { unfold h1. by rewrite !length_insert. }
      destruct (IH h1 j) as (h' & Hdown & Hheap & Hperm & Hlen & Hout).
      * lia.
      * lia.
      * intros c a b Hc Hlo Hpj. rewrite !Hh1.
        destruct (decide (((c - 1) / 2)%nat = i)) as [Hpi|Hpi].
        -- intros [= <-].
           destruct (decide (c = i)) as [?|_]; [lia|].
           destruct (decide (c = j)) as [->|Hcj].
           ++ intros [= <-]. by apply key_lt_le.
           ++ intros Hb. apply (Hmin c); [lia|done|lia|done].
        -- destruct (decide (((c - 1) / 2)%nat = j)) as [?|_]; [done|].
           intros Ha.
           destruct (decide (c = i)) as [->|Hci].
           ++ intros [= <-]. apply (D2 j); [lia|lia|lia|lia|done|done].
           ++ destruct (decide (c = j)) as [?|_]; [lia|].
              intros Hb. by apply (D1 c).
      * intros c a b Hc Hpj Hj1 Hlo. rewrite !Hh1.
        assert (((j - 1) / 2)%nat = i) as -> by lia.
        rewrite decide_True by done. intros [= <-].
        destruct (decide (c = i)) as [?|_]; [lia|].
        destruct (decide (c = j)) as [?|_]; [lia|].
        intros Hb. apply (D1 c); [lia|lia|lia| |done].
        by rewrite Hpj.
      * exists h'. split; [done|]. split; [done|]. split.
        { rewrite Hperm. by apply swap_perm. }
        split; [lia|].
        intros k Hk. rewrite (Hout k Hk), Hh1.
        destruct (decide (k = i)) as [?|_]; [lia|].
        destruct (decide (k = j)) as [?|_]; [lia|]. done.
    + (* the entry at [i] is not larger than its children *)
      exists h. repeat split; try done.
      intros c a b Hc Hlo Ha Hb.
      destruct (decide (((c - 1) / 2)%nat = i)) as [Hpi|Hpi].
      * rewrite Hpi, Hi in Ha. injection Ha as <-.
        apply entry_le_trans with xj; [exact Hlt|].
        apply (Hmin c); [lia|done|lia|done].
      * by apply (D1 c).
Qed.

Lemma up_loop_unfold fuel h j :
  heap.up_loop fuel (NextObjects h) j =
    if decide (((j - 1) / 2)%nat = j) then Some (NextObjects h)
    else
      lt ← heap.Interface.Less (NextObjects h) j ((j - 1) / 2)%nat;
      if negb (lt : bool) then Some (NextObjects h)
      else
        match fuel with
        | O => None
        | S f => h' ← heap.Interface.Swap (NextObjects h) ((j - 1) / 2)%nat j;
                 heap.up_loop f h' ((j - 1) / 2)%nat
        end.
Proof. by destruct fuel. Qed.

(** [up] restores the heap when only the entry at [j] may be smaller than
    its parent, the parent of [j] being in order against the children of
    [j]. *)
Lemma up_loop_spec fuel h j :
  (j < length h)%nat → (j ≤ fuel)%nat →
  (∀ c a b, (1 ≤ c < length h)%nat → c ≠ j →
     h !! ((c - 1) / 2)%nat = Some a → h !! c = Some b → entry_le a b) →
  (∀ c a b, (1 ≤ c < length h)%nat → ((c - 1) / 2)%nat = j → (1 ≤ j)%nat →
     h !! ((j - 1) / 2)%nat = Some a → h !! c = Some b → entry_le a b) →
  ∃ h', heap.up_loop fuel (NextObjects h) j = Some (NextObjects h')
        ∧ is_heap h' ∧ h' ≡ₚ h.
Proof.
  revert h j. induction fuel as [|fuel IH]; intros h j Hj Hfuel U1 U2;
    rewrite up_loop_unfold.
  - assert (j = 0)%nat as -> by lia. rewrite decide_True by done.
    exists h. repeat split; try done.
    intros c a b Hc _ Ha Hb. apply (U1 c); [done|lia|done|done].
  - destruct (decide (((j - 1) / 2)%nat = j)) as [Hroot|Hpar].
    { exists h. repeat split; try done.
      intros c a b Hc _ Ha Hb. apply (U1 c); [done|lia|done|done]. }
    destruct (lookup_lt_is_Some_2 h j Hj) as [xj Hxj].
    destruct (lookup_lt_is_Some_2 h ((j - 1) / 2)%nat ltac:(lia)) as [xi Hxi].
    rewrite (Less_Some h _ _ xj xi Hxj Hxi). cbn [mbind option_bind].
    destruct (String.ltb (Key (o xj)) (Key (o xi))) eqn:Hlt; cbn [negb].
    + rewrite (Swap_Some h _ _ xi xj Hxi Hxj). cbn [mbind option_bind].
      set (i := ((j - 1) / 2)%nat) in *.
      set (h1 := <[i := xj]> (<[j := xi]> h)).
      assert (∀ k, h1 !! k = if decide (k = i) then Some xj
                             else if decide (k = j) then Some xi else h !! k) as Hh1.
      { intros k. by apply swap_lookup. }
      assert (length h1 = length h) as Hlen1.
      { unfold h1. by rewrite !length_insert. }
      destruct (IH h1 i) as (h' & Hup & Hheap & Hperm).
      * lia.
      * lia.
      * rewrite Hlen1. intros c a b Hc Hci. rewrite !Hh1.
        rewrite (decide_False (P := c = i)) by done.
        destruct (decide (c = j)) as [->|Hcj].
        -- fold i. rewrite decide_True by done.
           intros [= <-] [= <-]. by apply key_lt_le.
        -- destruct (decide (((c - 1) / 2)%nat = i)) as [Hpi|Hpi].
           ++ intros [= <-] Hb.
              apply entry_le_trans with xi; [by apply key_lt_le|].
              apply (U1 c); [done|done| |done]. by rewrite Hpi.
           ++ destruct (decide (((c - 1) / 2)%nat = j)) as [Hpj|Hpj].
              ** intros [= <-] Hb. apply (U2 c); [done|done|lia|done|done].
              ** intros Ha Hb. by apply (U1 c).
      * rewrite Hlen1. intros c a b Hc Hpi Hi1. rewrite !Hh1.
        destruct (decide (((i - 1) / 2)%nat = i)) as [?|_]; [lia|].
        destruct (decide (((i - 1) / 2)%nat = j)) as [?|_]; [lia|].
        destruct (decide (c = i)) as [?|_]; [lia|].
        intros Ha.
        assert (entry_le a xi) as Hai.
        { apply (U1 i); [lia|lia|done|done]. }
        destruct (decide (c = j)) as [->|Hcj].
        -- by intros [= <-].
        -- intros Hb. apply entry_le_trans with xi; [done|].
           apply (U1 c); [done|done| |done]. by rewrite Hpi.
      * exists h'. split; [done|]. split; [done|].
        rewrite Hperm. by apply swap_perm.
    + exists h. repeat split; try done.
      intros c a b Hc _ Ha Hb.
      destruct (decide (c = j)) as [->|Hcj].
      * rewrite Hxi in Ha. rewrite Hxj in Hb. by simplify_eq.
      * by apply (U1 c).
Qed.

Lemma Init_loop_spec k h :
  heap_from k (length h) h →
  ∃ h', heap.Init_loop k (NextObjects h) (length h) = Some (NextObjects h')
        ∧ is_heap h' ∧ h' ≡ₚ h.
Proof.
  revert h. induction k as [|i IH]; intros h Hheap; simpl.
  - by exists h.
  - unfold heap.down.
    destruct (down_loop_spec (length h) h i (length h) i)
      as (h1 & -> & Hheap1 & Hperm1 & Hlen1 & _).
    + done.
    + lia.
    + intros c a b Hc Hlo Hne. apply (Hheap c); [done|lia].
    + intros c a b Hc Hp Hi Hlo. lia.
    + cbn [mbind option_bind]. rewrite <- Hlen1 in Hheap1 |- *.
      destruct (IH h1 Hheap1) as (h' & -> & Hheap' & Hperm').
      exists h'. repeat split; [done|]. by rewrite Hperm'.
Qed.

(** [heap.Init] turns any frontier into a heap of the same entries. *)
Lemma Init_spec h :
  ∃ h', heap.Init (NextObjects h) = Some (NextObjects h')
        ∧ is_heap h' ∧ h' ≡ₚ h.
Proof.
  change (heap.Init (NextObjects h))
    with (heap.Init_loop (length h / 2)%nat (NextObjects h) (length h)).
  apply Init_loop_spec. intros c a b Hc Hlo. lia.
Qed.

(** [heap.Push] keeps the heap and adds the entry. *)
Lemma Push_spec h x :
  is_heap h →
  ∃ h', heap.Push (NextObjects h) x = Some (NextObjects h')
        ∧ is_heap h' ∧ h' ≡ₚ x :: h.
Proof.
  intros Hheap.
  change (heap.Push (NextObjects h) x)
    with (heap.up_loop (length (h ++ [x]) - 1)%nat (NextObjects (h ++ [x]))
                       (length (h ++ [x]) - 1)%nat).
  assert (length (h ++ [x]) = S (length h)) as Hl
    by (rewrite length_app; simpl; lia).
  replace (length (h ++ [x]) - 1)%nat with (length h) by lia.
  destruct (up_loop_spec (length h) (h ++ [x]) (length h))
    as (h' & -> & Hheap' & Hperm').
  - lia.
  - done.
  - rewrite Hl. intros c a b Hc Hne.
    rewrite (lookup_app_l h [x] c), (lookup_app_l h [x] ((c - 1) / 2)%nat) by lia.
    apply (Hheap c); lia.
  - rewrite Hl. intros c a b Hc Hp. lia.
  - exists h'. repeat split; [done|].
    rewrite Hperm'. by rewrite Permutation_app_comm.
Qed.

(** The root of a heap is a least entry. *)
Lemma heap_root_least h r :
  is_heap h → h !! 0%nat = Some r → ∀ k y, h !! k = Some y → entry_le r y.
Proof.
  intros Hheap Hr k. induction k as [k IH] using lt_wf_ind. intros y Hy.
  destruct (decide (k = 0%nat)) as [->|Hk].
  - rewrite Hr in Hy. injection Hy as <-. apply key_le_refl.
  - pose proof (lookup_lt_Some _ _ _ Hy) as Hlt.
    destruct (lookup_lt_is_Some_2 h ((k - 1) / 2)%nat ltac:(lia)) as [a Ha].
    apply entry_le_trans with a.
    + apply (IH ((k - 1) / 2)%nat); [lia|done].
    + apply (Hheap k); [lia|lia|done|done].
Qed.

(** [heap.Pop] takes a least entry off a heap that has one and keeps the
    heap. *)
Lemma Pop_spec h :
  is_heap h → h ≠ [] →
  ∃ x rest, heap.Pop (NextObjects h) = Some (x, NextObjects rest)
            ∧ is_heap rest ∧ h ≡ₚ x :: rest
            ∧ ∀ y, y ∈ h → entry_le x y.
Proof.
  intros Hheap Hne.
  change (heap.Pop (NextObjects h))
    with (h1 ← heap.Interface.Swap (NextObjects h) 0%nat (length h - 1)%nat;
          h2 ← heap.down_loop (length h - 1)%nat h1 0%nat (length h - 1)%nat;
          heap.Interface.Pop h2).
  assert (1 ≤ length h)%nat as Hlen by (destruct h; [done|simpl; lia]).
  set (n := (length h - 1)%nat).
  destruct (lookup_lt_is_Some_2 h 0%nat ltac:(lia)) as [x0 H0].
  destruct (lookup_lt_is_Some_2 h n ltac:(lia)) as [xn Hxn].
  rewrite (Swap_Some h _ _ x0 xn H0 Hxn). cbn [mbind option_bind].
  set (h1 := <[0%nat := xn]> (<[n := x0]> h)).
  assert (∀ k, h1 !! k = if decide (k = 0)%nat then Some xn
                         else if decide (k = n) then Some x0 else h !! k) as Hh1.
  { intros k. by apply swap_lookup. }
  assert (length h1 = length h) as Hlen1.
  { unfold h1. by rewrite !length_insert. }
  destruct (down_loop_spec n h1 0%nat n 0%nat)
    as (h2 & -> & Hheap2 & Hperm2 & Hlen2 & Hout2).
  - lia.
  - lia.
  - intros c a b Hc _ Hp. rewrite !Hh1.
    rewrite (decide_False (P := ((c - 1) / 2)%nat = 0%nat)) by done.
    destruct (decide (((c - 1) / 2)%nat = n)) as [?|_]; [lia|].
    destruct (decide (c = 0)%nat) as [?|_]; [lia|].
    destruct (decide (c = n)) as [?|_]; [lia|].
    apply (Hheap c); lia.
  - intros c a b Hc Hp Hi. lia.
  - cbn [mbind option_bind].
    change (heap.Interface.Pop (NextObjects h2))
      with (x ← h2 !! (length h2 - 1)%nat;
            Some (x, NextObjects (take (length h2 - 1)%nat h2))).
    assert (h2 !! n = Some x0) as Hlast.
    { rewrite (Hout2 n) by done. rewrite Hh1.
      destruct (decide (n = 0)%nat) as [Hn0|_]; [|by rewrite decide_True].
      rewrite Hn0 in Hxn. by simplify_eq. }
    replace (length h2 - 1)%nat with n by lia. rewrite Hlast.
    cbn [mbind option_bind].
    exists x0, (take n h2). split; [done|]. split; [|split].
    + intros c a b Hc Hlo. rewrite length_take_le in Hc by lia.
      rewrite !lookup_take_lt by lia. apply (Hheap2 c); lia.
    + rewrite <- (swap_perm h 0%nat n x0 xn H0 Hxn). fold h1. rewrite <- Hperm2.
      rewrite <- (take_drop n h2) at 1.
      rewrite (drop_S h2 x0 n Hlast), drop_ge by lia.
      by rewrite Permutation_app_comm.
    + intros y [k Hk]%list_elem_of_lookup. by apply (heap_root_least h x0 Hheap H0 k).
Qed.

End HeapFacts.

(** ** The merge *)

Section MergeFacts.
Context {St Ob Env : Type} `{!Object Ob, !ObjectStorage St Ob, !Package St Ob Env}.
Implicit Types (heads rest : list (nextKey Ob)) (chans : list (channel Ob)).
Implicit Types (objs out : list Ob).

Lemma objects_map_Some objs : objects (Channel (map Some objs) true) = objs.
Proof.
  unfold objects. cbn [sent].
  induction objs as [|x objs IH]; [done|]. cbn. by f_equal.
Qed.

Lemma increasing_after_tail p x objs :
  increasing_after (Some p) (x :: objs) → increasing_after (Some p) objs.
Proof.
  destruct objs as [|y objs]; simpl; [done|].
  intros (Hpx & Hxy & Hrest). split; [|done]. by apply key_lt_trans with (Key x).
Qed.

Lemma increasing_after_above p objs :
  increasing_after (Some p) objs → ∀ x, x ∈ objs → key_lt p (Key x).
Proof.
  revert p. induction objs as [|y objs IH]; intros p Hinc x Hx.
  - by apply elem_of_nil in Hx.
  - apply elem_of_cons in Hx as [->|Hx]; [apply Hinc|].
    apply IH; [|done]. by apply increasing_after_tail with y.
Qed.

Lemma pending_app chans1 chans2 : pending (chans1 ++ chans2) = pending chans1 ++ pending chans2.
Proof. unfold pending. by rewrite map_app, concat_app. Qed.

Lemma pending_insert chans i c c' x :
  chans !! i = Some c → objects c = x :: objects c' →
  pending chans ≡ₚ x :: pending (<[i := c']> chans).
Proof.
  revert i. induction chans as [|d chans IH]; intros [|i] Hi Hobj; simplify_eq/=.
  - unfold pending. simpl. by rewrite Hobj.
  - unfold pending in *. simpl. rewrite (IH i Hi Hobj).
    by rewrite Permutation_middle.
Qed.

Lemma sent_total_insert chans i c c' :
  chans !! i = Some c →
  (sum_list (map (λ c, length (sent c)) (<[i := c']> chans)) + length (sent c)
   = sum_list (map (λ c, length (sent c)) chans) + length (sent c'))%nat.
Proof.
  revert i. induction chans as [|d chans IH]; intros [|i] Hi; simplify_eq/=.
  - lia.
  - specialize (IH i Hi). lia.
Qed.

Lemma elem_of_pending chans x :
  x ∈ pending chans → ∃ i c, chans !! i = Some c ∧ x ∈ objects c.
Proof.
  induction chans as [|d chans IH]; unfold pending; simpl.
  - intros H. by apply elem_of_nil in H.
  - intros [H|H]%elem_of_app.
    + by exists 0%nat, d.
    + destruct (IH H) as (i & c & Hi & Hc). by exists (S i), c.
Qed.

(** Everything still to be emitted is at or above a bound that holds for
    the frontier. *)
Lemma merging_bound heads chans lb :
  merging heads chans →
  (∀ n, n ∈ heads → key_le lb (Key (o n))) →
  ∀ x, x ∈ map o heads ++ pending chans → key_le lb (Key x).
Proof.
  intros Hm Hlb x [Hx|Hx]%elem_of_app.
  - apply list_elem_of_fmap in Hx as (n & -> & Hn). by apply Hlb.
  - apply elem_of_pending in Hx as (i & c & Hi & Hxl).
    destruct (merging_cover _ _ Hm i c Hi) as (n & Hn & Hch).
    { intros Hnil. rewrite Hnil in Hxl. by apply elem_of_nil in Hxl. }
    destruct (merging_head _ _ Hm n Hn) as (c' & Hc' & Hinc).
    rewrite Hch, Hi in Hc'. injection Hc' as <-.
    apply key_lt_le. apply key_le_lt_trans with (Key (o n)); [by apply Hlb|].
    by apply (increasing_after_above _ _ Hinc).
Qed.

Lemma merging_perm heads heads' chans :
  heads ≡ₚ heads' → merging heads chans → merging heads' chans.
Proof.
  intros Hp [H1 H2 H3]. split; [done| |].
  - intros n Hn. apply H2. by rewrite Hp.
  - intros i c Hi Hne. destruct (H3 i c Hi Hne) as (n & Hn & Hch).
    exists n. by rewrite <- Hp.
Qed.

(** A shard retires: its entry leaves the frontier and its channel is
    drained. *)
Lemma merging_retire n rest chans c :
  merging (n :: rest) chans → chans !! ch n = Some c → objects c = [] →
  merging rest chans.
Proof.
  intros [H1 H2 H3] Hc Hnil. split; [done| |].
  - intros n' Hn'. apply H2. by right.
  - intros i c' Hi Hne. destruct (H3 i c' Hi Hne) as (n' & Hn' & Hch).
    apply elem_of_cons in Hn' as [->|Hn']; [|by exists n'].
    rewrite Hch, Hi in Hc. by simplify_eq.
Qed.

(** A shard advances: its entry is replaced by the next object of its
    channel. *)
Lemma merging_advance n rest chans c x objs :
  merging (n :: rest) chans → chans !! ch n = Some c → objects c = x :: objs →
  merging (NextKey x (ch n) :: rest) (<[ch n := Channel (map Some objs) true]> chans)
  ∧ key_lt (Key (o n)) (Key x).
Proof.
  intros [H1 H2 H3] Hc Hobj.
  pose proof (lookup_lt_Some _ _ _ Hc) as Hlt.
  destruct (H2 n) as (c0 & Hc0 & Hinc0); [by left|].
  rewrite Hc in Hc0. injection Hc0 as <-. rewrite Hobj in Hinc0.
  split; [|apply Hinc0]. split.
  - intros i c' Hi. destruct (decide (i = ch n)) as [->|Hne].
    + rewrite list_lookup_insert_eq in Hi by done. injection Hi as <-.
      simpl. by rewrite objects_map_Some.
    + rewrite list_lookup_insert_ne in Hi by done. by apply (H1 i).
  - intros n' Hn'. apply elem_of_cons in Hn' as [->|Hn'].
    + simpl. eexists. rewrite list_lookup_insert_eq by done. split; [done|].
      rewrite objects_map_Some. apply Hinc0.
    + destruct (H2 n') as (c' & Hc' & Hinc'); [by right|].
      destruct (decide (ch n' = ch n)) as [Heq|Hne].
      * rewrite Heq in *. eexists. rewrite list_lookup_insert_eq by done.
        split; [done|]. rewrite objects_map_Some.
        rewrite Hc in Hc'. injection Hc' as <-. rewrite Hobj in Hinc'.
        by apply increasing_after_tail with x.
      * exists c'. by rewrite list_lookup_insert_ne.
  - intros i c' Hi Hne. destruct (decide (i = ch n)) as [->|Hin].
    + exists (NextKey x (ch n)). split; [by left|done].
    + rewrite list_lookup_insert_ne in Hi by done.
      destruct (H3 i c' Hi Hne) as (n' & Hn' & Hch).
      exists n'. split; [|done].
      apply elem_of_cons in Hn' as [->|Hn']; [done|by right].
Qed.

End MergeFacts.

Section MergeLoop.
Context {Ob : Type} `{!Object Ob}.
Implicit Types (heads rest : list (nextKey Ob)) (chans : list (channel Ob)).
Implicit Types (objs out : list Ob).

Lemma ListAll_merge_unfold fuel heads chans :
  sharded.ListAll_merge fuel (NextObjects heads) chans =
    if decide (length heads = 0)%nat then Some (Channel [] true)
    else
      match fuel with
      | O => None
      | S f =>
          match heap.Pop (NextObjects heads) with
          | None => None
          | Some (n, heads) =>
              match chans !! ch n with
              | None => None
              | Some c =>
                  match recv c with
                  | None => Some (Channel [Some (o n)] false)
                  | Some (x, c') =>
                      match
                        match x with
                        | Some obj => heap.Push heads (NextKey obj (ch n))
                        | None => Some heads
                        end
                      with
                      | None => None
                      | Some heads =>
                          match sharded.ListAll_merge f heads (<[ch n := c']> chans) with
                          | None => None
                          | Some out =>
                              Some (Channel (Some (o n) :: sent out) (closed out))
                          end
                      end
                  end
              end
          end
      end.
Proof. by destruct fuel. Qed.

Lemma merging_drained chans : merging ([] : list (nextKey Ob)) chans → pending chans = [].
Proof.
  intros Hm. destruct (pending chans) as [|x l] eqn:E; [done|].
  assert (x ∈ pending chans) as Hx by (rewrite E; by left).
  apply elem_of_pending in Hx as (i & c & Hi & Hxc).
  destruct (merging_cover _ _ Hm i c Hi) as (n & Hn & _).
  - intros Hnil. rewrite Hnil in Hxc. by apply elem_of_nil in Hxc.
  - by apply elem_of_nil in Hn.
Qed.

(** The merge loop on a heap of heads of increasing channels: it ends,
    closes its output and has emitted, in ascending order of keys, the
    heads and everything the channels held. *)
Lemma ListAll_merge_spec fuel heads chans :
  is_heap heads → merging heads chans →
  (length heads + sum_list (map (λ c, length (sent c)) chans) ≤ fuel)%nat →
  ∃ out, sharded.ListAll_merge fuel (NextObjects heads) chans
           = Some (Channel (map Some out) true)
         ∧ out ≡ₚ map o heads ++ pending chans
         ∧ StronglySorted object_le out.
Proof.
  revert heads chans. induction fuel as [|fuel IH]; intros heads chans Hheap Hm Hfuel;
    rewrite ListAll_merge_unfold.
  - destruct heads as [|n heads]; [|simpl in Hfuel; lia].
    rewrite decide_True by done. exists []. rewrite (merging_drained chans Hm).
    repeat split; [done|constructor].
  - destruct (decide (length heads = 0)%nat) as [Hnil|Hnonnil].
    { apply nil_length_inv in Hnil as ->. exists [].
      rewrite (merging_drained chans Hm). repeat split; [done|constructor]. }
    destruct (Pop_spec heads Hheap) as (n & rest & -> & Hrest & Hperm & Hleast).
    { by intros ->. }
    pose proof (merging_perm _ _ _ Hperm Hm) as Hm'.
    destruct (merging_head _ _ Hm' n) as (c & Hc & Hinc); [by left|].
    rewrite Hc.
    destruct (merging_chan _ _ Hm _ _ Hc) as [Hclosed Hsent].
    pose proof (Permutation_length Hperm) as Hlen. simpl in Hlen.
    destruct (objects c) as [|x objs] eqn:Hobj.
    + (* the channel is drained: the shard retires *)
      assert (recv c = Some (None, c)) as ->.
      { unfold recv. by rewrite Hsent, Hclosed. }
      rewrite list_insert_id by done.
      destruct (IH rest chans Hrest) as (out & -> & Hout & Hsorted).
      * by apply merging_retire with n c.
      * lia.
      * exists (o n :: out). split; [done|]. split.
        -- rewrite Hperm, Hout. done.
        -- constructor; [done|]. apply Forall_forall. intros y Hy.
           apply (merging_bound rest chans (Key (o n))).
           ++ by apply merging_retire with n c.
           ++ intros n' Hn'. apply Hleast. rewrite Hperm. by right.
           ++ by rewrite <- Hout.
    + (* the next object of the channel enters the frontier *)
      assert (recv c = Some (Some x, Channel (map Some objs) true)) as ->.
      { unfold recv. by rewrite Hsent, Hclosed. }
      destruct (Push_spec rest (NextKey x (ch n)) Hrest)
        as (heads2 & -> & Hheap2 & Hperm2).
      destruct (merging_advance n rest chans c x objs Hm' Hc Hobj) as [Hm2 Hlt].
      apply (merging_perm _ heads2) in Hm2; [|done].
      destruct (IH heads2 (<[ch n := Channel (map Some objs) true]> chans) Hheap2 Hm2)
        as (out & -> & Hout & Hsorted).
      * pose proof (sent_total_insert chans (ch n) c
                      (Channel (map Some objs) true) Hc) as Htot.
        pose proof (Permutation_length Hperm2) as Hlen2.
        rewrite Hsent in Htot. simpl in Htot, Hlen2. lia.
      * exists (o n :: out). split; [done|]. split.
        -- rewrite Hperm, Hout, Hperm2. simpl.
           rewrite (pending_insert chans (ch n) c (Channel (map Some objs) true) x Hc).
           2:{ by rewrite objects_map_Some. }
           by rewrite Permutation_middle.
        -- constructor; [done|]. apply Forall_forall. intros y Hy.
           apply (merging_bound heads2 _ (Key (o n)) Hm2).
           ++ intros n' Hn'. rewrite Hperm2 in Hn'.
              apply elem_of_cons in Hn' as [->|Hn'].
              ** by apply key_lt_le.
              ** apply Hleast. rewrite Hperm. by right.
           ++ by rewrite <- Hout.
Qed.

End MergeLoop.

Section ShardedListing.
Context {St Ob Env : Type} `{!Object Ob, !ObjectStorage St Ob, !Package St Ob Env}.
Implicit Types (heads : list (nextKey Ob)) (chans : list (channel Ob)).
Implicit Types (objs : list Ob) (seqs : list (list Ob)).

Lemma merging_nil : merging ([] : list (nextKey Ob)) ([] : list (channel Ob)).
Proof.
  split.
  - intros i c Hi. by rewrite lookup_nil in Hi.
  - intros n Hn. by apply elem_of_nil in Hn.
  - intros i c Hi. by rewrite lookup_nil in Hi.
Qed.

(** A shard whose listing is empty from the start adds a drained channel
    and no entry. *)
Lemma merging_snoc_empty heads chans :
  merging heads chans → merging heads (chans ++ [Channel [] true]).
Proof.
  intros [H1 H2 H3]. split.
  - intros i c [[_ Hi]|[_ <-]]%lookup_snoc_Some; [by apply (H1 i)|done].
  - intros n Hn. destruct (H2 n Hn) as (c & Hc & Hinc).
    exists c. split; [|done]. by apply lookup_app_l_Some.
  - intros i c [[_ Hi]|[_ <-]]%lookup_snoc_Some; [by apply (H3 i)|done].
Qed.

(** A shard with a first object adds its channel and an entry for it. *)
Lemma merging_snoc_head heads chans x objs :
  merging heads chans → increasing_after (Some (Key x)) objs →
  merging (heads ++ [NextKey x (length chans)])
          (chans ++ [Channel (map Some objs) true]).
Proof.
  intros [H1 H2 H3] Hinc. split.
  - intros i c [[_ Hi]|[_ <-]]%lookup_snoc_Some; [by apply (H1 i)|].
    simpl. by rewrite objects_map_Some.
  - intros n [Hn|Hn]%elem_of_app.
    + destruct (H2 n Hn) as (c & Hc & Hinc').
      exists c. split; [|done]. by apply lookup_app_l_Some.
    + apply list_elem_of_singleton in Hn as ->. simpl.
      eexists. rewrite list_lookup_middle by done. split; [done|].
      by rewrite objects_map_Some.
  - intros i c [[_ Hi]|[-> <-]]%lookup_snoc_Some Hne.
    + destruct (H3 i c Hi Hne) as (n & Hn & Hch).
      exists n. split; [|done]. apply elem_of_app. by left.
    + exists (NextKey x (length chans)). split; [|done].
      apply elem_of_app. right. by left.
Qed.

(** Lines 171-180 on shards that each deliver a closed channel of
    objects with increasing keys. *)
Lemma ListAll_heads_spec fuel prefix marker followLink (ss : list St) seqs heads chans :
  Forall2 (λ store objs,
             returned (ListAll fuel store prefix marker followLink)
               = Ok (Channel (map Some objs) true)
             ∧ increasing_after None objs) ss seqs →
  merging heads chans →
  ∃ heads' chans',
    sharded.ListAll_heads fuel prefix marker followLink ss (NextObjects heads) chans
      = Returns (Ok (NextObjects heads', chans'))
    ∧ merging heads' chans'
    ∧ map o heads' ++ pending chans' ≡ₚ (map o heads ++ pending chans) ++ concat seqs.
Proof.
  intros Hall. revert heads chans.
  induction Hall as [|store objs ss seqs [Hret Hinc] Hall IH]; intros heads chans Hm.
  - exists heads, chans. simpl. by rewrite app_nil_r.
  - simpl. rewrite Hret. destruct objs as [|x objs].
    + change (recv (Channel (map Some []) true))
        with (Some (@None Ob, Channel (@nil (option Ob)) true)).
      cbn iota beta.
      destruct (IH heads (chans ++ [Channel [] true]))
        as (heads' & chans' & -> & Hm' & Hperm).
      { by apply merging_snoc_empty. }
      exists heads', chans'. split; [done|]. split; [done|].
      rewrite Hperm, pending_app. unfold pending at 2. simpl.
      by rewrite !app_nil_r.
    + change (recv (Channel (map Some (x :: objs)) true))
        with (Some (Some x, Channel (map Some objs) true)).
      cbn iota beta.
      change (nextObjects.Push (NextObjects heads) (NextKey x (length chans)))
        with (NextObjects (heads ++ [NextKey x (length chans)])).
      destruct (IH (heads ++ [NextKey x (length chans)])
                   (chans ++ [Channel (map Some objs) true]))
        as (heads' & chans' & -> & Hm' & Hperm).
      { apply merging_snoc_head; [done|]. apply Hinc. }
      exists heads', chans'. split; [done|]. split; [done|].
      rewrite Hperm, pending_app, map_app. unfold pending at 2. simpl.
      rewrite objects_map_Some, app_nil_r.
      rewrite <- !app_assoc. f_equiv. simpl.
      rewrite (app_assoc (pending chans)). rewrite <- Permutation_middle.
      by rewrite <- app_assoc.
Qed.

(** C1: when the listing of every shard delivers a terminated sequence of
    objects with strictly increasing keys, the merged listing returns a
    channel that carries, and is closed after, exactly the objects of all
    the shard sequences, in ascending order of keys; a shard whose sequence
    is empty adds nothing and does not keep the merge from ending. *)
Theorem C1_merge_is_sorted_union
    fuel (s : sharded St) prefix marker followLink seqs :
  Forall2 (λ store objs,
             returned (ListAll fuel store prefix marker followLink)
               = Ok (Channel (map Some objs) true)
             ∧ increasing_after None objs) (stores s) seqs →
  ∃ merged,
    sharded.ListAll fuel s prefix marker followLink
      = Returns (Ok (Channel (map Some merged) true))
    ∧ merged ≡ₚ concat seqs
    ∧ StronglySorted object_le merged.
Proof.
  intros Hall. unfold sharded.ListAll.
  destruct (ListAll_heads_spec fuel prefix marker followLink (stores s) seqs [] []
              Hall merging_nil) as (heads & chans & -> & Hm & Hperm).
  destruct (Init_spec heads) as (heads' & -> & Hheap & Hperm').
  destruct (ListAll_merge_spec (sharded.merge_fuel (NextObjects heads') chans)
              heads' chans Hheap) as (merged & -> & Hmerged & Hsorted).
  - by apply (merging_perm heads).
  - unfold sharded.merge_fuel, nextObjects.Len. simpl. lia.
  - exists merged. split; [done|]. split; [|done].
    rewrite Hmerged, Hperm', Hperm. done.
Qed.

End ShardedListing.

(** Witness of C1: the shards [k1 k4 k7], none, [k2 k5] and [k3 k6 k8]. *)
Lemma C1_witness :
  ∃ merged,
    sharded.ListAll 5
      (mkSharded ([[Ok [ob "k1"; ob "k4"; ob "k7"]]; [];
                   [Ok [ob "k2"; ob "k5"]];
                   [Ok [ob "k3"; ob "k6"; ob "k8"]]] : list scripted) [])
      "" "" false
      = Returns (Ok (Channel (map Some merged) true))
    ∧ merged ≡ₚ concat [[ob "k1"; ob "k4"; ob "k7"]; [];
                        [ob "k2"; ob "k5"]; [ob "k3"; ob "k6"; ob "k8"]]
    ∧ StronglySorted object_le merged.
Proof.
  apply (C1_merge_is_sorted_union 5
           (mkSharded ([[Ok [ob "k1"; ob "k4"; ob "k7"]]; [];
                        [Ok [ob "k2"; ob "k5"]];
                        [Ok [ob "k3"; ob "k6"; ob "k8"]]] : list scripted) [])
           "" "" false).
  repeat constructor.
Defined.

(** The merge of the specification's example, evaluated. *)
Example merge_k1_k8 :
  sharded.ListAll 5
    (mkSharded ([[Ok [ob "k1"; ob "k4"; ob "k7"]]; [];
                 [Ok [ob "k2"; ob "k5"]];
                 [Ok [ob "k3"; ob "k6"; ob "k8"]]] : list scripted) [])
    "" "" false
  = Returns (Ok (Channel (map Some [ob "k1"; ob "k2"; ob "k3"; ob "k4";
                                    ob "k5"; ob "k6"; ob "k7"; ob "k8"]) true)).
Proof. vm_compute. reflexivity. Qed.

(** The merge loop never puts [nil] on its output: a [nil] received from a
    shard only retires that shard. *)
Lemma ListAll_merge_no_nil {Ob} `{!Object Ob} fuel (heads : nextObjects Ob) chans out :
  sharded.ListAll_merge fuel heads chans = Some out → None ∉ sent out.
Proof.
  revert heads chans out. induction fuel as [|fuel IH]; intros [heads] chans out;
    rewrite ListAll_merge_unfold.
  - destruct (decide _) as [_|_]; [|done]. intros [= <-]. simpl. apply not_elem_of_nil.
  - destruct (decide _) as [_|_]; [intros [= <-]; simpl; apply not_elem_of_nil|].
    destruct (heap.Pop _) as [[n heads1]|]; [|done].
    destruct (chans !! ch n) as [c|]; [|done].
    destruct (recv c) as [[x c']|].
    2:{ intros [= <-]. simpl. intros [?|?%elem_of_nil]%elem_of_cons; done. }
    destruct (match x with Some obj => _ | None => _ end) as [heads2|]; [|done].
    destruct (sharded.ListAll_merge fuel heads2 _) as [out'|] eqn:Hout; [|done].
    intros [= <-]. simpl. intros [?|Hin]%elem_of_cons; [done|].
    by apply (IH _ _ _ Hout).
Qed.

Lemma sharded_ListAll_no_nil {St Ob Env : Type}
    `{!Object Ob, !ObjectStorage St Ob, !Package St Ob Env}
    fuel (s : sharded St) prefix marker followLink out :
  sharded.ListAll fuel s prefix marker followLink = Returns (Ok out) →
  None ∉ sent out.
Proof.
  unfold sharded.ListAll.
  destruct (sharded.ListAll_heads _ _ _ _ _ _ _) as [[[heads chans]|err]| |]; try done.
  destruct (heap.Init heads) as [heads'|]; [|done].
  destruct (sharded.ListAll_merge _ heads' chans) as [out'|] eqn:Hmerge; [|done].
  intros [= <-]. by apply (ListAll_merge_no_nil _ _ _ _ Hmerge).
Qed.

(** C3 on the code: the listing of a shard whose page is [b, a] ends with
    [nil] after [b], and the merged listing of that shard and a shard
    holding [c] is the closed channel [b, c], without any error value. *)
Theorem C3_ordering_error_is_dropped_by_the_merge :
  returned (ListAll 5 ([Ok [ob "b"; ob "a"]] : scripted) "" "" false)
    = Ok (Channel [Some (ob "b"); None] true)
  ∧ sharded.ListAll 5
      (mkSharded ([[Ok [ob "b"; ob "a"]]; [Ok [ob "c"]]] : list scripted) [])
      "" "" false
    = Returns (Ok (Channel [Some (ob "b"); Some (ob "c")] true)).
Proof. split; vm_compute; reflexivity. Qed.

(** ** The merge never panics *)

Section MergeTotal.
Context {St Ob Env : Type} `{!Object Ob, !ObjectStorage St Ob, !Package St Ob Env}.
Implicit Types (heads rest : list (nextKey Ob)) (chans : list (channel Ob)).

Lemma recv_sent (c c' : channel Ob) x :
  recv c = Some (x, c') →
  (length (sent c') ≤ length (sent c))%nat
  ∧ (is_Some x → length (sent c) = S (length (sent c'))).
Proof.
  unfold recv. destruct c as [[|y s] cl]; simpl.
  - destruct cl; [|done]. intros [= <- <-]. split; [done|]. by intros [? ?].
  - intros [= <- <-]. simpl. split; [lia|done].
Qed.

(** With any channels at all, the merge loop on a heap whose entries refer
    to existing channels ends within [merge_fuel] turns or stops at a
    receive that blocks; it does not index out of range. *)
Lemma ListAll_merge_total fuel heads chans :
  is_heap heads →
  (∀ n, n ∈ heads → (ch n < length chans)%nat) →
  (length heads + sum_list (map (λ c, length (sent c)) chans) ≤ fuel)%nat →
  is_Some (sharded.ListAll_merge fuel (NextObjects heads) chans).
Proof.
  revert heads chans. induction fuel as [|fuel IH]; intros heads chans Hheap Hch Hfuel;
    rewrite ListAll_merge_unfold.
  - destruct heads as [|n heads]; [|simpl in Hfuel; lia]. by rewrite decide_True.
  - destruct (decide (length heads = 0)%nat) as [_|Hnonnil]; [done|].
    destruct (Pop_spec heads Hheap) as (n & rest & -> & Hrest & Hperm & _).
    { by intros ->. }
    pose proof (Permutation_length Hperm) as Hlen. simpl in Hlen.
    assert (ch n < length chans)%nat as Hn by (apply Hch; rewrite Hperm; by left).
    destruct (lookup_lt_is_Some_2 chans (ch n) Hn) as [c Hc]. rewrite Hc.
    destruct (recv c) as [[x c']|] eqn:Hrecv; [|done].
    destruct (recv_sent c c' x Hrecv) as [Hle Hlt].
    pose proof (sent_total_insert chans (ch n) c c' Hc) as Htot.
    assert (∀ n', n' ∈ rest → (ch n' < length (<[ch n := c']> chans))%nat) as Hch'.
    { intros n' Hn'. rewrite length_insert. apply Hch. rewrite Hperm. by right. }
    destruct x as [obj|].
    + destruct (Push_spec rest (NextKey obj (ch n)) Hrest)
        as (heads2 & -> & Hheap2 & Hperm2).
      pose proof (Permutation_length Hperm2) as Hlen2. simpl in Hlen2.
      destruct (IH heads2 (<[ch n := c']> chans) Hheap2) as [out ->]; [| |done].
      * intros n' Hn'. rewrite Hperm2 in Hn'.
        apply elem_of_cons in Hn' as [->|Hn']; [|by apply Hch'].
        simpl. by rewrite length_insert.
      * specialize (Hlt ltac:(done)). lia.
    + destruct (IH rest (<[ch n := c']> chans) Hrest Hch') as [out ->]; [|done].
      lia.
Qed.

Lemma ListAll_heads_channels fuel prefix marker followLink (ss : list St)
    heads chans heads' chans' :
  (∀ n, n ∈ heads → (ch n < length chans)%nat) →
  sharded.ListAll_heads fuel prefix marker followLink ss (NextObjects heads) chans
    = Returns (Ok (NextObjects heads', chans')) →
  ∀ n, n ∈ heads' → (ch n < length chans')%nat.
Proof.
  revert heads chans. induction ss as [|store ss IH]; intros heads chans Hch; simpl.
  - by intros [= <- <-].
  - destruct (returned _) as [c|err]; [|done].
    destruct (recv c) as [[first c']|]; [|done].
    destruct first as [obj|].
    + change (nextObjects.Push (NextObjects heads) (NextKey obj (length chans)))
        with (NextObjects (heads ++ [NextKey obj (length chans)])).
      apply IH. intros n [Hn|Hn]%elem_of_app; rewrite length_app; simpl.
      * specialize (Hch n Hn). lia.
      * apply list_elem_of_singleton in Hn as ->. simpl. lia.
    + apply IH. intros n Hn. rewrite length_app. simpl. specialize (Hch n Hn). lia.
Qed.

(** [sharded.ListAll] does not panic, whatever the shards deliver. *)
Lemma sharded_ListAll_no_panic fuel (s : sharded St) prefix marker followLink :
  sharded.ListAll fuel s prefix marker followLink ≠ Panics.
Proof.
  unfold sharded.ListAll.
  destruct (sharded.ListAll_heads _ _ _ _ _ _ _) as [[[[heads] chans]|err]| |] eqn:Hheads;
    [|done|done|].
  - destruct (Init_spec heads) as (heads' & -> & Hheap & Hperm).
    destruct (ListAll_merge_total (sharded.merge_fuel (NextObjects heads') chans)
                heads' chans Hheap) as [out ->]; [| |done].
    + intros n Hn. rewrite Hperm in Hn. revert n Hn.
      apply (ListAll_heads_channels fuel prefix marker followLink (stores s)
               [] [] heads chans); [|done].
      intros n Hn. by apply elem_of_nil in Hn.
    + unfold sharded.merge_fuel, nextObjects.Len. simpl. lia.
  - exfalso. revert Hheads. generalize (@NextObjects Ob []) ([] : list (channel Ob)).
    induction (stores s) as [|store ss IH]; intros heads chans; simpl; [done|].
    destruct (returned _) as [c|err]; [|done].
    destruct (recv c) as [[first c']|]; [|done]. apply IH.
Qed.

End MergeTotal.

(** ** The constructor *)

Section ConstructorFacts.
Context {St Ob Env : Type} `{!Package St Ob Env, !Formatter}.

(** A loop that ends well has called [CreateStorage] once for each of
    the remaining indices, in order, on the endpoint formatted with that
    index, and has added the stores it got. *)
Lemma NewSharded_loop_Ok k i name endpoint ak sk token (env env' : Env)
    (made made' : list St) created created' :
  NewSharded_loop k i name endpoint ak sk token env made created
    = (Ok made', env', created') →
  ∃ new,
    made' = made ++ new
    ∧ created' = created ++ map (λ j, Sprintf endpoint (i + Z.of_nat j)) (seq 0 k)
    ∧ length new = k
    ∧ creates name ak sk token env
        (map (λ j, Sprintf endpoint (i + Z.of_nat j)) (seq 0 k)) new env'.
Proof.
  revert i env made created.
  induction k as [|k IH]; intros i env made created; simpl.
  - intros [= <- <- <-]. exists []. by rewrite !app_nil_r.
  - destruct (strings.HasSuffix _ _); [done|].
    destruct (CreateStorage _ _ _ _ _ _) as [[st|err] env1] eqn:Hcreate; [|done].
    intros Hloop. destruct (IH _ _ _ _ Hloop) as (new & -> & -> & Hlen & Hcreates).
    exists (st :: new). rewrite Z.add_0_r.
    assert (map (λ j, Sprintf endpoint (i + Z.of_nat j)) (seq 1 k)
            = map (λ j, Sprintf endpoint (i + 1 + Z.of_nat j)) (seq 0 k)) as ->.
    { rewrite <- (fmap_S_seq 0 k). rewrite <- list_fmap_compose.
      apply list_fmap_ext. intros _ j _. simpl. f_equal. lia. }
    split_and!.
    + by rewrite <- app_assoc.
    + by rewrite <- app_assoc.
    + simpl. by rewrite Hlen.
    + exists env1. done.
Qed.

(** C7 (amended): for a shard count of at least one and an endpoint
    template whose formatting with index 0 leaves the index unused, so that
    the formatted text ends in [%!(EXTRA int=0)], [NewSharded] returns an
    error and has called [CreateStorage] for no shard; and whenever
    [NewSharded] succeeds it has called [CreateStorage] exactly once per
    index of [0 .. shards-1], in order, on the template formatted with that
    index, and holds the stores so made. *)
Theorem C7_template_without_index_is_rejected
    name endpoint ak sk token shards (env : Env)
    endpoint' shards' (env0 env' : Env) (s : sharded St) created :
  1 ≤ shards →
  strings.HasSuffix (Sprintf endpoint 0) "%!(EXTRA int=0)" = true →
  NewSharded name endpoint' ak sk token shards' env0 = Some (Ok s, env', created) →
  NewSharded name endpoint ak sk token shards env
    = Some (Err (errorString
                   ("can not generate different endpoint using " +:+ endpoint)),
            env, [])
  ∧ created = map (λ j, Sprintf endpoint' (Z.of_nat j)) (seq 0 (Z.to_nat shards'))
  ∧ length (stores s) = Z.to_nat shards'
  ∧ creates name ak sk token env0 created (stores s) env'.
Proof.
  intros Hshards Hsuffix Hok. split.
  - unfold NewSharded. destruct (Z.ltb_spec shards 0) as [?|_]; [lia|].
    destruct (Z.to_nat shards) as [|k] eqn:Hk; [lia|].
    simpl. by rewrite Hsuffix.
  - unfold NewSharded in Hok. destruct (shards' <? 0); [done|].
    destruct (NewSharded_loop _ _ _ _ _ _ _ _ _ _) as [[[made|err] env1] created1]
      eqn:Hloop; [|done].
    injection Hok as <- <- <-.
    destruct (NewSharded_loop_Ok _ _ _ _ _ _ _ _ _ _ _ _ _ Hloop)
      as (new & -> & -> & Hlen & Hcreates).
    simpl in *. done.
Qed.

End ConstructorFacts.

(** The claim C7 as stated fails on the template [host%[2]d]: with a single
    operand the index [2] is out of range, every shard index is formatted
    to the same text, which does not end in the marker of an unused operand,
    and three stores are created on that one endpoint. *)
Lemma C7_constant_template_is_accepted :
  fmt.Sprintf1 "host%[2]d" 0 = Some "host%!d(BADINDEX)"
  ∧ fmt.Sprintf1 "host%[2]d" 1 = Some "host%!d(BADINDEX)"
  ∧ fmt.Sprintf1 "host%[2]d" 2 = Some "host%!d(BADINDEX)"
  ∧ @NewSharded scripted object nat _ modelled_Sprintf
      "kind" "host%[2]d" "ak" "sk" "" 3 0%nat
    = Some (Ok (mkSharded [[]; []; []] []), 3%nat,
            ["host%!d(BADINDEX)"; "host%!d(BADINDEX)"; "host%!d(BADINDEX)"]).
Proof. repeat split. Qed.

(** Witness of C7 (amended): the template [host] is rejected, the template
    [host%d] gives the endpoints [host0], [host1] and [host2]. *)
Lemma C7_witness :
  @NewSharded scripted object nat _ modelled_Sprintf "kind" "host" "ak" "sk" "" 3 0%nat
    = Some (Err (errorString "can not generate different endpoint using host"),
            0%nat, [])
  ∧ ["host0"; "host1"; "host2"]
    = map (λ j, modelled_Sprintf "host%d" (Z.of_nat j)) (seq 0 (Z.to_nat 3))
  ∧ length (stores (mkSharded ([[]; []; []] : list scripted) [])) = Z.to_nat 3
  ∧ creates (Ob := object) "kind" "ak" "sk" "" 0%nat ["host0"; "host1"; "host2"]
      (stores (mkSharded ([[]; []; []] : list scripted) [])) 3%nat.
Proof.
  apply (@C7_template_without_index_is_rejected scripted object nat _ modelled_Sprintf
           "kind" "host" "ak" "sk" "" 3 0%nat "host%d" 3 0%nat 3%nat
           (mkSharded ([[]; []; []] : list scripted) []) ["host0"; "host1"; "host2"]).
  - lia.
  - reflexivity.
  - reflexivity.
Defined.

(** * Further properties of the code *)

(** * Further properties *)

(** ** The frontier as a heap *)

Section HeapProperties.
Context {Ob : Type} `{!Object Ob}.
Implicit Types (h : list (nextKey Ob)).

(** X1: [heap.Init] on a frontier in any order does not index out of range
    and leaves a min-heap of the same entries. *)
Theorem heap_Init_orders_any_frontier h :
  ∃ h', heap.Init (NextObjects h) = Some (NextObjects h')
        ∧ is_heap h' ∧ h' ≡ₚ h.
Proof. apply Init_spec. Qed.

(** X2: [heap.Push] on a min-heap does not index out of range, keeps the
    min-heap and adds exactly the pushed entry. *)
Theorem heap_Push_keeps_the_heap h x :
  is_heap h →
  ∃ h', heap.Push (NextObjects h) x = Some (NextObjects h')
        ∧ is_heap h' ∧ h' ≡ₚ x :: h.
Proof. apply Push_spec. Qed.

(** X3: [heap.Pop] on a min-heap that is not empty returns an entry whose
    key no entry of the heap is below, and leaves a min-heap of the other
    entries; on an empty frontier it panics. *)
Theorem heap_Pop_takes_a_least_entry h :
  is_heap h → h ≠ [] →
  heap.Pop (NextObjects ([] : list (nextKey Ob))) = None
  ∧ ∃ x rest, heap.Pop (NextObjects h) = Some (x, NextObjects rest)
              ∧ is_heap rest ∧ h ≡ₚ x :: rest
              ∧ Forall (λ y, key_le (Key (o x)) (Key (o y))) h.
Proof.
  intros Hheap Hne. split; [done|].
  destruct (Pop_spec h Hheap Hne) as (x & rest & Hpop & Hrest & Hperm & Hleast).
  exists x, rest. split_and!; [done|done|done|].
  apply Forall_forall. intros y Hy. by apply Hleast.
Qed.

End HeapProperties.

Lemma heap_Push_witness :
  ∃ h', heap.Push (NextObjects [NextKey (ob "b") 0%nat; NextKey (ob "c") 1%nat])
                  (NextKey (ob "a") 2%nat) = Some (NextObjects h')
        ∧ is_heap h'
        ∧ h' ≡ₚ NextKey (ob "a") 2%nat
                :: [NextKey (ob "b") 0%nat; NextKey (ob "c") 1%nat].
Proof.
  apply (heap_Push_keeps_the_heap
           [NextKey (ob "b") 0%nat; NextKey (ob "c") 1%nat] (NextKey (ob "a") 2%nat)).
  intros c a b Hc _ Ha Hb.
  assert (c = 1%nat) as -> by (simpl in Hc; lia).
  simpl in Ha, Hb. injection Ha as <-. injection Hb as <-. reflexivity.
Defined.

Lemma heap_Pop_witness :
  heap.Pop (NextObjects ([] : list (nextKey object))) = None
  ∧ ∃ x rest,
      heap.Pop (NextObjects [NextKey (ob "a") 2%nat; NextKey (ob "c") 1%nat])
        = Some (x, NextObjects rest)
      ∧ is_heap rest
      ∧ [NextKey (ob "a") 2%nat; NextKey (ob "c") 1%nat] ≡ₚ x :: rest
      ∧ Forall (λ y, key_le (Key (o x)) (Key (o y)))
               [NextKey (ob "a") 2%nat; NextKey (ob "c") 1%nat].
Proof.
  apply (heap_Pop_takes_a_least_entry
           [NextKey (ob "a") 2%nat; NextKey (ob "c") 1%nat]).
  - intros c a b Hc _ Ha Hb.
    assert (c = 1%nat) as -> by (simpl in Hc; lia).
    simpl in Ha, Hb. injection Ha as <-. injection Hb as <-. reflexivity.
  - discriminate.
Defined.

(** ** Routing *)

Lemma pick_length {St St'} (s : sharded St) (s' : sharded St') key :
  length (stores s) = length (stores s') →
  (sharded.pick s key = None ↔ sharded.pick s' key = None)
  ∧ ∀ i, sharded.pick s key = Some i ↔ sharded.pick s' key = Some i.
Proof.
  intros Hlen. unfold sharded.pick. rewrite <- Hlen.
  destruct (_ =? 0); [done|].
  set (i := Z.to_nat _).
  destruct (stores s !! i) as [x|] eqn:Hx.
  - destruct (lookup_lt_is_Some_2 (stores s') i) as [y ->]; [|done].
    rewrite <- Hlen. by apply lookup_lt_Some in Hx.
  - rewrite (lookup_ge_None_2 (stores s') i); [done|].
    rewrite <- Hlen. by apply lookup_ge_None in Hx.
Qed.

Lemma pick_same_length {St} (s s' : sharded St) key :
  length (stores s) = length (stores s') → sharded.pick s' key = sharded.pick s key.
Proof.
  intros Hlen. destruct (pick_length s s' key Hlen) as [Hnone Hsome].
  destruct (sharded.pick s key) as [i|] eqn:Hp.
  - by apply Hsome.
  - by apply Hnone.
Qed.

(** X4: [pick] panics, by a division by zero, exactly when the shard count
    is a multiple of [2^32], the empty shard set included; otherwise it
    returns an index inside the shard set, the FNV-1a hash of the key modulo
    the shard count converted to [uint32]. *)
Theorem pick_panics_only_without_shards {St} (s : sharded St) (key : string) :
  (sharded.pick s key = None ↔ Z.of_nat (length (stores s)) mod 2 ^ 32 = 0)
  ∧ (sharded.pick s key = None
     ∨ ∃ i, sharded.pick s key = Some i
            ∧ (i < length (stores s))%nat
            ∧ Z.of_nat i
              = fnv1a_32 (bytes key) mod (Z.of_nat (length (stores s)) mod 2 ^ 32)).
Proof.
  unfold sharded.pick, fnv.Sum32, fnv.New32a, fnv.uint32, fnv.offset32.
  rewrite fnv_Write_fold. fold (fnv1a_32 (bytes key)).
  set (n := Z.of_nat (length (stores s)) mod 2 ^ 32).
  assert (0 ≤ n ≤ Z.of_nat (length (stores s))) as Hn.
  { subst n. split; [apply Z.mod_pos_bound; lia|]. apply Z.mod_le; lia. }
  destruct (Z.eqb_spec n 0) as [Hz|Hnz]; [split; [done|by left]|].
  pose proof (Z.mod_pos_bound (fnv1a_32 (bytes key)) n ltac:(lia)) as Hi.
  destruct (lookup_lt_is_Some_2 (stores s) (Z.to_nat (fnv1a_32 (bytes key) mod n))
              ltac:(lia)) as [x ->].
  simpl. split; [split; [done|lia]|].
  right. eexists. split; [done|]. lia.
Qed.

(** ** Single-key operations *)

Section FacadeProperties.
Context {St Ob Env : Type} `{!Object Ob, !ObjectStorage St Ob, !Package St Ob Env}.

Lemma forward_spec {A} name (m : St → A * St) (s s' : sharded St) key r :
  sharded.forward name m s key = Some (r, s') →
  ∃ i st, sharded.pick s key = Some i
          ∧ stores s !! i = Some st
          ∧ r = (m st).1
          ∧ stores s' = <[i := (m st).2]> (stores s)
          ∧ journal s' = journal s ++ [(i, name)].
Proof.
  unfold sharded.forward. intros H.
  destruct (sharded.pick s key) as [i|]; [|done]. simpl in H.
  destruct (stores s !! i) as [st|] eqn:Hst; [|done]. simpl in H.
  destruct (m st) as [r' st'] eqn:Hm. injection H as <- <-.
  exists i, st. by rewrite Hm.
Qed.

Lemma forward_total {A} name (m : St → A * St) (s : sharded St) key i :
  sharded.pick s key = Some i → is_Some (sharded.forward name m s key).
Proof.
  intros Hp. unfold sharded.forward. rewrite Hp. simpl.
  unfold sharded.pick in Hp. destruct (_ =? 0); [done|].
  destruct (stores s !! _) as [st|] eqn:Hst; [|done].
  simpl in Hp. injection Hp as <-. rewrite Hst. simpl.
  by destruct (m st).
Qed.

(** X5: [Put] reaches the one shard that [pick] gives for the key: it
    returns what that shard's [Put] returns, leaves that shard in the state
    its [Put] produced and every other shard as it was, calls no other
    method, and leaves the routing of every key unchanged. *)
Theorem Put_touches_only_the_picked_shard (s s' : sharded St) key body r :
  sharded.Put s key body = Some (r, s') →
  ∃ i st,
    sharded.pick s key = Some i
    ∧ stores s !! i = Some st
    ∧ r = (store_Put key body st).1
    ∧ stores s' !! i = Some (store_Put key body st).2
    ∧ (∀ j, j = i ∨ stores s' !! j = stores s !! j)
    ∧ journal s' = journal s ++ [(i, "Put")]
    ∧ ∀ key', sharded.pick s' key' = sharded.pick s key'.
Proof.
  intros H. apply forward_spec in H as (i & st & Hp & Hst & -> & Hs' & Hj).
  exists i, st. split_and!; try done.
  - rewrite Hs'. apply list_lookup_insert_eq. by apply lookup_lt_Some in Hst.
  - intros j. destruct (decide (j = i)) as [->|Hne]; [by left|right].
    rewrite Hs'. by apply list_lookup_insert_ne.
  - intros key'. apply pick_same_length. rewrite Hs'. by rewrite length_insert.
Qed.

(** X6: a [Get] that follows a [Put] of the same key is answered by the
    shard that took the [Put], in the state the [Put] left it in, and does
    not panic once the [Put] did not. *)
Theorem Get_after_Put_reads_the_written_shard
    (s s' : sharded St) key body r off limit :
  sharded.Put s key body = Some (r, s') →
  ∃ i st s'',
    stores s !! i = Some st
    ∧ sharded.Get s' key off limit
      = Some ((store_Get key off limit (store_Put key body st).2).1, s'')
    ∧ journal s'' = journal s ++ [(i, "Put"); (i, "Get")].
Proof.
  intros H. apply forward_spec in H as (i & st & Hp & Hst & -> & Hs' & Hj).
  assert (sharded.pick s' key = Some i) as Hp'.
  { rewrite <- Hp. apply pick_same_length. rewrite Hs'. by rewrite length_insert. }
  destruct (forward_total "Get" (store_Get key off limit) s' key i Hp')
    as [[r2 s''] Hget].
  pose proof Hget as Hget'.
  apply forward_spec in Hget' as (i2 & st2 & Hp2 & Hst2 & -> & _ & Hj2).
  rewrite Hp' in Hp2. injection Hp2 as <-.
  rewrite Hs', list_lookup_insert_eq in Hst2 by (by apply lookup_lt_Some in Hst).
  injection Hst2 as <-.
  exists i, st, s''. split; [done|]. split; [exact Hget|].
  rewrite Hj2, Hj. by rewrite <- app_assoc.
Qed.

End FacadeProperties.

Lemma Put_witness :
  ∃ i st,
    sharded.pick (mkSharded [Disk true false None; Disk true false None] []) "a" = Some i
    ∧ [Disk true false None; Disk true false None] !! i = Some st
    ∧ None = (store_Put "a" "x" st).1
    ∧ stores (mkSharded [Disk true true None; Disk true false None] [(0%nat, "Put")]) !! i
      = Some (store_Put "a" "x" st).2
    ∧ (∀ j, j = i
            ∨ stores (mkSharded [Disk true true None; Disk true false None]
                                [(0%nat, "Put")]) !! j
              = [Disk true false None; Disk true false None] !! j)
    ∧ [(0%nat, "Put")] = [] ++ [(i, "Put")]
    ∧ ∀ key', sharded.pick (mkSharded [Disk true true None; Disk true false None]
                                      [(0%nat, "Put")]) key'
              = sharded.pick (mkSharded [Disk true false None; Disk true false None] [])
                             key'.
Proof.
  apply (Put_touches_only_the_picked_shard (Ob := object)
           (mkSharded [Disk true false None; Disk true false None] [])
           (mkSharded [Disk true true None; Disk true false None] [(0%nat, "Put")])
           "a" "x" None).
  reflexivity.
Defined.

Lemma Get_after_Put_witness :
  ∃ i st s'',
    [Disk true false None; Disk true false None] !! i = Some st
    ∧ sharded.Get (mkSharded [Disk true true None; Disk true false None]
                             [(0%nat, "Put")]) "a" 0 10
      = Some ((store_Get "a" 0 10 (store_Put "a" "x" st).2).1, s'')
    ∧ journal s'' = [] ++ [(i, "Put"); (i, "Get")].
Proof.
  apply (Get_after_Put_reads_the_written_shard (Ob := object)
           (mkSharded [Disk true false None; Disk true false None] [])
           (mkSharded [Disk true true None; Disk true false None] [(0%nat, "Put")])
           "a" "x" None 0 10).
  reflexivity.
Defined.

(** ** Multipart uploads *)

Section MultipartProperties.
Context {St MU Pt : Type} `{!ObjectStorageMore St MU Pt}.

(** X7: the steps of a multipart upload of one key all reach the same
    shard: after [CreateMultipartUpload] returned, [UploadPart] and
    [CompleteUpload] for that key do not panic and are served by the shard
    that created the upload, each in the state the step before left, while
    the other shards stay as they were. *)
Theorem multipart_upload_stays_on_one_shard
    (s s1 : sharded St) key r1 uploadID num body parts :
  sharded.CreateMultipartUpload s key = Some (r1, s1) →
  ∃ i st r2 s2 r3 s3,
    stores s !! i = Some st
    ∧ sharded.UploadPart s1 key uploadID num body = Some (r2, s2)
    ∧ sharded.CompleteUpload s2 key uploadID parts = Some (r3, s3)
    ∧ stores s3 !! i
      = Some (store_CompleteUpload key uploadID parts
                (store_UploadPart key uploadID num body
                   (store_CreateMultipartUpload key st).2).2).2
    ∧ (∀ j, j = i ∨ stores s3 !! j = stores s !! j)
    ∧ journal s3
      = journal s ++ [(i, "CreateMultipartUpload"); (i, "UploadPart");
                      (i, "CompleteUpload")].
Proof.
  intros H. apply forward_spec in H as (i & st & Hp & Hst & _ & Hs1 & Hj1).
  pose proof (lookup_lt_Some _ _ _ Hst) as Hi.
  assert (sharded.pick s1 key = Some i) as Hp1.
  { rewrite <- Hp. apply pick_same_length. rewrite Hs1. by rewrite length_insert. }
  destruct (forward_total "UploadPart" (store_UploadPart key uploadID num body)
              s1 key i Hp1) as [[r2 s2] H2].
  pose proof H2 as H2'.
  apply forward_spec in H2' as (i2 & st2 & Hp2 & Hst2 & _ & Hs2 & Hj2).
  rewrite Hp1 in Hp2. injection Hp2 as <-.
  rewrite Hs1, list_lookup_insert_eq in Hst2 by done. injection Hst2 as <-.
  assert (sharded.pick s2 key = Some i) as Hp2.
  { rewrite <- Hp1. apply pick_same_length. rewrite Hs2. by rewrite length_insert. }
  destruct (forward_total "CompleteUpload" (store_CompleteUpload key uploadID parts)
              s2 key i Hp2) as [[r3 s3] H3].
  pose proof H3 as H3'.
  apply forward_spec in H3' as (i3 & st3 & Hp3 & Hst3 & _ & Hs3 & Hj3).
  rewrite Hp2 in Hp3. injection Hp3 as <-.
  rewrite Hs2, list_lookup_insert_eq in Hst3 by (by rewrite Hs1, length_insert).
  injection Hst3 as <-.
  exists i, st, r2, s2, r3, s3. split_and!; try done.
  - rewrite Hs3. apply list_lookup_insert_eq.
    by rewrite Hs2, Hs1, !length_insert.
  - intros j. destruct (decide (j = i)) as [->|Hne]; [by left|right].
    rewrite Hs3, Hs2, Hs1. by rewrite !list_lookup_insert_ne.
  - rewrite Hj3, Hj2, Hj1. by rewrite <- !app_assoc.
Qed.

(** ** Create and SetStorageClass *)

Lemma Create_loop_all i (ss : list St) journal :
  Forall (λ o, (store_Create o).1 = None) ss →
  sharded.Create_loop i ss journal
    = (None, map (λ o, (store_Create o).2) ss,
       journal ++ map (λ k, (k, "Create")) (seq i (length ss))).
Proof.
  intros Hall. revert i journal.
  induction Hall as [|o ss Ho Hall IH]; intros i journal; simpl.
  - by rewrite app_nil_r.
  - destruct (store_Create o) as [[err|] o']; [done|]. simpl.
    rewrite IH. by rewrite <- app_assoc.
Qed.

Lemma Create_loop_first_error i (pre : list St) o post journal err :
  Forall (λ o, (store_Create o).1 = None) pre →
  (store_Create o).1 = Some err →
  sharded.Create_loop i (pre ++ o :: post) journal
    = (Some err, map (λ o, (store_Create o).2) pre ++ (store_Create o).2 :: post,
       journal ++ map (λ k, (k, "Create")) (seq i (S (length pre)))).
Proof.
  intros Hall Ho. revert i journal.
  induction Hall as [|p pre Hp Hall IH]; intros i journal; simpl.
  - destruct (store_Create o) as [[e|] o']; by simplify_eq/=.
  - destruct (store_Create p) as [[e|] p']; [done|]. simpl.
    rewrite IH. by rewrite <- app_assoc.
Qed.

Lemma Create_loop_None i (ss ss' : list St) journal journal' :
  sharded.Create_loop i ss journal = (None, ss', journal') →
  Forall (λ o, (store_Create o).1 = None) ss.
Proof.
  revert i ss' journal journal'.
  induction ss as [|o ss IH]; intros i ss' journal journal'; simpl; [done|].
  destruct (store_Create o) as [[e|] o'] eqn:Ho; [done|].
  destruct (sharded.Create_loop _ _ _) as [[e rest'] j'] eqn:Hloop.
  intros [= -> <- <-]. constructor; [by rewrite Ho|]. by apply (IH _ _ _ _ Hloop).
Qed.

(** X8: [Create] stops at the first shard whose [Create] fails: it returns
    that shard's error, has called [Create] on that shard and on the shards
    before it, once each and in order, and has not touched any shard after
    it. *)
Theorem Create_stops_at_the_first_error
    (s : sharded St) (pre : list St) o post err :
  stores s = pre ++ o :: post →
  Forall (λ o, (store_Create o).1 = None) pre →
  (store_Create o).1 = Some err →
  sharded.Create s
    = (Some err,
       mkSharded (map (λ o, (store_Create o).2) pre ++ (store_Create o).2 :: post)
                 (journal s ++ map (λ k, (k, "Create")) (seq 0 (S (length pre))))).
Proof.
  intros Hs Hpre Ho. unfold sharded.Create. rewrite Hs.
  by rewrite (Create_loop_first_error 0 pre o post (journal s) err Hpre Ho).
Qed.

(** X9: [Create] returns no error exactly when the [Create] of every shard
    returns none, and then every shard has been created, once and in order;
    in every case the shard set keeps its size, so that the routing of every
    key is as before. *)
Theorem Create_succeeds_iff_every_shard_does (s : sharded St) (key : string) :
  ((sharded.Create s).1 = None ↔ Forall (λ o, (store_Create o).1 = None) (stores s))
  ∧ ((sharded.Create s).1 = None
     ∧ stores (sharded.Create s).2 = map (λ o, (store_Create o).2) (stores s)
     ∧ journal (sharded.Create s).2
       = journal s ++ map (λ k, (k, "Create")) (seq 0 (length (stores s)))
     ∨ is_Some (sharded.Create s).1)
  ∧ sharded.pick (sharded.Create s).2 key = sharded.pick s key.
Proof.
  unfold sharded.Create.
  destruct (sharded.Create_loop 0 (stores s) (journal s)) as [[e ss] j] eqn:Hloop.
  simpl. split_and!.
  - split.
    + intros ->. by apply (Create_loop_None _ _ _ _ _ Hloop).
    + intros Hall. rewrite (Create_loop_all _ _ _ Hall) in Hloop. by simplify_eq.
  - destruct e as [e|]; [by right|left].
    pose proof (Create_loop_None _ _ _ _ _ Hloop) as Hall.
    rewrite (Create_loop_all _ _ _ Hall) in Hloop. by simplify_eq.
  - apply pick_same_length. simpl.
    clear key. revert Hloop. generalize 0%nat (journal s). revert e ss j.
    induction (stores s) as [|o l IH]; intros e ss j i j0; simpl.
    + by intros [= <- <- <-].
    + destruct (store_Create o) as [[e'|] o']; [by intros [= <- <- <-]|].
      destruct (sharded.Create_loop _ _ _) as [[e2 rest'] j'] eqn:Hl.
      intros [= <- <- <-]. simpl. f_equal. by apply (IH _ _ _ _ _ Hl).
Qed.

Lemma SetStorageClass_loop_stores i sc (ss : list St) journal :
  (sharded.SetStorageClass_loop i sc ss journal).1
    = map (λ o, default o (store_SetStorageClass sc o)) ss.
Proof.
  revert i journal. induction ss as [|o ss IH]; intros i journal; simpl; [done|].
  destruct (store_SetStorageClass sc o) as [o'|]; simpl.
  - specialize (IH (S i) (journal ++ [(i, "SetStorageClass")])).
    destruct (sharded.SetStorageClass_loop _ _ _ _). simpl in *. by f_equal.
  - specialize (IH (S i) journal).
    destruct (sharded.SetStorageClass_loop _ _ _ _). simpl in *. by f_equal.
Qed.

(** X10: [SetStorageClass] sets the class on every shard that implements
    [SupportStorageClass] and leaves every other shard as it is; the shard
    set keeps its size and the routing of every key is as before. *)
Theorem SetStorageClass_reaches_every_capable_shard
    (s : sharded St) (sc key : string) :
  stores (sharded.SetStorageClass s sc)
    = map (λ o, default o (store_SetStorageClass sc o)) (stores s)
  ∧ sharded.pick (sharded.SetStorageClass s sc) key = sharded.pick s key.
Proof.
  assert (stores (sharded.SetStorageClass s sc)
          = map (λ o, default o (store_SetStorageClass sc o)) (stores s)) as Heq.
  { unfold sharded.SetStorageClass.
    pose proof (SetStorageClass_loop_stores 0 sc (stores s) (journal s)) as H.
    by destruct (sharded.SetStorageClass_loop _ _ _ _). }
  split; [done|]. apply pick_same_length. by rewrite Heq, length_map.
Qed.

End MultipartProperties.

Lemma multipart_witness :
  ∃ i st r2 s2 r3 s3,
    [Disk true true None; Disk true true None] !! i = Some st
    ∧ sharded.UploadPart
        (mkSharded [Disk true true None; Disk true true None]
                   [(0%nat, "CreateMultipartUpload")]) "a" "id" 1 "x" = Some (r2, s2)
    ∧ sharded.CompleteUpload s2 "a" "id" [1] = Some (r3, s3)
    ∧ stores s3 !! i
      = Some (store_CompleteUpload "a" "id" [1]
                (store_UploadPart "a" "id" 1 "x"
                   (store_CreateMultipartUpload "a" st).2).2).2
    ∧ (∀ j, j = i ∨ stores s3 !! j = [Disk true true None; Disk true true None] !! j)
    ∧ journal s3
      = [] ++ [(i, "CreateMultipartUpload"); (i, "UploadPart"); (i, "CompleteUpload")].
Proof.
  apply (multipart_upload_stays_on_one_shard
           (mkSharded [Disk true true None; Disk true true None] [])
           (mkSharded [Disk true true None; Disk true true None]
                      [(0%nat, "CreateMultipartUpload")])
           "a" (Ok "a") "id" 1 "x" [1]).
  reflexivity.
Defined.

Lemma Create_witness :
  sharded.Create
    (mkSharded [Disk true false None; Disk false false None; Disk true false None] [])
  = (Some (errorString "denied"),
     mkSharded (map (λ o, (store_Create o).2) [Disk true false None]
                  ++ (store_Create (Disk false false None)).2
                  :: [Disk true false None])
               ([] ++ map (λ k, (k, "Create"))
                          (seq 0 (S (length [Disk true false None]))))).
Proof.
  apply (Create_stops_at_the_first_error
           (mkSharded [Disk true false None; Disk false false None;
                       Disk true false None] [])
           [Disk true false None] (Disk false false None) [Disk true false None]
           (errorString "denied")).
  - reflexivity.
  - repeat constructor.
  - reflexivity.
Defined.

(** ** More on the constructor *)

Section ConstructorProperties.
Context {St Ob Env : Type} `{!Object Ob, !ObjectStorage St Ob, !Package St Ob Env, !Formatter}.

(** X11: with a shard count of 0 [NewSharded] succeeds for every template,
    without formatting it or creating a store, and returns a facade without
    shards, on which [pick], and with it every single-key method, panics for
    every key; with a negative shard count [NewSharded] itself panics. *)
Theorem NewSharded_without_shards_gives_a_facade_that_panics
    name endpoint ak sk token (env : Env) key body (p : positive) :
  NewSharded name endpoint ak sk token 0 env
    = Some (Ok (mkSharded ([] : list St) []), env, [])
  ∧ sharded.pick (mkSharded ([] : list St) []) key = None
  ∧ sharded.Head (mkSharded ([] : list St) []) key = None
  ∧ sharded.Put (mkSharded ([] : list St) []) key body = None
  ∧ sharded.Delete (mkSharded ([] : list St) []) key = None
  ∧ NewSharded (St := St) name endpoint ak sk token (Z.neg p) env = None.
Proof. repeat split. Qed.

Lemma NewSharded_loop_error k m i name endpoint ak sk token (env envk env' : Env)
    (made made0 : list St) created0 err :
  creates name ak sk token env
    (map (λ j, Sprintf endpoint (i + Z.of_nat j)) (seq 0 k)) made envk →
  Forall (λ j, strings.HasSuffix (Sprintf endpoint (i + Z.of_nat j))
                 "%!(EXTRA int=0)" = false) (seq 0 (S k)) →
  CreateStorage name (Sprintf endpoint (i + Z.of_nat k)) ak sk token envk
    = (Err err, env') →
  NewSharded_loop (k + S m) i name endpoint ak sk token env made0 created0
    = (Err err, env',
       created0 ++ map (λ j, Sprintf endpoint (i + Z.of_nat j)) (seq 0 (S k))).
Proof.
  assert (∀ i n, map (λ j, Sprintf endpoint (i + Z.of_nat j)) (seq 1 n)
                 = map (λ j, Sprintf endpoint (i + 1 + Z.of_nat j)) (seq 0 n)) as Hshift.
  { intros i0 n. rewrite <- (fmap_S_seq 0 n). rewrite <- list_fmap_compose.
    apply list_fmap_ext. intros _ j _. simpl. f_equal. lia. }
  revert i env made made0 created0.
  induction k as [|k IH]; intros i env made made0 created0 Hcreates Hsuffix Herr.
  - destruct made; [|done]. cbn [seq map creates] in Hcreates. subst envk.
    apply Forall_cons in Hsuffix as [Hs _].
    change (Z.of_nat 0) with 0 in *. rewrite Z.add_0_r in *.
    cbn [Nat.add NewSharded_loop seq map]. rewrite Hs, Herr.
    change (Z.of_nat 0) with 0. by rewrite Z.add_0_r.
  - rewrite <- cons_seq in Hcreates, Hsuffix.
    destruct made as [|st made]; [done|].
    cbn [map creates] in Hcreates. destruct Hcreates as (env1 & Hc & Hcreates).
    apply Forall_cons in Hsuffix as [Hs Hsuffix].
    change (Z.of_nat 0) with 0 in *. rewrite Z.add_0_r in *.
    cbn [Nat.add NewSharded_loop]. rewrite Hs, Hc.
    rewrite Hshift in Hcreates.
    rewrite (IH (i + 1) env1 made (made0 ++ [st])
                (created0 ++ [Sprintf endpoint i]) Hcreates).
    + rewrite <- app_assoc. f_equal. f_equal.
      rewrite <- (cons_seq (S k) 0). cbn [map].
      change (Z.of_nat 0) with 0. rewrite Z.add_0_r. cbn [app]. f_equal.
      symmetry. apply Hshift.
    + rewrite <- (fmap_S_seq 0 (S k)) in Hsuffix.
      apply Forall_fmap in Hsuffix. eapply Forall_impl; [exact Hsuffix|].
      intros j Hj. cbn beta in Hj. unfold compose in Hj.
      by replace (i + 1 + Z.of_nat j) with (i + Z.of_nat (S j)) by lia.
    + by replace (i + 1 + Z.of_nat k) with (i + Z.of_nat (S k)) by lia.
Qed.

(** X12: when [CreateStorage] fails for the shard index [k], after it made
    the stores of the indices before [k], [NewSharded] returns that error
    and no facade; it has then called [CreateStorage] for the indices [0] to
    [k], in order, and for none after [k]. *)
Theorem NewSharded_returns_the_first_creation_error
    name endpoint ak sk token shards (env envk env' : Env) (made : list St) k err :
  (Z.of_nat k < shards) →
  creates name ak sk token env
    (map (λ j, Sprintf endpoint (Z.of_nat j)) (seq 0 k)) made envk →
  Forall (λ j, strings.HasSuffix (Sprintf endpoint (Z.of_nat j))
                 "%!(EXTRA int=0)" = false) (seq 0 (S k)) →
  CreateStorage name (Sprintf endpoint (Z.of_nat k)) ak sk token envk
    = (Err err, env') →
  NewSharded name endpoint ak sk token shards env
    = Some (Err err, env', map (λ j, Sprintf endpoint (Z.of_nat j)) (seq 0 (S k))).
Proof.
  intros Hk Hcreates Hsuffix Herr. unfold NewSharded.
  destruct (Z.ltb_spec shards 0) as [?|_]; [lia|].
  replace (Z.to_nat shards) with (k + S (Z.to_nat shards - S k))%nat by lia.
  by rewrite (NewSharded_loop_error k _ 0 name endpoint ak sk token env envk env'
                made [] [] err Hcreates Hsuffix Herr).
Qed.

(** X13: on the facade that a successful [NewSharded] returns for a shard
    count between 1 and [2^32 - 1], [pick] does not panic and gives every
    key a shard index below the shard count. *)
Theorem NewSharded_facade_routes_every_key
    name endpoint ak sk token shards (env env' : Env) (s : sharded St) created key :
  1 ≤ shards < 2 ^ 32 →
  NewSharded name endpoint ak sk token shards env = Some (Ok s, env', created) →
  ∃ i, sharded.pick s key = Some i
       ∧ Z.of_nat i < shards
       ∧ Z.of_nat i = fnv1a_32 (bytes key) mod shards.
Proof.
  intros Hshards Hok. unfold NewSharded in Hok.
  destruct (shards <? 0); [done|].
  destruct (NewSharded_loop _ _ _ _ _ _ _ _ _ _) as [[[made'|err] env1] created1]
    eqn:Hloop; [|done].
  injection Hok as <- <- <-.
  destruct (NewSharded_loop_Ok _ _ _ _ _ _ _ _ _ _ _ _ _ Hloop)
    as (new & -> & _ & Hlen & _).
  destruct (pick_index (mkSharded ([] ++ new) []) key) as [Hpick Hi].
  - simpl. lia.
  - simpl. lia.
  - simpl in *. rewrite Hlen in *. rewrite Z2Nat.id in * by lia.
    eexists. split; [exact Hpick|]. split; [lia|].
    rewrite Z2Nat.id; [done|]. apply Z.mod_pos_bound. lia.
Qed.

End ConstructorProperties.

Lemma NewSharded_creation_error_witness :
  @NewSharded disk object (list string)
    refusing
    modelled_Sprintf "kind" "host%d" "ak" "sk" "" 3 []
  = Some (Err (errorString "refused"), ["host0"; "host1"],
          map (λ j, modelled_Sprintf "host%d" (Z.of_nat j)) (seq 0 2)).
Proof.
  apply (@NewSharded_returns_the_first_creation_error disk object (list string)
           refusing
           modelled_Sprintf "kind" "host%d" "ak" "sk" "" 3 [] ["host0"] ["host0"; "host1"]
           [Disk true false None] 1 (errorString "refused")).
  - lia.
  - simpl. eexists. split; reflexivity.
  - repeat constructor.
  - reflexivity.
Defined.

Lemma NewSharded_routes_witness :
  ∃ i, sharded.pick (mkSharded ([[]; []; []] : list scripted) []) "a" = Some i
       ∧ Z.of_nat i < 3
       ∧ Z.of_nat i = fnv1a_32 (bytes "a") mod 3.
Proof.
  apply (@NewSharded_facade_routes_every_key scripted object nat _ modelled_Sprintf
           "kind" "host%d" "ak" "sk" "" 3 0%nat 3%nat
           (mkSharded ([[]; []; []] : list scripted) [])
           ["host0"; "host1"; "host2"] "a").
  - lia.
  - reflexivity.
Defined.

(** ** Templates without a verb *)

Lemma substring_append_skip (s t : string) m :
  String.substring (String.length s) m (s +:+ t) = String.substring 0 m t.
Proof. induction s as [|c s IH]; simpl; [done|]. apply IH. Qed.

Lemma substring_whole (t : string) : String.substring 0 (String.length t) t = t.
Proof. induction t as [|c t IH]; simpl; [done|]. by rewrite IH. Qed.

Lemma string_length_append (s t : string) :
  String.length (s +:+ t) = (String.length s + String.length t)%nat.
Proof. induction s as [|c s IH]; simpl; [done|]. by rewrite IH. Qed.

(** [strings.HasSuffix] finds a suffix that was appended. *)
Lemma HasSuffix_append (s t : string) : strings.HasSuffix (s +:+ t) t = true.
Proof.
  unfold strings.HasSuffix. rewrite string_length_append.
  replace (String.length s + String.length t - String.length t)%nat
    with (String.length s) by lia.
  rewrite substring_append_skip, substring_whole, String.eqb_refl.
  rewrite andb_true_r. apply Nat.leb_le. lia.
Qed.

(** A format without [%] is copied, and the unused operand reported. *)
Lemma doPrintf_plain format i argNum reordered :
  plain format = true →
  fmt.doPrintf format i argNum reordered
    = Some (format +:+ fmt.extra i argNum reordered).
Proof.
  induction format as [|c format IH]; [done|].
  cbn [plain]. intros [Hc Hrest]%andb_true_iff.
  specialize (IH Hrest).
  destruct c as [[] [] [] [] [] [] [] []]; try discriminate Hc;
    cbn [fmt.doPrintf]; destruct format; rewrite ?IH; reflexivity.
Qed.

(** X14: a template without any [%] is rejected for every shard count of
    at least one: formatted with index 0 it is the template followed by
    [%!(EXTRA int=0)], and [NewSharded] returns its error before a single
    store is created. *)
Theorem NewSharded_rejects_a_template_without_verb
    {St Ob Env : Type} `{!Package St Ob Env}
    name endpoint ak sk token shards (env : Env) :
  plain endpoint = true →
  1 ≤ shards →
  fmt.Sprintf1 endpoint 0 = Some (endpoint +:+ "%!(EXTRA int=0)")
  ∧ @NewSharded St Ob Env _ modelled_Sprintf name endpoint ak sk token shards env
    = Some (Err (errorString
                   ("can not generate different endpoint using " +:+ endpoint)),
            env, []).
Proof.
  intros Hplain Hshards.
  assert (fmt.Sprintf1 endpoint 0 = Some (endpoint +:+ "%!(EXTRA int=0)")) as Hfmt.
  { unfold fmt.Sprintf1. by rewrite doPrintf_plain. }
  split; [done|]. unfold NewSharded.
  destruct (Z.ltb_spec shards 0) as [?|_]; [lia|].
  destruct (Z.to_nat shards) as [|k] eqn:Hk; [lia|].
  assert (@Sprintf modelled_Sprintf endpoint 0 = endpoint +:+ "%!(EXTRA int=0)") as Hs.
  { unfold Sprintf, modelled_Sprintf. by rewrite Hfmt. }
  cbn [NewSharded_loop]. by rewrite Hs, HasSuffix_append.
Qed.

Lemma NewSharded_rejects_witness :
  fmt.Sprintf1 "jfs-shard" 0 = Some ("jfs-shard" +:+ "%!(EXTRA int=0)")
  ∧ @NewSharded scripted object nat _ modelled_Sprintf "kind" "jfs-shard" "ak" "sk" "" 4 0%nat
    = Some (Err (errorString
                   ("can not generate different endpoint using " +:+ "jfs-shard")),
            0%nat, []).
Proof.
  apply (@NewSharded_rejects_a_template_without_verb scripted object nat _
           "kind" "jfs-shard" "ak" "sk" "" 4 0%nat).
  - reflexivity.
  - lia.
Defined.

(** ** More on the listing driver *)

Section DriverProperties.
Context {St Ob Env : Type} `{!Object Ob, !ObjectStorage St Ob, !Package St Ob Env}.
Implicit Types (objs : list Ob) (tr : list (event Ob)).

Lemma closes_app tr1 tr2 : closes (tr1 ++ tr2) = closes tr1 || closes tr2.
Proof. unfold closes. apply existsb_app. Qed.

Lemma closes_send_all objs : closes (send_all objs) = false.
Proof. by induction objs. Qed.

Lemma requests_app tr1 tr2 : requests (tr1 ++ tr2) = (requests tr1 + requests tr2)%nat.
Proof. unfold requests. by rewrite List.filter_app, length_app. Qed.

Lemma requests_send_all objs : requests (send_all objs) = 0%nat.
Proof. by induction objs. Qed.

Lemma ListAll_range_no_close objs lastkey first :
  closes (ListAll_range objs lastkey first).1 = false.
Proof.
  revert lastkey first. induction objs as [|x objs IH]; intros lastkey first; [done|].
  simpl. destruct (negb first && String.leb (Key x) lastkey); [done|].
  specialize (IH (Key x) false). by destruct (ListAll_range objs (Key x) false).
Qed.

Lemma ListAll_next_no_close fuel prefix marker followLink (st : St) :
  closes (ListAll_next fuel prefix marker followLink st).1 = false.
Proof.
  revert st. induction fuel as [|fuel IH]; intros st; simpl.
  - by destruct (store_List _ _ _ _ _ _) as [[?|?] ?].
  - destruct (store_List _ _ _ _ _ _) as [[?|?] st']; [done|].
    specialize (IH st'). by destruct (ListAll_next _ _ _ _ _).
Qed.

(** A request that succeeds at once. *)
Lemma ListAll_next_at_once fuel prefix marker followLink (st st' : St) objs :
  store_List prefix marker "" maxResults followLink st = (Ok objs, st') →
  ListAll_next fuel prefix marker followLink st
    = ([EvList prefix marker "" maxResults followLink], Some (objs, st')).
Proof. intros H. destruct fuel; simpl; by rewrite H. Qed.

Lemma ListAll_loop_serves pages :
  ∀ fuel prefix followLink (st st' : St) page y lastkey first,
  last page = Some y → Key y ≠ "" →
  increasing_after (emitted_before lastkey first) (page ++ concat pages) →
  Forall (λ p, ∀ z, last p = Some z → Key z ≠ "") pages →
  serves prefix followLink st (Key y) pages st' →
  (length pages < fuel)%nat →
  ∃ tr, ListAll_loop fuel prefix followLink st page lastkey first = (tr, Some st')
        ∧ sends tr = map Some (page ++ concat pages)
        ∧ closes tr = true
        ∧ requests tr = S (length pages).
Proof.
  induction pages as [|p pages IH];
    intros fuel prefix followLink st st' page y lastkey first
           Hlast Hy Hinc Hkeys Hserves Hfuel;
    (destruct fuel as [|fuel]; [simpl in Hfuel; lia|]);
    apply increasing_after_app in Hinc as [Hpage Hrest];
    rewrite (ListAll_loop_continues _ _ _ _ _ _ _ y Hpage Hlast Hy).
  - simpl in Hserves. rewrite (ListAll_next_at_once _ _ _ _ _ _ _ Hserves).
    rewrite ListAll_loop_nil. eexists. split; [reflexivity|]. cbn [fst snd].
    rewrite sends_app, closes_app, requests_app, sends_send_all,
      closes_send_all, requests_send_all.
    split_and!; [|reflexivity|reflexivity].
    cbn [concat]. by rewrite !app_nil_r.
  - destruct Hserves as (z & st1 & Hz & Hlist & Hserves).
    rewrite (ListAll_next_at_once _ _ _ _ _ _ _ Hlist).
    apply Forall_cons in Hkeys as [Hpz Hkeys].
    destruct (IH fuel prefix followLink st1 st' p z (Key y) false Hz (Hpz z Hz))
      as (tr & -> & Hsends & Hcloses & Hreq); [|done|done| |].
    + unfold last_key in Hrest. rewrite Hlast in Hrest. exact Hrest.
    + simpl in Hfuel. lia.
    + eexists. split; [reflexivity|]. cbn [fst snd].
      rewrite !sends_app, !closes_app, !requests_app, sends_send_all,
        closes_send_all, requests_send_all, Hsends, Hcloses, Hreq.
      split_and!.
      * cbn [concat]. by rewrite !map_app.
      * by rewrite !orb_true_r.
      * done.
Qed.

(** X15: on a store without a native listing that answers the successive
    page requests with non-empty pages and then an empty one, all keys
    increasing and no page ending in the empty key, the driver puts exactly
    the objects of the pages on its channel, in order, and closes it; it has
    then made one request per page and one more, and no retry. *)
Theorem ListAll_delivers_every_page
    fuel (store : St) prefix marker followLink e st1 pages st' :
  store_ListAll prefix marker followLink store = (Err e, st1) →
  errors.Is e notSupported = true →
  serves prefix followLink st1 marker pages st' →
  increasing_after None (concat pages) →
  Forall (λ p, ∀ z, last p = Some z → Key z ≠ "") pages →
  (length pages ≤ fuel)%nat →
  returned (ListAll fuel store prefix marker followLink)
    = Ok (Channel (map Some (concat pages)) true)
  ∧ final (ListAll fuel store prefix marker followLink) = Some st'
  ∧ requests (events (ListAll fuel store prefix marker followLink))
    = S (length pages).
Proof.
  intros Hall His Hserves Hinc Hkeys Hfuel.
  destruct pages as [|p pages].
  - simpl in Hserves.
    rewrite (ListAll_driver _ _ _ _ _ _ _ _ _ Hall His Hserves).
    by rewrite ListAll_loop_nil.
  - destruct Hserves as (z & st2 & Hz & Hlist & Hserves).
    rewrite (ListAll_driver _ _ _ _ _ _ _ _ _ Hall His Hlist).
    apply Forall_cons in Hkeys as [Hpz Hkeys].
    destruct (ListAll_loop_serves pages fuel prefix followLink st2 st' p z "" true
                Hz (Hpz z Hz) Hinc Hkeys Hserves) as (tr & -> & Hsends & Hcloses & Hreq).
    { simpl in Hfuel. lia. }
    cbn [fst snd returned final events]. rewrite Hsends, Hcloses.
    split_and!; [done|done|].
    change (requests (EvListAll prefix marker followLink
                        :: EvList prefix marker "" maxResults followLink :: tr))
      with (S (requests tr)).
    by rewrite Hreq.
Qed.

(** X16: the producer closes its channel as its last action and only when
    it ends: a run that has ended consists of events without a close
    followed by the close, and a run that is still going has not closed the
    channel. *)
Theorem ListAll_closes_last
    fuel prefix followLink (st : St) objs lastkey first :
  match (ListAll_loop fuel prefix followLink st objs lastkey first).2 with
  | Some _ =>
      ∃ tr, (ListAll_loop fuel prefix followLink st objs lastkey first).1
              = tr ++ [EvClose]
            ∧ closes tr = false
  | None =>
      closes (ListAll_loop fuel prefix followLink st objs lastkey first).1 = false
  end.
Proof.
  revert st objs lastkey first.
  induction fuel as [|fuel IH]; intros st objs lastkey first;
    (destruct objs as [|x objs]; [rewrite ListAll_loop_nil; by exists []|]);
    rewrite ListAll_loop_cons;
    pose proof (ListAll_range_no_close (x :: objs) lastkey first) as Hr;
    destruct (ListAll_range (x :: objs) lastkey first) as [tr1 [[lk f]|]];
    cbn [fst snd] in Hr |- *; try (by exists tr1);
    (destruct (String.eqb lk ""); [by exists tr1|]); [done|].
  pose proof (ListAll_next_no_close fuel prefix lk followLink st) as Hn.
  destruct (ListAll_next fuel prefix lk followLink st) as [tr2 [[objs' st']|]];
    cbn [fst snd] in Hn |- *.
  - specialize (IH st' objs' lk f).
    destruct (ListAll_loop fuel prefix followLink st' objs' lk f) as [tr3 [stf|]];
      cbn [fst snd] in IH |- *.
    + destruct IH as (tr & -> & Hc). exists (tr1 ++ tr2 ++ tr).
      split; [by rewrite <- !app_assoc|]. by rewrite !closes_app, Hr, Hn, Hc.
    + by rewrite !closes_app, Hr, Hn, IH.
  - by rewrite closes_app, Hr, Hn.
Qed.

Lemma errors_Is_wrapped msgs :
  errors.Is (foldr wrapError notSupported msgs) notSupported = true.
Proof. induction msgs as [|m msgs IH]; [done|]. simpl. exact IH. Qed.

(** X17: the two tests for not-supported differ.  An error of the native
    listing that wraps [notSupported] at any depth sends the driver on to
    the page request, and for an error of that request the driver hands over
    to [ListAllWithDelimiter] only when it is the sentinel itself: an error
    that merely wraps the sentinel is returned to the caller. *)
Theorem ListAll_delegates_only_on_the_bare_sentinel
    fuel (store : St) prefix marker followLink msgs st1 err st2 msg :
  store_ListAll prefix marker followLink store
    = (Err (foldr wrapError notSupported msgs), st1) →
  store_List prefix marker "" maxResults followLink st1 = (Err err, st2) →
  returned (ListAll fuel store prefix marker followLink)
    = (if errors.eqb err notSupported
       then returned (ListAllWithDelimiter st2 prefix marker "" followLink)
       else Err err)
  ∧ errors.eqb (wrapError msg notSupported) notSupported = false
  ∧ errors.Is (wrapError msg notSupported) notSupported = true.
Proof.
  intros Hall Hlist. split; [|done].
  unfold ListAll. rewrite Hall, errors_Is_wrapped. cbn [negb]. rewrite Hlist.
  by destruct (errors.eqb err notSupported).
Qed.

(** The first receive from the channel of the driver does not block: the
    first object of the first page is sent, or the channel is closed, before
    any further request. *)
Lemma paginated_first_receive fuel (store : St) prefix marker followLink :
  paginated prefix marker followLink store →
  ∃ c, returned (ListAll fuel store prefix marker followLink) = Ok c
       ∧ is_Some (recv c).
Proof.
  intros (e & st1 & objs & st2 & Hall & His & Hlist).
  rewrite (ListAll_driver _ _ _ _ _ _ _ _ _ Hall His Hlist).
  eexists. split; [done|]. destruct objs as [|x objs].
  - by rewrite ListAll_loop_nil.
  - destruct (ListAll_loop_first fuel prefix followLink st2 x objs "")
      as (tr & fin & -> & _). done.
Qed.

End DriverProperties.

Lemma ListAll_delivers_witness :
  returned (ListAll 2 ([Ok [ob "a"; ob "b"; ob "c"]; Ok [ob "d"; ob "e"]] : scripted)
              "" "" false)
    = Ok (Channel (map Some (concat [[ob "a"; ob "b"; ob "c"]; [ob "d"; ob "e"]])) true)
  ∧ final (ListAll 2 ([Ok [ob "a"; ob "b"; ob "c"]; Ok [ob "d"; ob "e"]] : scripted)
             "" "" false) = Some []
  ∧ requests (events (ListAll 2
                        ([Ok [ob "a"; ob "b"; ob "c"]; Ok [ob "d"; ob "e"]] : scripted)
                        "" "" false))
    = S (length [[ob "a"; ob "b"; ob "c"]; [ob "d"; ob "e"]]).
Proof.
  apply (ListAll_delivers_every_page 2
           ([Ok [ob "a"; ob "b"; ob "c"]; Ok [ob "d"; ob "e"]] : scripted)
           "" "" false notSupported
           [Ok [ob "a"; ob "b"; ob "c"]; Ok [ob "d"; ob "e"]]
           [[ob "a"; ob "b"; ob "c"]; [ob "d"; ob "e"]] []).
  - reflexivity.
  - reflexivity.
  - exists (ob "c"), [Ok [ob "d"; ob "e"]]. split; [reflexivity|]. split; [reflexivity|].
    exists (ob "e"), []. split; [reflexivity|]. split; reflexivity.
  - simpl. repeat split.
  - repeat constructor; intros z [= <-]; discriminate.
  - simpl. lia.
Defined.

Lemma ListAll_delegates_witness :
  returned (ListAll 1 (Wrapping [Err (wrapError "list" notSupported)]) "" "" false)
    = (if errors.eqb (wrapError "list" notSupported) notSupported
       then returned (ListAllWithDelimiter (Wrapping []) "" "" "" false)
       else Err (wrapError "list" notSupported))
  ∧ errors.eqb (wrapError "x" notSupported) notSupported = false
  ∧ errors.Is (wrapError "x" notSupported) notSupported = true.
Proof.
  apply (ListAll_delegates_only_on_the_bare_sentinel
           1 (Wrapping [Err (wrapError "list" notSupported)]) "" "" false
           ["native"; "inner"] (Wrapping [Err (wrapError "list" notSupported)])
           (wrapError "list" notSupported) (Wrapping []) "x").
  - reflexivity.
  - reflexivity.
Defined.

(** ** The merge in general *)

Section MergeGeneral.
Context {St Ob Env : Type} `{!Object Ob, !ObjectStorage St Ob, !Package St Ob Env}.
Implicit Types (heads rest : list (nextKey Ob)) (chans : list (channel Ob)).

Lemma live_map_Some (objs : list Ob) : live (map Some objs) = objs.
Proof. induction objs as [|x objs IH]; simpl; [done|]. by rewrite IH. Qed.

Lemma live_map_Some_nil (objs : list Ob) : live (map Some objs ++ [None]) = objs.
Proof. induction objs as [|x objs IH]; simpl; [done|]. by rewrite IH. Qed.

Lemma drawable_cons n rest chans c :
  chans !! ch n = Some c →
  drawable (n :: rest) chans = live (sent c) ++ drawable rest chans.
Proof. intros Hc. unfold drawable. simpl. by rewrite Hc. Qed.

Lemma drawable_perm heads heads' chans :
  heads ≡ₚ heads' → drawable heads chans ≡ₚ drawable heads' chans.
Proof.
  unfold drawable. induction 1 as [|n l l' _ IH|n n' l|l l' l'' _ IH1 _ IH2]; simpl.
  - done.
  - by rewrite IH.
  - rewrite !app_assoc. f_equiv. apply Permutation_app_comm.
  - by rewrite IH1.
Qed.

Lemma drawable_insert_other rest chans i c' :
  (∀ n, n ∈ rest → ch n ≠ i) →
  drawable rest (<[i := c']> chans) = drawable rest chans.
Proof.
  intros Hne. unfold drawable. f_equal. apply map_ext_in.
  intros n Hn%list_elem_of_In. by rewrite list_lookup_insert_ne by (symmetry; auto).
Qed.

Lemma drawable_snoc_other heads chans c' :
  (∀ n, n ∈ heads → (ch n < length chans)%nat) →
  drawable heads (chans ++ [c']) = drawable heads chans.
Proof.
  intros Hlt. unfold drawable. f_equal. apply map_ext_in.
  intros n Hn%list_elem_of_In. by rewrite lookup_app_l by auto.
Qed.

Lemma elem_of_drawable heads chans y :
  y ∈ drawable heads chans →
  ∃ n c, n ∈ heads ∧ chans !! ch n = Some c ∧ y ∈ live (sent c).
Proof.
  induction heads as [|n heads IH]; unfold drawable; simpl.
  - intros H. by apply elem_of_nil in H.
  - intros [H|H]%elem_of_app.
    + destruct (chans !! ch n) as [c|] eqn:Hc; simpl in H.
      * exists n, c. split; [by left|done].
      * by apply elem_of_nil in H.
    + destruct (IH H) as (n' & c & Hn' & Hc & Hy). exists n', c. split; [by right|done].
  Qed.

Lemma drawing_perm heads heads' chans :
  heads ≡ₚ heads' → drawing heads chans → drawing heads' chans.
Proof.
  intros Hp [H1 H2]. split.
  - by rewrite <- Hp.
  - intros n Hn. apply H2. by rewrite Hp.
Qed.

Lemma above_heads_perm heads heads' chans :
  heads ≡ₚ heads' → above_heads heads chans → above_heads heads' chans.
Proof. intros Hp H n c Hn. apply H. by rewrite Hp. Qed.

Lemma drawing_tail_other n rest chans :
  drawing (n :: rest) chans → ∀ n', n' ∈ rest → ch n' ≠ ch n.
Proof.
  intros [Hnd _] n' Hn' Heq. simpl in Hnd. apply NoDup_cons in Hnd as [Hnotin _].
  apply Hnotin. rewrite <- Heq. by apply list_elem_of_fmap_2.
Qed.

(** The entry that was taken off is not replaced. *)
Lemma drawing_retire n rest chans c' :
  drawing (n :: rest) chans → drawing rest (<[ch n := c']> chans).
Proof.
  intros Hd. pose proof (drawing_tail_other _ _ _ Hd) as Hother.
  destruct Hd as [Hnd Hcl]. split.
  - simpl in Hnd. by apply NoDup_cons in Hnd as [_ ?].
  - intros n' Hn'. destruct (Hcl n') as (c & Hc & Hclosed); [by right|].
    exists c. split; [|done]. rewrite list_lookup_insert_ne; [done|].
    intros Heq. by apply (Hother n' Hn').
Qed.

(** The entry that was taken off is replaced by the next object of its
    channel. *)
Lemma drawing_advance n rest chans c x r :
  drawing (n :: rest) chans → chans !! ch n = Some c →
  drawing (NextKey x (ch n) :: rest) (<[ch n := Channel r true]> chans).
Proof.
  intros Hd Hc. pose proof (drawing_tail_other _ _ _ Hd) as Hother.
  pose proof (lookup_lt_Some _ _ _ Hc) as Hlt.
  destruct Hd as [Hnd Hcl]. split; [done|].
  intros n' [->|Hn']%elem_of_cons.
  - simpl. eexists. by rewrite list_lookup_insert_eq.
  - destruct (Hcl n') as (c0 & Hc0 & Hclosed); [by right|].
    exists c0. split; [|done]. rewrite list_lookup_insert_ne; [done|].
    intros Heq. by apply (Hother n' Hn').
Qed.

Lemma ListAll_merge_general fuel heads chans :
  is_heap heads → drawing heads chans →
  (length heads + sum_list (map (λ c, length (sent c)) chans) ≤ fuel)%nat →
  ∃ out, sharded.ListAll_merge fuel (NextObjects heads) chans
           = Some (Channel (map Some out) true)
         ∧ out ≡ₚ map o heads ++ drawable heads chans
         ∧ (above_heads heads chans → StronglySorted object_le out).
Proof.
  revert heads chans. induction fuel as [|fuel IH]; intros heads chans Hheap Hd Hfuel;
    rewrite ListAll_merge_unfold.
  - destruct heads as [|n heads]; [|simpl in Hfuel; lia].
    rewrite decide_True by done. exists []. split_and!; [done|done|constructor].
  - destruct (decide (length heads = 0)%nat) as [Hnil|Hnonnil].
    { apply nil_length_inv in Hnil as ->. exists [].
      split_and!; [done|done|constructor]. }
    destruct (Pop_spec heads Hheap) as (n & rest & -> & Hrest & Hperm & Hleast).
    { by intros ->. }
    pose proof (drawing_perm _ _ _ Hperm Hd) as Hd'.
    pose proof (drawing_tail_other _ _ _ Hd') as Hother.
    destruct (drawing_closed _ _ Hd' n) as (c & Hc & Hclosed); [by left|].
    rewrite Hc.
    pose proof (Permutation_length Hperm) as Hlen. simpl in Hlen.
    pose proof (drawable_cons n rest chans c Hc) as Hdraw.
    destruct c as [[|[x|] r] cl]; simpl in Hclosed; subst cl.
    + (* the channel is closed and drained *)
      change (recv (Channel [] true)) with (Some (@None Ob, Channel (@nil (option Ob)) true)).
      cbn iota beta. rewrite list_insert_id by done.
      destruct (IH rest chans Hrest) as (out & -> & Hout & Hsorted).
      * rewrite <- (list_insert_id chans (ch n) (Channel [] true)) by done.
        by apply drawing_retire.
      * lia.
      * exists (o n :: out). split; [done|]. split.
        -- rewrite (drawable_perm _ _ _ Hperm), Hdraw, Hperm, Hout. done.
        -- intros Habove. apply (above_heads_perm _ _ _ Hperm) in Habove.
           assert (above_heads rest chans) as Habove'.
           { intros n' c' Hn'. apply Habove. by right. }
           constructor; [by apply Hsorted|]. apply Forall_forall. intros y Hy.
           rewrite Hout in Hy. apply elem_of_app in Hy as [Hy|Hy].
           ++ apply list_elem_of_fmap in Hy as (n' & -> & Hn').
              apply Hleast. rewrite Hperm. by right.
           ++ apply elem_of_drawable in Hy as (n' & c' & Hn' & Hc' & Hy).
              apply key_lt_le. apply key_le_lt_trans with (Key (o n')).
              ** apply Hleast. rewrite Hperm. by right.
              ** by apply (increasing_after_above _ _ (Habove' n' c' Hn' Hc')).
    + (* the next object of the channel enters the frontier *)
      change (recv (Channel (Some x :: r) true)) with (Some (Some x, Channel r true)).
      cbn iota beta.
      destruct (Push_spec rest (NextKey x (ch n)) Hrest)
        as (heads2 & -> & Hheap2 & Hperm2).
      pose proof (drawing_advance n rest chans _ x r Hd' Hc) as Hd2.
      apply (drawing_perm _ heads2) in Hd2; [|done].
      destruct (IH heads2 (<[ch n := Channel r true]> chans) Hheap2 Hd2)
        as (out & -> & Hout & Hsorted).
      * pose proof (sent_total_insert chans (ch n) _ (Channel r true) Hc) as Htot.
        pose proof (Permutation_length Hperm2) as Hlen2.
        simpl in Htot, Hlen2. lia.
      * assert (drawable heads2 (<[ch n := Channel r true]> chans)
                ≡ₚ live r ++ drawable rest chans) as Hdraw2.
        { rewrite (drawable_perm _ _ _ Hperm2).
          rewrite (drawable_cons _ rest _ (Channel r true)).
          - by rewrite (drawable_insert_other rest chans (ch n) _ Hother).
          - simpl. apply list_lookup_insert_eq. by apply lookup_lt_Some in Hc. }
        exists (o n :: out). split; [done|]. split.
        -- rewrite (drawable_perm _ _ _ Hperm), Hdraw, Hperm, Hout, Hdraw2, Hperm2.
           simpl. by rewrite Permutation_middle.
        -- intros Habove. apply (above_heads_perm _ _ _ Hperm) in Habove.
           pose proof (Habove n _ ltac:(by left) Hc) as Hn. simpl in Hn.
           assert (above_heads heads2 (<[ch n := Channel r true]> chans)) as Habove2.
           { apply (above_heads_perm (NextKey x (ch n) :: rest)); [done|].
             intros n' c' [->|Hn']%elem_of_cons.
             - simpl. rewrite list_lookup_insert_eq by (by apply lookup_lt_Some in Hc).
               intros [= <-]. apply Hn.
             - rewrite list_lookup_insert_ne by (symmetry; by apply Hother).
               apply Habove. by right. }
           constructor; [by apply Hsorted|]. apply Forall_forall. intros y Hy.
           assert (∀ n', n' ∈ heads2 → key_le (Key (o n)) (Key (o n'))) as Hlb.
           { intros n' Hn'. rewrite Hperm2 in Hn'.
             apply elem_of_cons in Hn' as [->|Hn'].
             - apply key_lt_le. apply Hn.
             - apply Hleast. rewrite Hperm. by right. }
           rewrite Hout in Hy. apply elem_of_app in Hy as [Hy|Hy].
           ++ apply list_elem_of_fmap in Hy as (n' & -> & Hn'). by apply Hlb.
           ++ apply elem_of_drawable in Hy as (n' & c' & Hn' & Hc' & Hy).
              apply key_lt_le. apply key_le_lt_trans with (Key (o n')); [by apply Hlb|].
              by apply (increasing_after_above _ _ (Habove2 n' c' Hn' Hc')).
    + (* a nil object: the shard is retired with what it still held *)
      change (recv (Channel (None :: r) true)) with (Some (@None Ob, Channel r true)).
      cbn iota beta.
      pose proof (drawing_retire n rest chans (Channel r true) Hd') as Hd2.
      destruct (IH rest (<[ch n := Channel r true]> chans) Hrest Hd2)
        as (out & -> & Hout & Hsorted).
      * pose proof (sent_total_insert chans (ch n) _ (Channel r true) Hc) as Htot.
        simpl in Htot. lia.
      * rewrite (drawable_insert_other rest chans (ch n) _ Hother) in Hout.
        exists (o n :: out). split; [done|]. split.
        -- rewrite (drawable_perm _ _ _ Hperm), Hdraw, Hperm, Hout. done.
        -- intros Habove. apply (above_heads_perm _ _ _ Hperm) in Habove.
           assert (above_heads rest (<[ch n := Channel r true]> chans)) as Habove'.
           { intros n' c' Hn'.
             rewrite list_lookup_insert_ne by (symmetry; by apply Hother).
             apply Habove. by right. }
           constructor; [by apply Hsorted|]. apply Forall_forall. intros y Hy.
           rewrite Hout in Hy. apply elem_of_app in Hy as [Hy|Hy].
           ++ apply list_elem_of_fmap in Hy as (n' & -> & Hn').
              apply Hleast. rewrite Hperm. by right.
           ++ apply elem_of_drawable in Hy as (n' & c' & Hn' & Hc' & Hy).
              apply key_lt_le. apply key_le_lt_trans with (Key (o n')).
              ** apply Hleast. rewrite Hperm. by right.
              ** assert (above_heads rest chans) as Hab.
                 { intros n'' c'' Hn''. apply Habove. by right. }
                 by apply (increasing_after_above _ _ (Hab n' c' Hn' Hc')).
Qed.

End MergeGeneral.

Section ShardedProperties.
Context {St Ob Env : Type} `{!Object Ob, !ObjectStorage St Ob, !Package St Ob Env}.
Implicit Types (heads : list (nextKey Ob)) (chans cs : list (channel Ob)).

Lemma recv_closed (c : channel Ob) :
  closed c = true →
  (∃ c', recv c = Some (None, c') ∧ closed c' = true ∧ live (sent c) = [])
  ∨ (∃ x r, recv c = Some (Some x, Channel r true) ∧ sent c = Some x :: r).
Proof.
  destruct c as [[|[x|] r] cl]; simpl; intros ->.
  - left. by exists (Channel [] true).
  - right. by exists x, r.
  - left. by exists (Channel r true).
Qed.

Lemma drawable_app heads1 heads2 chans :
  drawable (heads1 ++ heads2) chans = drawable heads1 chans ++ drawable heads2 chans.
Proof. unfold drawable. by rewrite map_app, concat_app. Qed.

Lemma drawing_snoc heads chans c' :
  (∀ n, n ∈ heads → (ch n < length chans)%nat) →
  drawing heads chans → drawing heads (chans ++ [c']).
Proof.
  intros Hlt [Hnd Hcl]. split; [done|].
  intros n Hn. destruct (Hcl n Hn) as (c & Hc & Hclosed).
  exists c. split; [|done]. by apply lookup_app_l_Some.
Qed.

Lemma drawing_snoc_head heads chans x r :
  (∀ n, n ∈ heads → (ch n < length chans)%nat) →
  drawing heads chans →
  drawing (heads ++ [NextKey x (length chans)]) (chans ++ [Channel r true]).
Proof.
  intros Hlt [Hnd Hcl]. split.
  - rewrite map_app. apply NoDup_app. split; [done|]. split.
    + intros i Hi [->|[]%elem_of_nil]%elem_of_cons.
      apply list_elem_of_fmap in Hi as (n & Hn & Hin). specialize (Hlt n Hin).
      simpl in Hn. lia.
    + apply NoDup_singleton.
  - intros n [Hn|Hn]%elem_of_app.
    + destruct (Hcl n Hn) as (c & Hc & Hclosed).
      exists c. split; [|done]. by apply lookup_app_l_Some.
    + apply list_elem_of_singleton in Hn as ->. simpl.
      eexists. by rewrite list_lookup_middle.
Qed.

Lemma above_heads_snoc heads chans c' :
  (∀ n, n ∈ heads → (ch n < length chans)%nat) →
  above_heads heads chans → above_heads heads (chans ++ [c']).
Proof.
  intros Hlt H n c Hn. rewrite lookup_app_l by auto. by apply H.
Qed.

(** Lines 171-180 on shards whose channels are all closed by their
    producers, whatever they carry. *)
Lemma ListAll_heads_general fuel prefix marker followLink (ss : list St) cs heads chans :
  Forall2 (λ store c,
             returned (ListAll fuel store prefix marker followLink) = Ok c
             ∧ closed c = true) ss cs →
  drawing heads chans →
  (∀ n, n ∈ heads → (ch n < length chans)%nat) →
  ∃ heads' chans',
    sharded.ListAll_heads fuel prefix marker followLink ss (NextObjects heads) chans
      = Returns (Ok (NextObjects heads', chans'))
    ∧ drawing heads' chans'
    ∧ map o heads' ++ drawable heads' chans'
      ≡ₚ (map o heads ++ drawable heads chans) ++ concat (map (λ c, live (sent c)) cs)
    ∧ (above_heads heads chans →
       Forall (λ c, increasing_after None (live (sent c))) cs →
       above_heads heads' chans').
Proof.
  intros Hall. revert heads chans.
  induction Hall as [|store c ss cs [Hret Hclosed] Hall IH]; intros heads chans Hd Hlt.
  - exists heads, chans. simpl. by rewrite app_nil_r.
  - simpl. rewrite Hret.
    destruct (recv_closed c Hclosed) as [(c' & -> & Hc' & Hlive)|(x & r & -> & Hsent)].
    + destruct (IH heads (chans ++ [c'])) as (heads' & chans' & -> & Hd' & Hperm & Hab).
      { by apply drawing_snoc. }
      { intros n Hn. rewrite length_app. specialize (Hlt n Hn). lia. }
      exists heads', chans'. split; [done|]. split; [done|]. split.
      * rewrite Hperm, Hlive, (drawable_snoc_other heads chans c' Hlt). done.
      * intros Habove [_ Hincs]%Forall_cons. apply Hab; [|done].
        by apply above_heads_snoc.
    + change (nextObjects.Push (NextObjects heads) (NextKey x (length chans)))
        with (NextObjects (heads ++ [NextKey x (length chans)])).
      destruct (IH (heads ++ [NextKey x (length chans)]) (chans ++ [Channel r true]))
        as (heads' & chans' & -> & Hd' & Hperm & Hab).
      { by apply drawing_snoc_head. }
      { intros n [Hn|Hn]%elem_of_app; rewrite length_app; simpl.
        - specialize (Hlt n Hn). lia.
        - apply list_elem_of_singleton in Hn as ->. simpl. lia. }
      assert (drawable [NextKey x (length chans)] (chans ++ [Channel r true])
              = live r) as Hnew.
      { unfold drawable. simpl. rewrite list_lookup_middle by done. simpl.
        by rewrite app_nil_r. }
      exists heads', chans'. split; [done|]. split; [done|]. split.
      * rewrite Hperm, map_app, drawable_app, Hnew, Hsent.
        rewrite (drawable_snoc_other heads chans _ Hlt). simpl.
        rewrite <- !app_assoc. f_equiv. simpl.
        rewrite (app_assoc (drawable heads chans)). rewrite <- Permutation_middle.
        by rewrite <- app_assoc.
      * intros Habove [Hinc Hincs]%Forall_cons. apply Hab; [|done].
        intros n c0 [Hn|Hn]%elem_of_app.
        -- rewrite lookup_app_l by auto. by apply Habove.
        -- apply list_elem_of_singleton in Hn as ->. simpl.
           rewrite list_lookup_middle by done. intros [= <-]. simpl.
           rewrite Hsent in Hinc. apply Hinc.
Qed.

Lemma drawing_nil : drawing ([] : list (nextKey Ob)) ([] : list (channel Ob)).
Proof.
  split; [constructor|]. intros n Hn. by apply elem_of_nil in Hn.
Qed.

Lemma sharded_ListAll_general fuel (s : sharded St) prefix marker followLink cs :
  Forall2 (λ store c,
             returned (ListAll fuel store prefix marker followLink) = Ok c
             ∧ closed c = true) (stores s) cs →
  ∃ merged,
    sharded.ListAll fuel s prefix marker followLink
      = Returns (Ok (Channel (map Some merged) true))
    ∧ merged ≡ₚ concat (map (λ c, live (sent c)) cs)
    ∧ (Forall (λ c, increasing_after None (live (sent c))) cs →
       StronglySorted object_le merged).
Proof.
  intros Hall. unfold sharded.ListAll.
  destruct (ListAll_heads_general fuel prefix marker followLink (stores s) cs [] []
              Hall drawing_nil) as (heads & chans & -> & Hd & Hperm & Hab).
  { intros n Hn. by apply elem_of_nil in Hn. }
  destruct (Init_spec heads) as (heads' & -> & Hheap & Hperm').
  destruct (ListAll_merge_general (sharded.merge_fuel (NextObjects heads') chans)
              heads' chans Hheap) as (merged & -> & Hmerged & Hsorted).
  - by apply (drawing_perm heads).
  - unfold sharded.merge_fuel, nextObjects.Len. simpl. lia.
  - exists merged. split; [done|]. split.
    + rewrite Hmerged, (drawable_perm _ _ _ Hperm'), Hperm', Hperm. done.
    + intros Hincs. apply Hsorted. apply (above_heads_perm heads); [done|].
      apply Hab; [|done]. intros n c Hn. by apply elem_of_nil in Hn.
Qed.

(** X18: when every shard's channel is closed by its producer, the merged
    listing ends and is closed, and it delivers, up to order, exactly the
    objects that each shard sent before its first [nil]: what a shard sent
    after a [nil] is not delivered.  No order of the keys is assumed. *)
Theorem sharded_ListAll_delivers_what_precedes_nil
    fuel (s : sharded St) prefix marker followLink cs :
  Forall2 (λ store c,
             returned (ListAll fuel store prefix marker followLink) = Ok c
             ∧ closed c = true) (stores s) cs →
  ∃ merged,
    sharded.ListAll fuel s prefix marker followLink
      = Returns (Ok (Channel (map Some merged) true))
    ∧ merged ≡ₚ concat (map (λ c, live (sent c)) cs).
Proof.
  intros Hall.
  destruct (sharded_ListAll_general fuel s prefix marker followLink cs Hall)
    as (merged & Hret & Hperm & _).
  by exists merged.
Qed.

(** The channel of the paginated driver carries increasing keys up to its
    first [nil]. *)
Lemma paginated_live_increasing fuel (store : St) prefix marker followLink c :
  paginated prefix marker followLink store →
  returned (ListAll fuel store prefix marker followLink) = Ok c →
  increasing_after None (live (sent c)).
Proof.
  intros (e & st1 & objs & st2 & Hall & His & Hlist).
  rewrite (ListAll_driver _ _ _ _ _ _ _ _ _ Hall His Hlist). intros [= <-].
  destruct (ListAll_loop_sends fuel prefix followLink st2 objs "" true)
    as (em & Hinc & [Hs|Hs]); simpl; rewrite Hs.
  - by rewrite live_map_Some.
  - by rewrite live_map_Some_nil.
Qed.

(** X19: when every shard is listed by the paginated driver and every
    producer has ended, the merged listing is in ascending order of keys
    whatever the backends returned: the validation of the driver and the
    merge together leave no way to a listing out of order. *)
Theorem sharded_ListAll_of_paginated_shards_is_sorted
    fuel (s : sharded St) prefix marker followLink :
  Forall (λ store,
            paginated prefix marker followLink store
            ∧ ∃ c, returned (ListAll fuel store prefix marker followLink) = Ok c
                   ∧ closed c = true) (stores s) →
  ∃ merged,
    sharded.ListAll fuel s prefix marker followLink
      = Returns (Ok (Channel (map Some merged) true))
    ∧ StronglySorted object_le merged.
Proof.
  intros Hall.
  assert (∃ cs, Forall2 (λ store c,
                  returned (ListAll fuel store prefix marker followLink) = Ok c
                  ∧ closed c = true) (stores s) cs
                ∧ Forall (λ c, increasing_after None (live (sent c))) cs)
    as (cs & Hcs & Hincs).
  { induction Hall as [|store ss [Hpag (c & Hret & Hclosed)] Hall IH].
    - exists []. split; constructor.
    - destruct IH as (cs & Hcs & Hincs). exists (c :: cs). split.
      + by constructor.
      + constructor; [|done]. by apply (paginated_live_increasing fuel store prefix marker followLink). }
  destruct (sharded_ListAll_general fuel s prefix marker followLink cs Hcs)
    as (merged & Hret & _ & Hsorted).
  exists merged. split; [done|]. by apply Hsorted.
Qed.

Lemma ListAll_heads_returns fuel prefix marker followLink (ss : list St)
    (heads : nextObjects Ob) chans :
  Forall (λ store, ∃ c, returned (ListAll fuel store prefix marker followLink) = Ok c
                        ∧ is_Some (recv c)) ss →
  ∃ r, sharded.ListAll_heads fuel prefix marker followLink ss heads chans
         = Returns (Ok r).
Proof.
  intros Hall. revert heads chans.
  induction Hall as [|store ss (c & Hret & [[first c'] Hrecv]) Hall IH];
    intros heads chans; simpl.
  - by eexists.
  - rewrite Hret, Hrecv. apply IH.
Qed.

(** X20: when every shard is listed by the paginated driver, the merged
    listing returns its channel without waiting for any producer to end and
    without a panic: the first receive from each shard is served by the
    first page or by the close. *)
Theorem sharded_ListAll_returns_for_paginated_shards
    fuel (s : sharded St) prefix marker followLink :
  Forall (paginated prefix marker followLink) (stores s) →
  ∃ out, sharded.ListAll fuel s prefix marker followLink = Returns (Ok out).
Proof.
  intros Hall.
  pose proof (sharded_ListAll_no_panic fuel s prefix marker followLink) as Hpanic.
  unfold sharded.ListAll in *.
  destruct (ListAll_heads_returns fuel prefix marker followLink (stores s)
              (NextObjects []) []) as [[heads chans] Hheads].
  { eapply Forall_impl; [exact Hall|]. intros store Hp.
    by apply paginated_first_receive. }
  rewrite Hheads in *.
  destruct (heap.Init heads) as [heads'|]; [|done].
  destruct (sharded.ListAll_merge _ heads' chans) as [out|]; [|done].
  by exists out.
Qed.

(** The traced loop has the outcome of [ListAll_heads]. *)
Lemma ListAll_heads_traced_outcome fuel prefix marker followLink (ss : list St)
    (heads : nextObjects Ob) chans :
  (sharded.ListAll_heads_traced fuel prefix marker followLink ss heads chans).1
    = sharded.ListAll_heads fuel prefix marker followLink ss heads chans.
Proof.
  revert heads chans. induction ss as [|store rest IH]; intros heads chans; simpl.
  - done.
  - destruct (returned (ListAll fuel store prefix marker followLink)) as [c|err];
      [|done].
    destruct (recv c) as [[first c']|]; [|done].
    rewrite <- IH.
    by destruct (sharded.ListAll_heads_traced _ _ _ _ _ _ _) as [r started].
Qed.

Lemma ListAll_heads_traced_error fuel prefix marker followLink
    (pre : list St) store post err (heads : nextObjects Ob) chans :
  Forall (λ store, ∃ c, returned (ListAll fuel store prefix marker followLink) = Ok c
                        ∧ is_Some (recv c)) pre →
  returned (ListAll fuel store prefix marker followLink) = Err err →
  sharded.ListAll_heads_traced fuel prefix marker followLink
    (pre ++ store :: post) heads chans
    = (Returns (Err (errorString
                       ("list " +:+ store_String store +:+ ": " +:+ errors.Error err))),
       map (λ st, ListAll fuel st prefix marker followLink) (pre ++ [store])).
Proof.
  intros Hpre Herr. revert heads chans.
  induction Hpre as [|p pre (c & Hret & [[first c'] Hrecv]) Hpre IH];
    intros heads chans; simpl.
  - by rewrite Herr.
  - rewrite Hret, Hrecv. by rewrite IH.
Qed.

(** X21: the first shard whose listing cannot be started fails the whole
    listing.  The error returned names that shard and ends in the text of
    its error, which for an error made by [errors.New] is its message.  The
    loop has then started the listings of that shard and of the shards
    before it, one each and in order, and none for a shard after it: those
    shards are not asked. *)
Theorem sharded_ListAll_returns_the_first_listing_error
    fuel (s : sharded St) prefix marker followLink pre store post err :
  stores s = pre ++ store :: post →
  Forall (λ store, ∃ c, returned (ListAll fuel store prefix marker followLink) = Ok c
                        ∧ is_Some (recv c)) pre →
  returned (ListAll fuel store prefix marker followLink) = Err err →
  ∃ text,
    sharded.ListAll fuel s prefix marker followLink
      = Returns (Err (errorString ("list " +:+ store_String store +:+ ": " +:+ text)))
    ∧ (∀ msg, err = errorString msg → text = msg)
    ∧ sharded.ListAll_heads_traced fuel prefix marker followLink (stores s)
        (NextObjects []) []
      = (Returns (Err (errorString
                         ("list " +:+ store_String store +:+ ": " +:+ text))),
         map (λ st, ListAll fuel st prefix marker followLink) (pre ++ [store])).
Proof.
  intros Hs Hpre Herr. exists (errors.Error err).
  pose proof (ListAll_heads_traced_error fuel prefix marker followLink pre store post
                err (NextObjects []) [] Hpre Herr) as Htraced.
  split; [|split].
  - unfold sharded.ListAll.
    rewrite <- ListAll_heads_traced_outcome, Hs, Htraced. done.
  - by intros msg ->.
  - by rewrite Hs.
Qed.

(** X22: the merged listing never panics: for every backend behaviour and
    every fuel the heap operations of the merge stay inside the frontier
    and the channels they refer to exist; the call returns, or blocks on a
    receive. *)
Theorem sharded_ListAll_returns_or_blocks
    fuel (s : sharded St) prefix marker followLink :
  sharded.ListAll fuel s prefix marker followLink = Hangs
  ∨ ∃ r, sharded.ListAll fuel s prefix marker followLink = Returns r.
Proof.
  pose proof (sharded_ListAll_no_panic fuel s prefix marker followLink) as Hpanic.
  destruct (sharded.ListAll fuel s prefix marker followLink) as [r| |];
    [right; by exists r|by left|done].
Qed.

End ShardedProperties.

Lemma sharded_ListAll_delivers_witness :
  ∃ merged,
    sharded.ListAll 5
      (mkSharded ([[Ok [ob "b"; ob "a"]]; [Ok [ob "c"]]] : list scripted) [])
      "" "" false
      = Returns (Ok (Channel (map Some merged) true))
    ∧ merged ≡ₚ concat (map (λ c, live (sent c))
                            [Channel [Some (ob "b"); None] true;
                             Channel [Some (ob "c")] true]).
Proof.
  apply (sharded_ListAll_delivers_what_precedes_nil 5
           (mkSharded ([[Ok [ob "b"; ob "a"]]; [Ok [ob "c"]]] : list scripted) [])
           "" "" false
           [Channel [Some (ob "b"); None] true; Channel [Some (ob "c")] true]).
  repeat constructor.
Defined.

Lemma sharded_ListAll_sorted_witness :
  ∃ merged,
    sharded.ListAll 5
      (mkSharded ([[Ok [ob "b"; ob "a"]]; [Ok [ob "c"; ob "d"]; Ok [ob "a"]]]
                    : list scripted) [])
      "" "" false
      = Returns (Ok (Channel (map Some merged) true))
    ∧ StronglySorted object_le merged.
Proof.
  apply (sharded_ListAll_of_paginated_shards_is_sorted 5
           (mkSharded ([[Ok [ob "b"; ob "a"]]; [Ok [ob "c"; ob "d"]; Ok [ob "a"]]]
                         : list scripted) [])
           "" "" false).
  repeat constructor.
  - exists notSupported, [Ok [ob "b"; ob "a"]], [ob "b"; ob "a"], [].
    repeat split.
  - eexists. split; reflexivity.
  - exists notSupported, [Ok [ob "c"; ob "d"]; Ok [ob "a"]], [ob "c"; ob "d"], [Ok [ob "a"]].
    repeat split.
  - eexists. split; reflexivity.
Defined.

Lemma sharded_ListAll_returns_witness :
  ∃ out,
    sharded.ListAll 0
      (mkSharded ([[Ok [ob "a"]]; [Ok []]; []] : list scripted) [])
      "" "" false
    = Returns (Ok out).
Proof.
  apply (sharded_ListAll_returns_for_paginated_shards 0
           (mkSharded ([[Ok [ob "a"]]; [Ok []]; []] : list scripted) []) "" "" false).
  repeat constructor.
  - exists notSupported, [Ok [ob "a"]], [ob "a"], []. repeat split.
  - exists notSupported, [Ok []], [], []. repeat split.
  - exists notSupported, [], [], []. repeat split.
Defined.

Lemma sharded_ListAll_error_witness :
  ∃ text,
    sharded.ListAll 5
      (mkSharded ([[Ok [ob "a"]]; [Err (errorString "down")]; [Ok [ob "b"]]]
                    : list scripted) [])
      "" "" false
    = Returns (Err (errorString
                      ("list " +:+ store_String ([Err (errorString "down")] : scripted)
                         +:+ ": " +:+ text)))
    ∧ (∀ msg, errorString "down" = errorString msg → text = msg)
    ∧ sharded.ListAll_heads_traced 5 "" "" false
        (stores (mkSharded ([[Ok [ob "a"]]; [Err (errorString "down")]; [Ok [ob "b"]]]
                              : list scripted) []))
        (NextObjects []) []
      = (Returns (Err (errorString
                         ("list " +:+ store_String ([Err (errorString "down")] : scripted)
                            +:+ ": " +:+ text))),
         map (λ st : scripted, ListAll 5 st "" "" false)
             ([[Ok [ob "a"]]] ++ [[Err (errorString "down")]])).
Proof.
  apply (sharded_ListAll_returns_the_first_listing_error 5
           (mkSharded ([[Ok [ob "a"]]; [Err (errorString "down")]; [Ok [ob "b"]]]
                         : list scripted) [])
           "" "" false [[Ok [ob "a"]]] [Err (errorString "down")] [[Ok [ob "b"]]]
           (errorString "down")).
  - reflexivity.
  - repeat constructor. eexists. split; [reflexivity|]. by eexists.
  - reflexivity.
Defined.
